(** * aws-cred-proc: the credential cache of [main.go]

    A shallow embedding of the cache-key derivation, the cache file
    format, the [CLICache] load/get/save protocol and the front of [main],
    with the properties of the specification stated and proved over it.

    Go strings and byte slices are [list byte].  The Go standard library
    functions that the program calls ([crypto/sha1], [encoding/hex],
    [encoding/json], [strings], [time], [os]) are modelled from their
    documented behaviour; each such definition says so. *)

From Stdlib Require Import ZArith List Lia Bool.
From Stdlib Require Import Strings.Byte Strings.String Strings.Ascii DecimalString.
From stdpp Require Import gmap list fin_maps.
Import ListNotations.
Open Scope Z_scope.

#[local] Set Warnings "-register-all".

(** ** Bytes and Go strings *)

Abbreviation gostring := (list byte).

(** A Go string literal. *)
Definition B (s : String.string) : gostring := list_byte_of_string s.

Definition byteZ (b : byte) : Z := Z.of_N (Byte.to_N b).

(** Conversion of an integer in 0..255 to a byte (Go's [byte(x)] keeps the
    low eight bits). *)
Definition zbyte (z : Z) : byte :=
  match Byte.of_N (Z.to_N (z mod 256)) with
  | Some b => b
  | None => x00
  end.

#[global] Instance byte_eq_decision : EqDecision byte := Byte.byte_eq_dec.

#[global] Instance byte_countable : Countable byte :=
  inj_countable' Byte.to_N (fun n => default x00 (Byte.of_N n))
    (fun b => f_equal (default x00) (Byte.of_to_N b)).

Definition dquote : byte := x22.
Definition bslash : byte := x5c.

(** [strings.HasPrefix]. *)
Fixpoint HasPrefix (s prefix : gostring) : bool :=
  match prefix, s with
  | [], _ => true
  | p :: prefix', c :: s' => if decide (p = c) then HasPrefix s' prefix' else false
  | _ :: _, [] => false
  end.

(** ** [crypto/sha1]

    SHA-1 as FIPS 180-4 defines it, on 32-bit words held in [Z]. *)
Module SHA1.

Definition w32 (x : Z) : Z := x mod 2 ^ 32.
Definition add32 (x y : Z) : Z := w32 (x + y).
Definition rotl (n x : Z) : Z :=
  Z.lor (w32 (Z.shiftl x n)) (Z.shiftr x (32 - n)).
Definition not32 (x : Z) : Z := Z.lxor x 0xFFFFFFFF.

(** Big-endian word of four bytes. *)
Definition be32 (b0 b1 b2 b3 : byte) : Z :=
  Z.lor (Z.shiftl (byteZ b0) 24)
    (Z.lor (Z.shiftl (byteZ b1) 16) (Z.lor (Z.shiftl (byteZ b2) 8) (byteZ b3))).

Definition be_bytes32 (x : Z) : list byte :=
  [zbyte (Z.shiftr x 24); zbyte (Z.shiftr x 16); zbyte (Z.shiftr x 8); zbyte x].

Definition be_bytes64 (x : Z) : list byte :=
  be_bytes32 (Z.shiftr x 32) ++ be_bytes32 x.

(** The message followed by 0x80, zero bytes up to 56 mod 64, and the
    bit length on eight bytes. *)
Definition pad (msg : list byte) : list byte :=
  let len := Z.of_nat (length msg) in
  let zeros := Z.to_nat ((55 - len) mod 64) in
  msg ++ x80 :: repeat x00 zeros ++ be_bytes64 (8 * len).

Fixpoint words (l : list byte) : list Z :=
  match l with
  | b0 :: b1 :: b2 :: b3 :: l' => be32 b0 b1 b2 b3 :: words l'
  | _ => []
  end.

(** Message schedule: [n] more words after the ones in [w]. *)
Fixpoint schedule (n : nat) (w : list Z) : list Z :=
  match n with
  | O => w
  | S n' =>
      let t := length w in
      let at_ k := nth (t - k) w 0 in
      schedule n'
        (w ++ [rotl 1 (Z.lxor (Z.lxor (at_ 3%nat) (at_ 8%nat))
                         (Z.lxor (at_ 14%nat) (at_ 16%nat)))])
  end.

Definition f (t : nat) (b c d : Z) : Z :=
  if (t <? 20)%nat then Z.lor (Z.land b c) (Z.land (not32 b) d)
  else if (t <? 40)%nat then Z.lxor (Z.lxor b c) d
  else if (t <? 60)%nat then
    Z.lor (Z.lor (Z.land b c) (Z.land b d)) (Z.land c d)
  else Z.lxor (Z.lxor b c) d.

Definition k (t : nat) : Z :=
  if (t <? 20)%nat then 0x5A827999
  else if (t <? 40)%nat then 0x6ED9EBA1
  else if (t <? 60)%nat then 0x8F1BBCDC
  else 0xCA62C1D6.

Record state := State { ha : Z; hb : Z; hc : Z; hd : Z; he : Z }.

Definition init : state :=
  State 0x67452301 0xEFCDAB89 0x98BADCFE 0x10325476 0xC3D2E1F0.

Fixpoint rounds (t : nat) (w : list Z) (s : state) : state :=
  match w with
  | [] => s
  | wt :: w' =>
      let '(State a b c d e) := s in
      let tmp := add32 (add32 (add32 (add32 (rotl 5 a) (f t b c d)) e) (k t)) wt in
      rounds (S t) w' (State tmp a (rotl 30 b) c d)
  end.

Definition block (s : state) (blk : list byte) : state :=
  let '(State a b c d e) := rounds 0 (schedule 64 (words blk)) s in
  State (add32 (ha s) a) (add32 (hb s) b) (add32 (hc s) c)
    (add32 (hd s) d) (add32 (he s) e).

(** Fold [block] over the 64-byte blocks of [l]; [fuel] bounds their
    number. *)
Fixpoint blocks (fuel : nat) (s : state) (l : list byte) : state :=
  match fuel, l with
  | S fuel', _ :: _ => blocks fuel' (block s (firstn 64 l)) (skipn 64 l)
  | _, _ => s
  end.

(** [sha1.Sum]: the 20-byte digest. *)
Definition Sum (msg : list byte) : list byte :=
  let p := pad msg in
  let '(State a b c d e) := blocks (length p) init p in
  be_bytes32 a ++ be_bytes32 b ++ be_bytes32 c ++ be_bytes32 d ++ be_bytes32 e.

End SHA1.

(** ** [encoding/hex] and [strings.ToLower] *)

Definition hextable : gostring := B "0123456789abcdef".

Definition hexdigit (n : Z) : byte := nth (Z.to_nat n) hextable x30.

(** [hex.EncodeToString]: two lowercase digits per byte. *)
Fixpoint EncodeToString (src : list byte) : gostring :=
  match src with
  | [] => []
  | b :: src' =>
      hexdigit (Z.shiftr (byteZ b) 4) :: hexdigit (Z.land (byteZ b) 0x0f)
        :: EncodeToString src'
  end.

(** [strings.ToLower] on ASCII text: the letters A..Z are mapped to a..z.
    (Bytes above 0x7f are left alone; the program only applies it to the
    output of [EncodeToString].) *)
Definition lower_byte (b : byte) : byte :=
  if (0x41 <=? byteZ b) && (byteZ b <=? 0x5a) then zbyte (byteZ b + 32) else b.

Definition ToLower (s : gostring) : gostring := map lower_byte s.

(** ** [unicode/utf8] *)
Module utf8.

Definition RuneError : Z := 0xFFFD.
Definition RuneSelf : Z := 0x80.
Definition MaxRune : Z := 0x10FFFF.

(** The information the table [first] holds for a lead byte: an ASCII
    byte, an invalid lead, or the size of the sequence with the range
    accepted for its second byte. *)
Inductive lead := ASCII | Invalid | Lead (size : nat) (lo hi : Z).

Definition first (b : Z) : lead :=
  if b <? 0x80 then ASCII
  else if b <? 0xC2 then Invalid
  else if b <? 0xE0 then Lead 2 0x80 0xBF
  else if b =? 0xE0 then Lead 3 0xA0 0xBF
  else if b <? 0xED then Lead 3 0x80 0xBF
  else if b =? 0xED then Lead 3 0x80 0x9F
  else if b <? 0xF0 then Lead 3 0x80 0xBF
  else if b =? 0xF0 then Lead 4 0x90 0xBF
  else if b <? 0xF4 then Lead 4 0x80 0xBF
  else if b =? 0xF4 then Lead 4 0x80 0x8F
  else Invalid.

Definition cont (b : Z) : bool := (0x80 <=? b) && (b <=? 0xBF).

(** [utf8.DecodeRune]: the first rune of [s] and its width in bytes;
    [(RuneError, 1)] for an ill-formed sequence, [(RuneError, 0)] for the
    empty string. *)
Definition DecodeRune (s : gostring) : Z * nat :=
  match s with
  | [] => (RuneError, 0%nat)
  | b0 :: _ =>
      let s0 := byteZ b0 in
      match first s0 with
      | ASCII => (s0, 1%nat)
      | Invalid => (RuneError, 1%nat)
      | Lead sz lo hi =>
          let s1 := byteZ (nth 1 s x00) in
          let s2 := byteZ (nth 2 s x00) in
          let s3 := byteZ (nth 3 s x00) in
          if (length s <? sz)%nat then (RuneError, 1%nat)
          else if (s1 <? lo) || (hi <? s1) then (RuneError, 1%nat)
          else if (sz <=? 2)%nat then
            (Z.lor (Z.shiftl (Z.land s0 0x1F) 6) (Z.land s1 0x3F), 2%nat)
          else if negb (cont s2) then (RuneError, 1%nat)
          else if (sz <=? 3)%nat then
            (Z.lor (Z.shiftl (Z.land s0 0x0F) 12)
               (Z.lor (Z.shiftl (Z.land s1 0x3F) 6) (Z.land s2 0x3F)), 3%nat)
          else if negb (cont s3) then (RuneError, 1%nat)
          else
            (Z.lor (Z.shiftl (Z.land s0 0x07) 18)
               (Z.lor (Z.shiftl (Z.land s1 0x3F) 12)
                  (Z.lor (Z.shiftl (Z.land s2 0x3F) 6) (Z.land s3 0x3F))), 4%nat)
      end
  end.

Definition enc3 (r : Z) : gostring :=
  [zbyte (Z.lor 0xE0 (Z.shiftr r 12));
   zbyte (Z.lor 0x80 (Z.land (Z.shiftr r 6) 0x3F));
   zbyte (Z.lor 0x80 (Z.land r 0x3F))].

(** [utf8.EncodeRune] (the bytes written); a surrogate or a value
    outside the Unicode range is written as U+FFFD. *)
Definition EncodeRune (r : Z) : gostring :=
  if (0 <=? r) && (r <=? 0x7F) then [zbyte r]
  else if (0 <=? r) && (r <=? 0x7FF) then
    [zbyte (Z.lor 0xC0 (Z.shiftr r 6)); zbyte (Z.lor 0x80 (Z.land r 0x3F))]
  else if (r <? 0) || (MaxRune <? r) || ((0xD800 <=? r) && (r <=? 0xDFFF))
  then enc3 RuneError
  else if r <=? 0xFFFF then enc3 r
  else
    [zbyte (Z.lor 0xF0 (Z.shiftr r 18));
     zbyte (Z.lor 0x80 (Z.land (Z.shiftr r 12) 0x3F));
     zbyte (Z.lor 0x80 (Z.land (Z.shiftr r 6) 0x3F));
     zbyte (Z.lor 0x80 (Z.land r 0x3F))].

(** [utf8.Valid]. *)
Fixpoint Valid_loop (fuel : nat) (s : gostring) : bool :=
  match fuel, s with
  | _, [] => true
  | O, _ :: _ => false
  | S fuel', _ :: s' =>
      let '(r, size) := DecodeRune s in
      if (r =? RuneError) && (size =? 1)%nat then false
      else Valid_loop fuel' (skipn size s)
  end.

Definition Valid (s : gostring) : bool := Valid_loop (length s) s.

End utf8.

(** ** [strconv] and [strings] *)

(** [strconv.FormatInt (i, 10)]. *)
Definition FormatInt (i : Z) : gostring :=
  list_byte_of_string (DecimalString.NilZero.string_of_int (Z.to_int i)).

(** [strings.Replace (s, old, new, -1)] for a non-empty [old]: every
    non-overlapping occurrence of [old], leftmost first, becomes [new].
    (For an empty [old] Go inserts [new] around every rune; the program
    never does that and the model returns [s].) *)
Fixpoint Replace_loop (fuel : nat) (s old new : gostring) : gostring :=
  match fuel, s with
  | S fuel', c :: s' =>
      if HasPrefix s old then new ++ Replace_loop fuel' (skipn (length old) s) old new
      else c :: Replace_loop fuel' s' old new
  | _, _ => s
  end.

Definition Replace (s old new : gostring) : gostring :=
  match old with
  | [] => s
  | _ :: _ => Replace_loop (length s) s old new
  end.

(** ** [encoding/json]: encoding *)
Module json.

(** [htmlSafeSet]: the ASCII bytes copied as they are by the encoder
    when HTML escaping is on, as it is for [json.Marshal]. *)
Definition htmlSafeSet (b : byte) : bool :=
  let z := byteZ b in
  (0x20 <=? z) && (z <? 0x80)
  && negb (bool_decide (b = dquote)) && negb (bool_decide (b = bslash))
  && negb (bool_decide (b = x26)) && negb (bool_decide (b = x3c)) && negb (bool_decide (b = x3e)).

(** The escape written for an ASCII byte outside [htmlSafeSet]. *)
Definition escape (b : byte) : gostring :=
  match b with
  | x5c | x22 => [bslash; b]
  | x08 => B "\b"
  | x0c => B "\f"
  | x0a => B "\n"
  | x0d => B "\r"
  | x09 => B "\t"
  | _ => B "\u00" ++ [hexdigit (Z.shiftr (byteZ b) 4); hexdigit (Z.land (byteZ b) 0xF)]
  end.

(** The body of [appendString] (the text between the quotes).  Ill-formed
    UTF-8 is written as the escape of U+FFFD, and U+2028 and U+2029 are
    escaped. *)
Fixpoint appendString_loop (fuel : nat) (src : gostring) : gostring :=
  match fuel, src with
  | S fuel', b :: src' =>
      if byteZ b <? utf8.RuneSelf then
        (if htmlSafeSet b then [b] else escape b) ++ appendString_loop fuel' src'
      else
        let '(c, size) := utf8.DecodeRune src in
        if (c =? utf8.RuneError) && (size =? 1)%nat then
          B "\ufffd" ++ appendString_loop fuel' src'
        else if (c =? 0x2028) || (c =? 0x2029) then
          B "\u202" ++ hexdigit (Z.land c 0xF) :: appendString_loop fuel' (skipn size src)
        else firstn size src ++ appendString_loop fuel' (skipn size src)
  | _, _ => []
  end.

(** [appendString]: a JSON string literal. *)
Definition appendString (src : gostring) : gostring :=
  dquote :: appendString_loop (length src) src ++ [dquote].

(** An object member [name:value] of a struct field; the field names of
    this program need no escaping. *)
Definition member (name : String.string) (value : gostring) : gostring :=
  dquote :: B name ++ dquote :: B ":" ++ value.

(** The members of an object, comma separated, between braces. *)
Fixpoint join (sep : gostring) (l : list gostring) : gostring :=
  match l with
  | [] => []
  | [x] => x
  | x :: l' => x ++ sep ++ join sep l'
  end.

Definition object (members : list gostring) : gostring :=
  B "{" ++ join (B ",") members ++ B "}".

(** *** Decoding

    [json.Unmarshal] first checks the whole input against the JSON
    grammar ([checkValid]) and only then decodes it.  The model parses
    the input into a tree; a member of an object keeps the text of its
    value, which is what an [Unmarshaler] receives. *)

Inductive value :=
| VNull
| VTrue
| VFalse
| VNumber
| VString (body : gostring)
| VArray (elems : list value)
| VObject (members : list (gostring * gostring * value)).

Definition maxNestingDepth : Z := 10000.

Definition byte_is (c x : byte) : bool := bool_decide (c = x).

Definition isSpace (c : byte) : bool :=
  byte_is c x20 || byte_is c x09 || byte_is c x0d || byte_is c x0a.

Fixpoint skipSpace (s : gostring) : gostring :=
  match s with
  | c :: s' => if isSpace c then skipSpace s' else s
  | [] => []
  end.

Definition isDigit (c : byte) : bool := (0x30 <=? byteZ c) && (byteZ c <=? 0x39).

Definition isHex (c : byte) : bool :=
  isDigit c
  || ((0x61 <=? byteZ c) && (byteZ c <=? 0x66))
  || ((0x41 <=? byteZ c) && (byteZ c <=? 0x46)).

Definition simpleEscape (e : byte) : bool :=
  byte_is e x62 || byte_is e x66 || byte_is e x6e || byte_is e x72 || byte_is e x74
  || byte_is e bslash || byte_is e x2f || byte_is e dquote.

(** The scanner inside a string literal, after the opening quote: the
    text up to the closing quote and the input after it. *)
Fixpoint scanString (s : gostring) : option (gostring * gostring) :=
  match s with
  | [] => None
  | c :: s' =>
      if byte_is c dquote then Some ([], s')
      else if byte_is c bslash then
        match s' with
        | e :: s'' =>
            if simpleEscape e then
              '(body, rest) ← scanString s''; Some (c :: e :: body, rest)
            else if byte_is e x75 then
              match s'' with
              | h1 :: h2 :: h3 :: h4 :: s3 =>
                  if isHex h1 && isHex h2 && isHex h3 && isHex h4 then
                    '(body, rest) ← scanString s3;
                    Some (c :: e :: h1 :: h2 :: h3 :: h4 :: body, rest)
                  else None
              | _ => None
              end
            else None
        | [] => None
        end
      else if byteZ c <? 0x20 then None
      else '(body, rest) ← scanString s'; Some (c :: body, rest)
  end.

Fixpoint skipDigits (s : gostring) : gostring :=
  match s with
  | c :: s' => if isDigit c then skipDigits s' else s
  | [] => []
  end.

(** One digit at least. *)
Definition digits1 (s : gostring) : option gostring :=
  match s with
  | c :: s' => if isDigit c then Some (skipDigits s') else None
  | [] => None
  end.

(** A number: the input after it. *)
Definition scanNumber (s : gostring) : option gostring :=
  let s := match s with c :: s' => if byte_is c x2d then s' else s | [] => s end in
  s ← match s with
      | c :: s' =>
          if byte_is c x30 then Some s'
          else if isDigit c then Some (skipDigits s')
          else None
      | [] => None
      end;
  s ← match s with
      | c :: s' => if byte_is c x2e then digits1 s' else Some s
      | [] => Some s
      end;
  match s with
  | c :: s' =>
      if byte_is c x65 || byte_is c x45 then
        match s' with
        | g :: s'' => if byte_is g x2b || byte_is g x2d then digits1 s'' else digits1 s'
        | [] => None
        end
      else Some s
  | [] => Some s
  end.

(** The text that a value took: what was read of [s] to leave [rest]. *)
Definition consumed (s rest : gostring) : gostring :=
  firstn (length s - length rest) s.

(** A value at the head of [s] (spaces already skipped) and the input
    after it.  [fuel] decreases at every nested value and every member
    or element; each of them takes at least one byte, so the length of
    the input byte_is fuel enough. *)
Fixpoint parseValue (fuel : nat) (depth : Z) (s : gostring)
  : option (value * gostring) :=
  match fuel with
  | O => None
  | S fuel' =>
      match s with
      | [] => None
      | c :: s' =>
          if byte_is c x7b then
            if maxNestingDepth <? depth + 1 then None else
            match skipSpace s' with
            | c1 :: r =>
                if byte_is c1 x7d then Some (VObject [], r)
                else '(ms, r) ← parseMembers fuel' (depth + 1) (c1 :: r);
                     Some (VObject ms, r)
            | [] => None
            end
          else if byte_is c x5b then
            if maxNestingDepth <? depth + 1 then None else
            match skipSpace s' with
            | c1 :: r =>
                if byte_is c1 x5d then Some (VArray [], r)
                else '(vs, r) ← parseElems fuel' (depth + 1) (c1 :: r);
                     Some (VArray vs, r)
            | [] => None
            end
          else if byte_is c dquote then
            '(body, r) ← scanString s'; Some (VString body, r)
          else if byte_is c x2d || isDigit c then
            r ← scanNumber s; Some (VNumber, r)
          else if HasPrefix s (B "true") then Some (VTrue, skipn 4 s)
          else if HasPrefix s (B "false") then Some (VFalse, skipn 5 s)
          else if HasPrefix s (B "null") then Some (VNull, skipn 4 s)
          else None
      end
  end
with parseMembers (fuel : nat) (depth : Z) (s : gostring)
  : option (list (gostring * gostring * value) * gostring) :=
  match fuel with
  | O => None
  | S fuel' =>
      match s with
      | q :: s' =>
          if byte_is q dquote then
            '(key, r) ← scanString s';
            match skipSpace r with
            | c :: r1 =>
                if byte_is c x3a then
                  let v0 := skipSpace r1 in
                  '(v, r2) ← parseValue fuel' depth v0;
                  let raw := consumed v0 r2 in
                  match skipSpace r2 with
                  | c2 :: r3 =>
                      if byte_is c2 x2c then
                        '(ms, r4) ← parseMembers fuel' depth (skipSpace r3);
                        Some ((key, raw, v) :: ms, r4)
                      else if byte_is c2 x7d then Some ([(key, raw, v)], r3)
                      else None
                  | [] => None
                  end
                else None
            | [] => None
            end
          else None
      | [] => None
      end
  end
with parseElems (fuel : nat) (depth : Z) (s : gostring)
  : option (list value * gostring) :=
  match fuel with
  | O => None
  | S fuel' =>
      '(v, r) ← parseValue fuel' depth s;
      match skipSpace r with
      | c :: r1 =>
          if byte_is c x2c then
            '(vs, r2) ← parseElems fuel' depth (skipSpace r1); Some (v :: vs, r2)
          else if byte_is c x5d then Some ([v], r1)
          else None
      | [] => None
      end
  end.

(** [checkValid] and the tree of the input: one value, spaces around it
    and nothing else. *)
Definition parse (data : gostring) : option value :=
  let s := skipSpace data in
  '(v, r) ← parseValue (S (length s + length s)) 0 s;
  match skipSpace r with
  | [] => Some v
  | _ :: _ => None
  end.

Definition hexval (c : byte) : Z :=
  let z := byteZ c in
  if z <=? 0x39 then z - 0x30
  else if z <=? 0x46 then z - 0x41 + 10
  else z - 0x61 + 10.

(** [getu4]: the code unit of a [\uXXXX] escape at the head of [s], or
    -1. *)
Definition getu4 (s : gostring) : Z :=
  match s with
  | c :: e :: h1 :: h2 :: h3 :: h4 :: _ =>
      if byte_is c bslash && byte_is e x75 && isHex h1 && isHex h2 && isHex h3 && isHex h4
      then hexval h1 * 4096 + hexval h2 * 256 + hexval h3 * 16 + hexval h4
      else -1
  | _ => -1
  end.

(** [utf16.IsSurrogate] and [utf16.DecodeRune]. *)
Definition IsSurrogate (r : Z) : bool := (0xd800 <=? r) && (r <? 0xe000).

Definition utf16_DecodeRune (r1 r2 : Z) : Z :=
  if (0xd800 <=? r1) && (r1 <? 0xdc00) && (0xdc00 <=? r2) && (r2 <? 0xe000)
  then Z.lor (Z.shiftl (r1 - 0xd800) 10) (r2 - 0xdc00) + 0x10000
  else utf8.RuneError.

(** [unquoteBytes] on the text between the quotes: escapes are decoded
    and ill-formed UTF-8 becomes U+FFFD.  (Go returns the text itself
    when it has nothing to decode, which byte_is what the loop computes
    too.) *)
Fixpoint unquote_loop (fuel : nat) (s : gostring) : option gostring :=
  match fuel, s with
  | _, [] => Some []
  | O, _ :: _ => None
  | S fuel', c :: s' =>
      if byte_is c bslash then
        match s' with
        | [] => None
        | e :: s'' =>
            if byte_is e dquote || byte_is e bslash || byte_is e x2f || byte_is e x27 then
              t ← unquote_loop fuel' s''; Some (e :: t)
            else if byte_is e x62 then t ← unquote_loop fuel' s''; Some (x08 :: t)
            else if byte_is e x66 then t ← unquote_loop fuel' s''; Some (x0c :: t)
            else if byte_is e x6e then t ← unquote_loop fuel' s''; Some (x0a :: t)
            else if byte_is e x72 then t ← unquote_loop fuel' s''; Some (x0d :: t)
            else if byte_is e x74 then t ← unquote_loop fuel' s''; Some (x09 :: t)
            else if byte_is e x75 then
              let rr := getu4 s in
              if rr <? 0 then None else
              let s6 := skipn 6 s in
              if IsSurrogate rr then
                let dec := utf16_DecodeRune rr (getu4 s6) in
                if negb (dec =? utf8.RuneError) then
                  t ← unquote_loop fuel' (skipn 6 s6); Some (utf8.EncodeRune dec ++ t)
                else
                  t ← unquote_loop fuel' s6; Some (utf8.EncodeRune utf8.RuneError ++ t)
              else
                t ← unquote_loop fuel' s6; Some (utf8.EncodeRune rr ++ t)
            else None
        end
      else if byte_is c dquote || (byteZ c <? 0x20) then None
      else if byteZ c <? utf8.RuneSelf then
        t ← unquote_loop fuel' s'; Some (c :: t)
      else
        let '(rr, size) := utf8.DecodeRune s in
        t ← unquote_loop fuel' (skipn size s); Some (utf8.EncodeRune rr ++ t)
  end.

Definition unquote (body : gostring) : option gostring :=
  unquote_loop (length body) body.

Definition upper_byte (b : byte) : byte :=
  if (0x61 <=? byteZ b) && (byteZ b <=? 0x7a) then zbyte (byteZ b - 32) else b.

(** [foldName]: the key under which a member byte_is matched with a struct
    field whatever the case of its letters.  ASCII letters are put in
    upper case; of the other runes only U+017F and U+212A fold to an
    ASCII letter (S and K), and the field names of the program are
    ASCII. *)
Fixpoint foldName (s : gostring) : gostring :=
  match s with
  | b0 :: s0 =>
      match s0 with
      | b1 :: s1 =>
          if byte_is b0 xc5 && byte_is b1 xbf then x53 :: foldName s1
          else
            match s1 with
            | b2 :: s2 =>
                if byte_is b0 xe2 && byte_is b1 x84 && byte_is b2 xaa then x4b :: foldName s2
                else upper_byte b0 :: foldName s0
            | [] => upper_byte b0 :: foldName s0
            end
      | [] => [upper_byte b0]
      end
  | [] => []
  end.

(** Does the member [key] (the text between its quotes) name the struct
    field [name]? *)
Definition keyIs (key : gostring) (name : String.string) : bool :=
  match unquote key with
  | Some k => bool_decide (foldName k = foldName (B name))
  | None => false
  end.

End json.

(** ** The cache key (main.go, lines 178-204) *)

Record computableCacheKey := {
  DurationSeconds : Z;
  ExternalId : gostring;
  RoleArn : gostring;
  SerialNumber : gostring
}.

(** A struct field tagged [omitempty]: absent when the value is the zero
    of its type. *)
Definition omitempty_int (name : String.string) (v : Z) : list gostring :=
  if v =? 0 then [] else [json.member name (FormatInt v)].

Definition omitempty_string (name : String.string) (v : gostring) : list gostring :=
  match v with
  | [] => []
  | _ :: _ => [json.member name (json.appendString v)]
  end.

(** [json.Marshal] of a [computableCacheKey]: the fields in the order of
    the struct declaration. *)
Definition Marshal_cacheKey (v : computableCacheKey) : gostring :=
  json.object
    (omitempty_int "DurationSeconds" (DurationSeconds v)
     ++ omitempty_string "ExternalId" (ExternalId v)
     ++ omitempty_string "RoleArn" (RoleArn v)
     ++ omitempty_string "SerialNumber" (SerialNumber v)).

(** [computableCacheKey.String]. *)
Definition cacheKey_blobStr (v : computableCacheKey) : gostring :=
  let blobStr := Marshal_cacheKey v in
  let blobStr := Replace blobStr (dquote :: B ":") (dquote :: B ": ") in
  Replace blobStr (B "," ++ [dquote]) (B ", " ++ [dquote]).

Definition cacheKey_String (v : computableCacheKey) : gostring :=
  ToLower (EncodeToString (SHA1.Sum (cacheKey_blobStr v))).

(** *** The derivation as the specification words it

    The object holding, in the fixed order, the non-empty fields, with one
    space after the colon of each member and one after each comma between
    members, and no other change. *)
Definition spec_member (name : String.string) (value : gostring) : gostring :=
  dquote :: B name ++ dquote :: B ": " ++ value.

Definition spec_int (name : String.string) (v : Z) : list gostring :=
  if v =? 0 then [] else [spec_member name (FormatInt v)].

Definition spec_string (name : String.string) (v : gostring) : list gostring :=
  match v with
  | [] => []
  | _ :: _ => [spec_member name (json.appendString v)]
  end.

Definition spec_blobStr (v : computableCacheKey) : gostring :=
  B "{"
  ++ json.join (B ", ")
       (spec_int "DurationSeconds" (DurationSeconds v)
        ++ spec_string "ExternalId" (ExternalId v)
        ++ spec_string "RoleArn" (RoleArn v)
        ++ spec_string "SerialNumber" (SerialNumber v))
  ++ B "}".

Definition spec_cacheKey (v : computableCacheKey) : gostring :=
  ToLower (EncodeToString (SHA1.Sum (spec_blobStr v))).

(** [strings.Trim (s, cutset)] for a cutset of one ASCII byte. *)
Fixpoint TrimLeft (s : gostring) (c : byte) : gostring :=
  match s with
  | b :: s' => if decide (b = c) then TrimLeft s' c else s
  | [] => []
  end.

Definition TrimRight (s : gostring) (c : byte) : gostring :=
  rev (TrimLeft (rev s) c).

Definition Trim (s : gostring) (c : byte) : gostring :=
  TrimRight (TrimLeft s c) c.

(** ** [time]

    A [time.Time] is an instant, seconds and nanoseconds since the Unix
    epoch, together with the offset east of UTC of its location at that
    instant; the zero offset stands for [time.UTC]. *)
Module time.

Record Time := { unix : Z; nsec : Z; offset : Z }.

(** [Time.After]: instants are compared, whatever the locations. *)
Definition After (t u : Time) : bool :=
  (unix u <? unix t) || ((unix t =? unix u) && (nsec u <? nsec t)).

Definition isLeap (year : Z) : bool :=
  (year mod 4 =? 0) && (negb (year mod 100 =? 0) || (year mod 400 =? 0)).

(** [daysBefore]: the days of a common year before the first day of the
    month after month [m]. *)
Definition daysBefore (m : Z) : Z :=
  nth (Z.to_nat m) [0; 31; 59; 90; 120; 151; 181; 212; 243; 273; 304; 334; 365] 0.

(** [daysIn]. *)
Definition daysIn (month year : Z) : Z :=
  if (month =? 2) && isLeap year then 29
  else daysBefore month - daysBefore (month - 1).

(** [daysSinceEpoch]: the days from 1 January of year 1 to 1 January of
    [year], in cycles of 400, 100 and 4 years.  (Go counts from a year
    that lies a multiple of 400 years earlier.) *)
Definition daysSinceEpoch (year : Z) : Z :=
  let y := year - 1 in
  let n := y / 400 in
  let y := y - 400 * n in
  let d := 146097 * n in
  let n := y / 100 in
  let y := y - 100 * n in
  let d := d + 36524 * n in
  let n := y / 4 in
  let y := y - 4 * n in
  let d := d + 1461 * n in
  d + 365 * y.

(** The days from 1 January of year 1 to 1 January 1970. *)
Definition unixEpochDay : Z := 719162.

(** The days from 1970-01-01 to a date, as [time.Date] computes them for a
    month and a day in range. *)
Definition days_from_civil (year month day : Z) : Z :=
  daysSinceEpoch year + daysBefore (month - 1)
  + (if isLeap year && (3 <=? month) then 1 else 0)
  + (day - 1) - unixEpochDay.

(** [absDate]: the year and the day of the year, from 0, of the day that
    lies [abs] days after 1 January of year 1. *)
Definition absDate (abs : Z) : Z * Z :=
  let d := abs in
  (* 400-year cycles *)
  let n := d / 146097 in
  let y := 400 * n in
  let d := d - 146097 * n in
  (* 100-year cycles; the last one has an extra leap year *)
  let n := d / 36524 in
  let n := n - Z.shiftr n 2 in
  let y := y + 100 * n in
  let d := d - 36524 * n in
  (* 4-year cycles *)
  let n := d / 1461 in
  let y := y + 4 * n in
  let d := d - 1461 * n in
  (* years within a 4-year cycle; the last one is a leap year *)
  let n := d / 365 in
  let n := n - Z.shiftr n 2 in
  let y := y + n in
  let d := d - 365 * n in
  (y + 1, d).

(** The month and the day of the month of a day of the year. *)
Definition monthDay (year yday : Z) : Z * Z :=
  if isLeap year && (yday =? 31 + 29 - 1) then (2, 29)
  else
    let day := if isLeap year && (31 + 29 - 1 <? yday) then yday - 1 else yday in
    let month := day / 31 in
    let end_ := daysBefore (month + 1) in
    let '(month, begin) :=
      if end_ <=? day then (month + 1, end_) else (month, daysBefore month) in
    (month + 1, day - begin + 1).

(** The date of the day that lies [z] days after 1970-01-01. *)
Definition civil_from_days (z : Z) : Z * Z * Z :=
  let '(year, yday) := absDate (z + unixEpochDay) in
  let '(month, day) := monthDay year yday in
  (year, month, day).

(** [time.Date (year, month, day, hour, min, sec, nsec, time.UTC)] for
    fields already in range, which is how [Parse] calls it. *)
Definition Date (year month day hour min sec ns : Z) : Time :=
  {| unix := days_from_civil year month day * 86400 + hour * 3600 + min * 60 + sec;
     nsec := ns; offset := 0 |}.

Definition digit (n : Z) : byte := zbyte (0x30 + n).

(** [appendInt]: the decimal digits of [x], zero padded to [width], after
    a minus sign when [x] is negative. *)
Definition appendInt (x : Z) (width : nat) : gostring :=
  let digits := FormatInt (Z.abs x) in
  (if x <? 0 then B "-" else [])
  ++ repeat x30 (width - length digits) ++ digits.

(** [Time.Format] with the layout ["2006-01-02T15:04:05+00:00"].  The
    layout has the chunks: year on four digits, month, day, hour, minute
    and second on two; every other character, the final [+00:00]
    included, is literal text.  The fields are those of the wall clock in
    the location of [t]. *)
Definition Format (t : Time) : gostring :=
  let wall := unix t + offset t in
  let '(year, month, day) := civil_from_days (wall / 86400) in
  let secs := wall mod 86400 in
  appendInt year 4 ++ B "-" ++ appendInt month 2 ++ B "-" ++ appendInt day 2
  ++ B "T" ++ appendInt (secs / 3600) 2 ++ B ":" ++ appendInt (secs mod 3600 / 60) 2
  ++ B ":" ++ appendInt (secs mod 60) 2 ++ B "+00:00".

Definition isDigit (s : gostring) (i : nat) : bool :=
  match nth_error s i with
  | Some c => (0x30 <=? byteZ c) && (byteZ c <=? 0x39)
  | None => false
  end.

Definition digitval (s : gostring) (i : nat) : Z := byteZ (nth i s x30) - 0x30.

(** [getnum]: a number of one or two digits, of exactly two when
    [fixed]. *)
Definition getnum (s : gostring) (fixed : bool) : option (Z * gostring) :=
  if negb (isDigit s 0) then None
  else if negb (isDigit s 1) then
    (if fixed then None else Some (digitval s 0, skipn 1 s))
  else Some (digitval s 0 * 10 + digitval s 1, skipn 2 s).

(** [skip] for a prefix without spaces: the literal text must be there. *)
Definition skip (value prefix : gostring) : option gostring :=
  if HasPrefix value prefix then Some (skipn (length prefix) value) else None.

(** The value of a run of decimal digits ([atoi] on digits only). *)
Fixpoint digits_value (acc : Z) (s : gostring) : option Z :=
  match s with
  | [] => Some acc
  | c :: s' =>
      if (0x30 <=? byteZ c) && (byteZ c <=? 0x39)
      then digits_value (acc * 10 + (byteZ c - 0x30)) s'
      else None
  end.

(** The number of leading digits of [s] from index [n] on. *)
Fixpoint digits_run (s : gostring) : nat :=
  match s with
  | c :: s' =>
      if (0x30 <=? byteZ c) && (byteZ c <=? 0x39) then S (digits_run s') else O
  | [] => O
  end.

(** [parseNanoseconds (value, nbytes)]: [value] starts with a comma or a
    period followed by [nbytes - 1] digits; at most nine are used. *)
Definition parseNanoseconds (value : gostring) (nbytes : nat) : option Z :=
  let nbytes := Nat.min nbytes 10 in
  match digits_value 0 (firstn (nbytes - 1) (skipn 1 value)) with
  | Some ns => Some (ns * 10 ^ Z.of_nat (10 - nbytes))
  | None => None
  end.

Definition commaOrPeriod (s : gostring) : bool :=
  match s with
  | c :: _ => bool_decide (c = x2e) || bool_decide (c = x2c)
  | [] => false
  end.

(** [time.Parse] with the layout ["2006-01-02T15:04:05+00:00"], chunk by
    chunk.  The hour chunk [15] takes one or two digits, the others are
    of fixed width; a fraction of a second is accepted after the seconds
    although the layout has none; the result is in UTC. *)
Definition Parse (value : gostring) : option Time :=
  (* stdLongYear *)
  if (length value <? 4)%nat || negb (isDigit value 0) then None else
  year ← digits_value 0 (firstn 4 value);
  value ← skip (skipn 4 value) (B "-");
  (* stdZeroMonth *)
  '(month, value) ← getnum value true;
  if (month <=? 0) || (12 <? month) then None else
  value ← skip value (B "-");
  (* stdZeroDay *)
  '(day, value) ← getnum value true;
  value ← skip value (B "T");
  (* stdHour *)
  '(hour, value) ← getnum value false;
  if (hour <? 0) || (24 <=? hour) then None else
  value ← skip value (B ":");
  (* stdZeroMinute *)
  '(min, value) ← getnum value true;
  if (min <? 0) || (60 <=? min) then None else
  value ← skip value (B ":");
  (* stdZeroSecond *)
  '(sec, value) ← getnum value true;
  if (sec <? 0) || (60 <=? sec) then None else
  '(ns, value) ←
    (if (2 <=? length value)%nat && commaOrPeriod value && isDigit value 1 then
       let n := S (digits_run (skipn 1 value)) in
       ns ← parseNanoseconds value n; Some (ns, skipn n value)
     else Some (0, value));
  (* the literal tail, and nothing after it *)
  value ← skip value (B "+00:00");
  if negb (length value =? 0)%nat then None else
  (* the day of the month is validated last *)
  if (day <? 1) || (daysIn month year <? day) then None else
  Some (Date year month day hour min sec ns).

End time.

(** ** The cache file (main.go, lines 206-232) *)

Record CachedCredentials := {
  AccessKeyId : gostring;
  SecretAccessKey : gostring;
  SessionToken : gostring;
  Expiration : time.Time          (* ExpireTime *)
}.

(** [Credentials] is a pointer: [None] is nil. *)
Record CLICompatCacheItem := { Credentials : option CachedCredentials }.

(** The zero [time.Time]: 1 January of year 1, 00:00:00 UTC. *)
Definition zeroTime : time.Time :=
  {| time.unix := -62135596800; time.nsec := 0; time.offset := 0 |}.

Definition zeroCachedCredentials : CachedCredentials :=
  {| AccessKeyId := []; SecretAccessKey := []; SessionToken := [];
     Expiration := zeroTime |}.


(** [ExpireTime.MarshalJSON]: the formatted time as a JSON string. *)
Definition ExpireTime_MarshalJSON (e : time.Time) : gostring :=
  json.appendString (time.Format e).

(** [ExpireTime.UnmarshalJSON]: the quotes at both ends of the text are
    trimmed and the rest is parsed; [None] is the error of [time.Parse]. *)
Definition ExpireTime_UnmarshalJSON (data : gostring) : option time.Time :=
  let v := Trim data dquote in
  time.Parse v.

(** [json.Marshal] of a [CLICompatCacheItem]. *)
Definition Marshal_CachedCredentials (cc : CachedCredentials) : gostring :=
  json.object
    [json.member "AccessKeyId" (json.appendString (AccessKeyId cc));
     json.member "SecretAccessKey" (json.appendString (SecretAccessKey cc));
     json.member "SessionToken" (json.appendString (SessionToken cc));
     json.member "Expiration" (ExpireTime_MarshalJSON (Expiration cc))].

Definition Marshal_item (item : CLICompatCacheItem) : gostring :=
  json.object
    [json.member "Credentials"
       match Credentials item with
       | Some cc => Marshal_CachedCredentials cc
       | None => B "null"
       end].

(** The errors of [json.Unmarshal]. *)
Inductive json_error := SyntaxError | UnmarshalTypeError | TimeParseError.

Definition saveError (saved : option json_error) (e : json_error) : option json_error :=
  match saved with
  | Some _ => saved
  | None => Some e
  end.

(** A JSON value stored into a Go string: a string is unquoted, null
    leaves the field as it is, anything else is a type error that is
    saved while the decoding goes on. *)
Definition decode_string (v : json.value) (old : gostring) (saved : option json_error)
  : gostring * option json_error :=
  match v with
  | json.VString body =>
      match json.unquote body with
      | Some s => (s, saved)
      | None => (old, saveError saved SyntaxError)
      end
  | json.VNull => (old, saved)
  | _ => (old, saveError saved UnmarshalTypeError)
  end.

(** The members of an object stored into a [CachedCredentials], in the
    order of the input.  Keys that name no field are skipped.  The error
    of [UnmarshalJSON] stops the decoding at once. *)
Fixpoint decode_CachedCredentials (ms : list (gostring * gostring * json.value))
  (cc : CachedCredentials) (saved : option json_error)
  : json_error + CachedCredentials * option json_error :=
  match ms with
  | [] => inr (cc, saved)
  | (key, raw, v) :: ms' =>
      if json.keyIs key "AccessKeyId" then
        let '(s, saved) := decode_string v (AccessKeyId cc) saved in
        decode_CachedCredentials ms'
          {| AccessKeyId := s; SecretAccessKey := SecretAccessKey cc;
             SessionToken := SessionToken cc; Expiration := Expiration cc |} saved
      else if json.keyIs key "SecretAccessKey" then
        let '(s, saved) := decode_string v (SecretAccessKey cc) saved in
        decode_CachedCredentials ms'
          {| AccessKeyId := AccessKeyId cc; SecretAccessKey := s;
             SessionToken := SessionToken cc; Expiration := Expiration cc |} saved
      else if json.keyIs key "SessionToken" then
        let '(s, saved) := decode_string v (SessionToken cc) saved in
        decode_CachedCredentials ms'
          {| AccessKeyId := AccessKeyId cc; SecretAccessKey := SecretAccessKey cc;
             SessionToken := s; Expiration := Expiration cc |} saved
      else if json.keyIs key "Expiration" then
        match ExpireTime_UnmarshalJSON raw with
        | Some t =>
            decode_CachedCredentials ms'
              {| AccessKeyId := AccessKeyId cc; SecretAccessKey := SecretAccessKey cc;
                 SessionToken := SessionToken cc; Expiration := t |} saved
        | None => inl TimeParseError
        end
      else decode_CachedCredentials ms' cc saved
  end.

(** The members of the top-level object stored into a
    [CLICompatCacheItem]: null makes the pointer nil, an object is decoded
    into the struct it points to (allocated when the pointer is nil). *)
Fixpoint decode_item (ms : list (gostring * gostring * json.value))
  (item : CLICompatCacheItem) (saved : option json_error)
  : json_error + CLICompatCacheItem * option json_error :=
  match ms with
  | [] => inr (item, saved)
  | (key, raw, v) :: ms' =>
      if json.keyIs key "Credentials" then
        let cc := default zeroCachedCredentials (Credentials item) in
        match v with
        | json.VNull => decode_item ms' {| Credentials := None |} saved
        | json.VObject fields =>
            match decode_CachedCredentials fields cc saved with
            | inl e => inl e
            | inr (cc', saved) => decode_item ms' {| Credentials := Some cc' |} saved
            end
        | _ =>
            decode_item ms' {| Credentials := Some cc |}
              (saveError saved UnmarshalTypeError)
        end
      else decode_item ms' item saved
  end.

(** [json.Unmarshal (data, &v)] for a zero [v CLICompatCacheItem]; when it
    returns an error the program does not look at [v]. *)
Definition Unmarshal_item (data : gostring) : json_error + CLICompatCacheItem :=
  match json.parse data with
  | None => inl SyntaxError
  | Some v =>
      let zero := {| Credentials := None |} in
      match
        match v with
        | json.VNull => inr (zero, None)
        | json.VObject ms => decode_item ms zero None
        | _ => inr (zero, Some UnmarshalTypeError)
        end
      with
      | inl e => inl e
      | inr (_, Some e) => inl e
      | inr (item, None) => inr item
      end
  end.

(** ** The world of the program

    The file system as [os] shows it, the clock, the home directory of the
    current user and the trace of what the program did. *)

(** A path is the list of its components; [filepath.Join] appends
    components and [filepath.Dir] drops the last one. *)
Abbreviation path := (list gostring).

Definition Dir (p : path) : path := removelast p.

Inductive Errno := ENOENT | EACCES | EISDIR | ENOTDIR.

(** A directory, or a regular file with its content; the booleans say
    whether the user may write in the directory, and read and write the
    file. *)
Inductive node :=
| Directory (writable : bool)
| File (readable writable : bool) (data : gostring).

(** The errors that the program makes or passes on. *)
Inductive error :=
| errCacheMissing                    (* cache file does not exist *)
| errReadCache (e : Errno)           (* failed to read cache file *)
| errDecodeCache (e : json_error)    (* failed to decode cache json *)
| errMkdir (e : Errno)               (* failed to make directories *)
| errWriteCache (e : Errno)          (* failed to write cache file *)
| errUpstream (msg : gostring).      (* the error of the provider *)

Module aws.

(** [aws.Credentials]. *)
Record Credentials := {
  AccessKeyID : gostring;
  SecretAccessKey : gostring;
  SessionToken : gostring;
  Source : gostring;
  CanExpire : bool;
  Expires : time.Time
}.

(** [Credentials.Expired]: expiring credentials are expired unless they
    expire after the current time. *)
Definition Expired (v : Credentials) (now : time.Time) : bool :=
  if CanExpire v then negb (time.After (Expires v) now) else false.

End aws.

Inductive Event :=
| EvStat (p : path)
| EvReadFile (p : path)
| EvMkdirAll (p : path)
| EvWriteFile (p : path) (data : gostring)
| EvRetrieve
| EvStdout (asVars : bool) (creds : aws.Credentials).

Record World := {
  fs : gmap path node;
  now : time.Time;
  home : option path;      (* user.Current: the home directory, or an error *)
  trace : list Event
}.

Definition log (e : Event) (w : World) : World :=
  {| fs := fs w; now := now w; home := home w; trace := trace w ++ [e] |}.

Definition set_fs (m : gmap path node) (w : World) : World :=
  {| fs := m; now := now w; home := home w; trace := trace w |}.

Definition set_now (t : time.Time) (w : World) : World :=
  {| fs := fs w; now := t; home := home w; trace := trace w |}.

(** What ends the process. *)
Inductive fatal :=
| FatalDuration        (* duration must be between 15 minutes and 12 hours *)
| FatalUser            (* user.Current failed *)
| FatalErr (e : error).

(** A computation returns, or ends the process through [log.Fatal], or
    panics. *)
Inductive Outcome (A : Type) :=
| Ret (a : A)
| Fatal (f : fatal)
| Panic.
Arguments Ret {A} a.
Arguments Fatal {A} f.
Arguments Panic {A}.

Definition M (A : Type) : Type := World -> Outcome A * World.

#[global] Instance M_ret : MRet M := fun A a w => (Ret a, w).

#[global] Instance M_bind : MBind M := fun A B k m w =>
  match m w with
  | (Ret a, w') => k a w'
  | (Fatal f, w') => (Fatal f, w')
  | (Panic, w') => (Panic, w')
  end.

Definition log_Fatal {A} (f : fatal) : M A := fun w => (Fatal f, w).
Definition panic {A} : M A := fun w => (Panic, w).
Definition emit (e : Event) : M unit := fun w => (Ret tt, log e w).

(** [time.Now]. *)
Definition Now : M time.Time := fun w => (Ret (now w), w).

(** *** [os] *)
Module os.

(** The error of a walk down to a path that has no node, whose
    components are [rp], last first: the walk stops at the nearest
    ancestor that is there, with [ENOTDIR] when that is a regular file
    and with [ENOENT] when it is a directory, in which the next component
    is missing. *)
Fixpoint lookup_errno (m : gmap path node) (rp : path) : Errno :=
  match rp with
  | [] => ENOENT
  | _ :: rp' =>
      match m !! rev rp' with
      | Some (File _ _ _) => ENOTDIR
      | Some (Directory _) => ENOENT
      | None => lookup_errno m rp'
      end
  end.

(** [os.Stat]: is there a node at [p]? *)
Definition Stat (p : path) : M (option Errno) := fun w =>
  (Ret (match fs w !! p with
        | Some _ => None
        | None => Some (lookup_errno (fs w) (rev p))
        end),
   log (EvStat p) w).

(** [os.ReadFile]. *)
Definition ReadFile (p : path) : M (gostring * option Errno) := fun w =>
  (Ret (match fs w !! p with
        | Some (File true _ data) => (data, None)
        | Some (File false _ _) => ([], Some EACCES)
        | Some (Directory _) => ([], Some EISDIR)
        | None => ([], Some (lookup_errno (fs w) (rev p)))
        end),
   log (EvReadFile p) w).

(** The file system after [os.WriteFile (p, data, 0600)], or its error.
    An existing file is truncated and keeps its mode; a new one is
    created in an existing directory.  Where the directory of [p] is
    missing, the error is the one of the walk down to it. *)
Definition write (m : gmap path node) (p : path) (data : gostring)
  : Errno + gmap path node :=
  match m !! p with
  | Some (Directory _) => inl EISDIR
  | Some (File r true _) => inr (<[p := File r true data]> m)
  | Some (File _ false _) => inl EACCES
  | None =>
      match m !! Dir p with
      | Some (Directory true) => inr (<[p := File true true data]> m)
      | Some (Directory false) => inl EACCES
      | Some (File _ _ _) => inl ENOTDIR
      | None => inl (lookup_errno m (rev (Dir p)))
      end
  end.

Definition WriteFile (p : path) (data : gostring) : M (option Errno) := fun w =>
  match write (fs w) p data with
  | inr m => (Ret None, set_fs m (log (EvWriteFile p data) w))
  | inl e => (Ret (Some e), log (EvWriteFile p data) w)
  end.

(** The file system after [os.MkdirAll] of the path whose components,
    last first, are [rp]: nothing to do for a directory, an error for a
    file, and otherwise the parents are made first. *)
Fixpoint mkdirAll (m : gmap path node) (rp : path) : Errno + gmap path node :=
  match m !! rev rp with
  | Some (Directory _) => inr m
  | Some (File _ _ _) => inl ENOTDIR
  | None =>
      match rp with
      | [] => inl ENOENT
      | _ :: rp' =>
          match mkdirAll m rp' with
          | inl e => inl e
          | inr m' =>
              match m' !! rev rp' with
              | Some (Directory true) => inr (<[rev rp := Directory true]> m')
              | Some (Directory false) => inl EACCES
              | _ => inl ENOTDIR
              end
          end
      end
  end.

Definition MkdirAll (p : path) : M (option Errno) := fun w =>
  match mkdirAll (fs w) (rev p) with
  | inr m => (Ret None, set_fs m (log (EvMkdirAll p) w))
  | inl e => (Ret (Some e), log (EvMkdirAll p) w)
  end.

End os.

(** ** [CLICache] (main.go, lines 60-176) *)

(** The upstream retrieval ([aws.CredentialsProvider.Retrieve]) is opaque:
    a provider is what it returns when the program calls it, credentials
    and possibly the message of an error.  The program calls it at most
    once; the call is recorded in the trace. *)
Definition Provider : Type := aws.Credentials * option gostring.

Definition Retrieve (p : Provider) : M (aws.Credentials * option error) := fun w =>
  (Ret (fst p, errUpstream <$> snd p), log EvRetrieve w).

Record CLICache := {
  provider : Provider;
  cacheKey : computableCacheKey;
  forceRefresh : bool;
  fullPath : path         (* empty until [path] has computed it *)
}.

(** [stscreds.AssumeRoleOptions], the fields that the program reads. *)
Record AssumeRoleOptions := {
  Duration : Z;                         (* nanoseconds *)
  ExternalID : option gostring;
  RoleARN : gostring;
  optSerialNumber : option gostring
}.

(** [int (d.Seconds ())]: the whole seconds of a duration.  (Go goes
    through a float64, which is exact on whole seconds for the durations
    that [main] lets through.) *)
Definition Seconds_int (d : Z) : Z := Z.quot d 1000000000.

(** [aws.ToString]. *)
Definition ToString (s : option gostring) : gostring := default [] s.

Definition NewCache (provider : Provider) (forceRefresh : bool)
  (opts : AssumeRoleOptions) : CLICache :=
  {| provider := provider;
     forceRefresh := forceRefresh;
     cacheKey :=
       {| DurationSeconds := Seconds_int (Duration opts);
          ExternalId := ToString (ExternalID opts);
          RoleArn := RoleARN opts;
          SerialNumber := ToString (optSerialNumber opts) |};
     fullPath := [] |}.

Definition pathExists (p : path) : M bool :=
  err ← os.Stat p;
  mret (bool_decide (err = None)).

(** [CLICache.path]: [<home>/.aws/cli/cache/<key>.json].  (The program
    keeps the path in [fullPath] once computed; the home directory does
    not change, so every call computes the same path.) *)
Definition cachePath (c : CLICache) : M path :=
  match fullPath c with
  | [] => fun w =>
      match home w with
      | None => (Fatal FatalUser, w)
      | Some h =>
          (Ret (h ++ [B ".aws"; B "cli"; B "cache"]
                  ++ [cacheKey_String (cacheKey c) ++ B ".json"]), w)
      end
  | _ :: _ => mret (fullPath c)
  end.

(** [CLICache.get]. *)
Definition get (c : CLICache) : M (aws.Credentials * option error) :=
  let creds :=
    {| aws.AccessKeyID := []; aws.SecretAccessKey := []; aws.SessionToken := [];
       aws.Source := []; aws.CanExpire := true; aws.Expires := zeroTime |} in
  p ← cachePath c;
  ok ← pathExists p;
  if negb ok then mret (creds, Some errCacheMissing) else
  p ← cachePath c;
  '(data, err) ← os.ReadFile p;
  match err with
  | Some e => mret (creds, Some (errReadCache e))
  | None =>
      match Unmarshal_item data with
      | inl e => mret (creds, Some (errDecodeCache e))
      | inr v =>
          match Credentials v with
          | None => panic          (* v.Credentials is nil *)
          | Some cc =>
              mret ({| aws.AccessKeyID := AccessKeyId cc;
                       aws.SecretAccessKey := SecretAccessKey cc;
                       aws.SessionToken := SessionToken cc;
                       aws.Source := [];
                       aws.CanExpire := true;
                       aws.Expires := Expiration cc |}, None)
          end
      end
  end.

(** The item that [save] builds from the credentials. *)
Definition cacheItem (creds : aws.Credentials) : CLICompatCacheItem :=
  {| Credentials :=
       Some {| AccessKeyId := aws.AccessKeyID creds;
               SecretAccessKey := aws.SecretAccessKey creds;
               SessionToken := aws.SessionToken creds;
               Expiration := aws.Expires creds |} |}.

(** [CLICache.save].  ([json.Marshal] cannot fail on this item, so the
    encoding error of the program is never made.) *)
Definition save (c : CLICache) (creds : aws.Credentials) : M (option error) :=
  p ← cachePath c;
  let dir := Dir p in
  ok ← pathExists dir;
  err ← (if ok : bool then os.MkdirAll dir else mret None);
  match err with
  | Some e => mret (Some (errMkdir e))
  | None =>
      let item := cacheItem creds in
      let data := Marshal_item item in
      p ← cachePath c;
      err ← os.WriteFile p data;
      match err with
      | Some e => mret (Some (errWriteCache e))
      | None => mret None
      end
  end.

(** The second half of [CLICache.Load]: the provider, then [save]. *)
Definition refresh (c : CLICache) : M (aws.Credentials * option error) :=
  '(creds, err) ← Retrieve (provider c);
  match err with
  | Some e => mret (creds, Some e)
  | None =>
      err ← save c creds;
      match err with
      | Some e => mret (creds, Some e)
      | None => mret (creds, None)
      end
  end.

(** [CLICache.Load]. *)
Definition Load (c : CLICache) : M (aws.Credentials * option error) :=
  if negb (forceRefresh c) then
    '(creds, err) ← get c;
    t ← Now;
    if bool_decide (err = None) && negb (aws.Expired creds t)
    then mret (creds, err)
    else refresh c
  else refresh c.

(** ** [main] (main.go, lines 316-383) *)

Record Flags := {
  profile : gostring;
  noCache : bool;
  mfaYK : bool;
  flagForceRefresh : bool;
  asVars : bool;
  duration : Z             (* a time.Duration: nanoseconds *)
}.

Definition Minute : Z := 60 * 1000000000.
Definition Hour : Z := 60 * Minute.

(** What [config.LoadDefaultConfig] gives: the credentials provider of
    the configuration and the assume-role options that the callback
    saved. *)
Record Config := { cfgCredentials : Provider; opts : AssumeRoleOptions }.

Definition duration_ok (d : Z) : bool := (Minute * 15 <=? d) && (d <=? Hour * 12).

Definition main (fl : Flags) (LoadDefaultConfig : error + Config) : M unit :=
  if negb (duration_ok (duration fl)) then log_Fatal FatalDuration else
  match LoadDefaultConfig with
  | inl e => log_Fatal (FatalErr e)
  | inr cfg =>
      let loader :=
        if noCache fl then Retrieve (cfgCredentials cfg)
        else Load (NewCache (cfgCredentials cfg) (flagForceRefresh fl) (opts cfg)) in
      '(creds, err) ← loader;
      match err with
      | Some e => log_Fatal (FatalErr e)
      | None => emit (EvStdout (asVars fl) creds)
      end
  end.


(** ** Notions that the statements use *)

(** The path that [cachePath] computes, when the home directory is known. *)
Definition pathOf (c : CLICache) (w : World) : option path :=
  match fullPath c with
  | [] =>
      match home w with
      | Some h =>
          Some (h ++ [B ".aws"; B "cli"; B "cache"]
                  ++ [cacheKey_String (cacheKey c) ++ B ".json"])
      | None => None
      end
  | _ :: _ => Some (fullPath c)
  end.

(** What [get] starts from, and what it makes of a cache entry. *)
Definition blank : aws.Credentials :=
  {| aws.AccessKeyID := []; aws.SecretAccessKey := []; aws.SessionToken := [];
     aws.Source := []; aws.CanExpire := true; aws.Expires := zeroTime |}.

Definition fromCache (cc : CachedCredentials) : aws.Credentials :=
  {| aws.AccessKeyID := AccessKeyId cc;
     aws.SecretAccessKey := SecretAccessKey cc;
     aws.SessionToken := SessionToken cc;
     aws.Source := [];
     aws.CanExpire := true;
     aws.Expires := Expiration cc |}.

(** The text that [save] writes. *)
Definition cacheData (creds : aws.Credentials) : gostring :=
  Marshal_item (cacheItem creds).

Definition is_directory (n : option node) : bool :=
  match n with
  | Some (Directory _) => true
  | _ => false
  end.

(** A file system is well formed when every node but the root lies in a
    directory. *)
Definition wf_fs (m : gmap path node) : bool :=
  forallb (fun '(q, _) => bool_decide (q = []) || is_directory (m !! Dir q))
    (map_to_list m).

(** The events of the file system. *)
Definition file_event (e : Event) : bool :=
  match e with
  | EvStat _ | EvReadFile _ | EvMkdirAll _ | EvWriteFile _ _ => true
  | EvRetrieve | EvStdout _ _ => false
  end.

(** Looking at the cache file [p]: a stat or a read of it. *)
Definition reads (p : path) (e : Event) : bool :=
  match e with
  | EvStat q | EvReadFile q => bool_decide (q = p)
  | _ => false
  end.

(** The errors of [save]. *)
Definition persistence_error (e : error) : bool :=
  match e with
  | errMkdir _ | errWriteCache _ => true
  | _ => false
  end.

(** The errors of [get]. *)
Definition cache_read_error (e : error) : bool :=
  match e with
  | errCacheMissing | errReadCache _ | errDecodeCache _ => true
  | _ => false
  end.

(** The four fields that the cache file keeps. *)
Definition same_credentials (a b : aws.Credentials) : Prop :=
  aws.AccessKeyID a = aws.AccessKeyID b
  /\ aws.SecretAccessKey a = aws.SecretAccessKey b
  /\ aws.SessionToken a = aws.SessionToken b
  /\ aws.Expires a = aws.Expires b.

(** The ways in which [Load] comes to call the provider, with the world
    in which it does. *)
Inductive reaches_upstream (c : CLICache) (w : World) : World -> Prop :=
| forced : forceRefresh c = true -> reaches_upstream c w w
| cache_miss creds e w1 :
    forceRefresh c = false ->
    get c w = (Ret (creds, Some e), w1) ->
    reaches_upstream c w w1
| cache_expired creds w1 :
    forceRefresh c = false ->
    get c w = (Ret (creds, None), w1) ->
    aws.Expired creds (now w1) = true ->
    reaches_upstream c w w1.

(** The cache file is absent, cannot be read, or does not hold JSON. *)
Inductive unusable (m : gmap path node) (p : path) : Prop :=
| absent : m !! p = None -> unusable m p
| unreadable_file wr data : m !! p = Some (File false wr data) -> unusable m p
| unreadable_directory wr : m !! p = Some (Directory wr) -> unusable m p
| malformed wr data :
    m !! p = Some (File true wr data) -> json.parse data = None -> unusable m p.

(** The write that ends [save], on its own: the outcome of [save] once
    the directory step is over. *)
Definition write_step (p : path) (creds : aws.Credentials) (w : World)
  : Outcome (option error) * World :=
  let data := Marshal_item (cacheItem creds) in
  match os.write (fs w) p data with
  | inr m => (Ret None, set_fs m (log (EvWriteFile p data) w))
  | inl e => (Ret (Some (errWriteCache e)), log (EvWriteFile p data) w)
  end.

(** May [save] write the cache file [p]?  Its directory must not be a
    file, and either the file is there and may be written, or it is not
    there and its directory is one in which the user may write. *)
Definition can_save (m : gmap path node) (p : path) : bool :=
  match m !! Dir p with
  | Some (File _ _ _) => false
  | _ =>
      match m !! p with
      | Some (File _ wr _) => wr
      | Some (Directory _) => false
      | None =>
          match m !! Dir p with
          | Some (Directory wr) => wr
          | _ => false
          end
      end
  end.

(** The mode that the cache file has after [save]: the one it had, or
    that of a new file. *)
Definition readable_after (n : option node) : bool :=
  match n with
  | Some (File rd _ _) => rd
  | _ => true
  end.

(** The steps of [save] on the cache file [p], by what there is at its
    directory: a stat, a [MkdirAll] when the directory is there (which
    fails on a regular file, and then nothing is written), and the write
    of [data]. *)
Definition save_steps (m : gmap path node) (p : path) (data : gostring) : list Event :=
  match m !! Dir p with
  | None => [EvStat (Dir p); EvWriteFile p data]
  | Some (Directory _) => [EvStat (Dir p); EvMkdirAll (Dir p); EvWriteFile p data]
  | Some (File _ _ _) => [EvStat (Dir p); EvMkdirAll (Dir p)]
  end.

(** ** Concrete worlds *)

Definition ex_home : path := [B "home"; B "user"].

Definition ex_key : computableCacheKey :=
  {| DurationSeconds := 3600; ExternalId := [];
     RoleArn := B "arn:aws:iam::123456789012:role/test"; SerialNumber := [] |}.

Definition ex_root : path := ex_home ++ [B ".aws"; B "cli"; B "cache"].

Definition ex_file : path := ex_root ++ [cacheKey_String ex_key ++ B ".json"].

(** 2024-06-19T04:16:18Z. *)
Definition ex_expiry : time.Time :=
  {| time.unix := 1718770578; time.nsec := 0; time.offset := 0 |}.

(** Ten minutes earlier. *)
Definition ex_now : time.Time :=
  {| time.unix := 1718769978; time.nsec := 250000000; time.offset := 0 |}.

Definition ex_creds : aws.Credentials :=
  {| aws.AccessKeyID := B "ASIAEXAMPLE"; aws.SecretAccessKey := B "secret/key+1";
     aws.SessionToken := B "token"; aws.Source := B "AssumeRoleProvider";
     aws.CanExpire := true; aws.Expires := ex_expiry |}.

Definition ex_fresh : aws.Credentials :=
  {| aws.AccessKeyID := B "ASIAFRESH"; aws.SecretAccessKey := B "fresh/secret";
     aws.SessionToken := B "fresh-token"; aws.Source := B "AssumeRoleProvider";
     aws.CanExpire := true;
     aws.Expires := {| time.unix := 1718773578; time.nsec := 0; time.offset := 0 |} |}.

(** The home directory alone, then with the cache root, then with cache
    files of several kinds. *)
Definition ex_fs_home : gmap path node :=
  list_to_map
    [([], Directory true); ([B "home"], Directory true); (ex_home, Directory true)].

Definition ex_fs_root : gmap path node :=
  <[ex_root := Directory true]>
    (<[ex_home ++ [B ".aws"; B "cli"] := Directory true]>
       (<[ex_home ++ [B ".aws"] := Directory true]> ex_fs_home)).

Definition ex_fs_cached : gmap path node :=
  <[ex_file := File true true (cacheData ex_creds)]> ex_fs_root.

Definition ex_fs_malformed : gmap path node :=
  <[ex_file := File true true (B "{Credentials: ")]> ex_fs_root.

(** The cache root is a directory in which the user may not write. *)
Definition ex_fs_readonly : gmap path node :=
  <[ex_root := Directory false]> ex_fs_root.

(** A regular file stands where the cache root should be. *)
Definition ex_fs_root_file : gmap path node :=
  <[ex_root := File true true (B "not a directory")]> ex_fs_root.

(** A regular file stands at [.aws/cli], above the cache root, which is
    not there. *)
Definition ex_fs_cli_file : gmap path node :=
  <[ex_home ++ [B ".aws"; B "cli"] := File true true []]>
    (<[ex_home ++ [B ".aws"] := Directory true]> ex_fs_home).

Definition ex_world (m : gmap path node) (t : time.Time) : World :=
  {| fs := m; now := t; home := Some ex_home; trace := [] |}.

Definition ex_cache (force : bool) : CLICache :=
  {| provider := (ex_fresh, None); cacheKey := ex_key; forceRefresh := force;
     fullPath := [] |}.

Definition ex_flags (nocache force : bool) (d : Z) : Flags :=
  {| profile := B "cp-role"; noCache := nocache; mfaYK := false;
     flagForceRefresh := force; asVars := false; duration := d |}.

Definition ex_config : Config :=
  {| cfgCredentials := (ex_fresh, None);
     opts := {| Duration := Hour; ExternalID := None;
                RoleARN := B "arn:aws:iam::123456789012:role/test";
                optSerialNumber := None |} |}.

(** ** Exhaustive checks over a range of integers *)

(** [f] holds of [lo], [lo + 1], ..., [fuel] values in all. *)
Fixpoint all_from (fuel : nat) (lo : Z) (f : Z -> bool) : bool :=
  match fuel with
  | O => true
  | S fuel' => f lo && all_from fuel' (lo + 1) f
  end.

(** The year of the wall clock of a time. *)
Definition Year (t : time.Time) : Z :=
  fst (fst (time.civil_from_days ((time.unix t + time.offset t) / 86400))).

(** What is checked of every day of a leap year and of a common year: its
    month and day are a date of that year, and they give the day of the
    year back. *)
Definition monthDay_check (year yday : Z) : bool :=
  let '(m, d) := time.monthDay year yday in
  (1 <=? m) && (m <=? 12) && (1 <=? d) && (d <=? time.daysIn m year)
  && (d <=? 31)
  && (time.daysBefore (m - 1) + (if time.isLeap year && (3 <=? m) then 1 else 0)
      + (d - 1) =? yday).

(** The text of a date and a time of day in the layout of the cache file:
    [YYYY-MM-DDTHH:MM:SS+00:00]. *)
Definition two (x : Z) : gostring := [time.digit (x / 10); time.digit (x mod 10)].

Definition four (x : Z) : gostring :=
  [time.digit (x / 1000); time.digit (x / 100 mod 10);
   time.digit (x / 10 mod 10); time.digit (x mod 10)].

Definition stamp (y m d hh mm ss : Z) : gostring :=
  four y ++ B "-" ++ two m ++ B "-" ++ two d ++ B "T"
  ++ two hh ++ B ":" ++ two mm ++ B ":" ++ two ss ++ B "+00:00".

(** The bytes that [appendString] copies as they are. *)
Definition plain (b : byte) : bool := (byteZ b <? 0x80) && json.htmlSafeSet b.

(** What is checked of the numbers printed on two and on four digits. *)
Definition pad2_check (x : Z) : bool := bool_decide (time.appendInt x 2 = two x).

Definition pad4_check (x : Z) : bool := bool_decide (time.appendInt x 4 = four x).

(** What is checked of a decimal digit. *)
Definition digit_check (a : Z) : bool :=
  plain (time.digit a) && negb (bool_decide (time.digit a = dquote)).

(** 10000-01-01T00:00:00Z. *)
Definition ex_year_10000 : time.Time :=
  {| time.unix := 253402300800; time.nsec := 0; time.offset := 0 |}.

(** The instant of [ex_expiry] in a location two hours east of UTC. *)
Definition ex_expiry_plus2 : time.Time :=
  {| time.unix := 1718770578; time.nsec := 0; time.offset := 7200 |}.

(** A well-formed sequence at the head of [s]: its bytes are those that
    [EncodeRune] writes for its rune, they alone decide what [DecodeRune]
    returns, and from the second byte of a longer sequence on they are
    all above the ASCII range. *)
Definition wellformed_at (s : gostring) (c : Z) (size : nat) : Prop :=
  (1 <= size <= 4)%nat /\ (size <= length s)%nat
  /\ utf8.EncodeRune c = firstn size s
  /\ (forall rest, utf8.DecodeRune (firstn size s ++ rest) = (c, size))
  /\ Forall (fun b => 0x80 <= byteZ b) (if (size =? 1)%nat then [] else firstn size s).

(** What [appendString] writes for an ASCII byte. *)
Definition token (b : byte) : gostring :=
  if json.htmlSafeSet b then [b] else json.escape b.


(** *** The two replacements of [computableCacheKey.String]

    [strings.Replace] for an [old] of two bytes, by recursion on the
    text. *)
Fixpoint replace2 (a b : byte) (new s : gostring) : gostring :=
  match s with
  | [] => []
  | c :: t =>
      if decide (a = c) then
        match t with
        | d :: t' =>
            if decide (b = d) then new ++ replace2 a b new t'
            else c :: replace2 a b new t
        | [] => [c]
        end
      else c :: replace2 a b new t
  end.

(** The first and the second replacement. *)
Definition colons : gostring -> gostring := replace2 dquote x3a (dquote :: B ": ").

Definition commas : gostring -> gostring := replace2 x2c dquote (B ", " ++ [dquote]).

(** A byte that is neither a quote nor a comma. *)
Definition inert (b : byte) : Prop := b <> dquote /\ b <> x2c.

(** A field value that the replacements cannot touch: plain ASCII text
    (so no quote inside) that does not start with a colon and does not end
    with a comma. *)
Definition tame (s : gostring) : Prop :=
  Forall (fun b => plain b = true) s /\ head s <> Some x3a /\ last s <> Some x2c.

#[global] Instance tame_dec s : Decision (tame s).
Proof. unfold tame. apply _. Defined.

(** The text of a member value: a number, or the literal of a tame
    string. *)
Inductive okvalue : gostring -> Prop :=
  | ok_number v : Forall inert v -> okvalue v
  | ok_string s : tame s -> okvalue (dquote :: s ++ [dquote]).

Definition okname (n : String.string) : Prop :=
  Forall inert (B n) /\ head (B n) <> Some x3a.

Definition okfield (f : String.string * gostring) : Prop :=
  okname f.1 /\ okvalue f.2.

(** The fields that [json.Marshal] writes for a key, name and value
    text. *)
Definition fields (v : computableCacheKey) : list (String.string * gostring) :=
  (if DurationSeconds v =? 0 then []
   else [("DurationSeconds"%string, FormatInt (DurationSeconds v))])
  ++ (match ExternalId v with
      | [] => []
      | s => [("ExternalId"%string, json.appendString s)]
      end)
  ++ (match RoleArn v with
      | [] => []
      | s => [("RoleArn"%string, json.appendString s)]
      end)
  ++ (match SerialNumber v with
      | [] => []
      | s => [("SerialNumber"%string, json.appendString s)]
      end).

Definition code_member (f : String.string * gostring) : gostring := json.member f.1 f.2.

Definition text_member (f : String.string * gostring) : gostring := spec_member f.1 f.2.

Definition member_tail (f : String.string * gostring) : gostring :=
  B f.1 ++ dquote :: B ": " ++ f.2.

(** What [json.join] appends after its first element. *)
Definition flat (sep : gostring) (l : list gostring) : gostring :=
  concat (map (app sep) l).

(** A regular file that the user may read. *)
Definition readable (n : option node) : bool :=
  match n with
  | Some (File true _ _) => true
  | _ => false
  end.

(** Was the provider called? *)
Definition retrieved (w : World) : bool :=
  existsb (fun e => match e with EvRetrieve => true | _ => false end) (trace w).

(** Credentials that expire half a second after [ex_expiry], and the
    current time at the full second before it. *)
Definition ex_creds_half : aws.Credentials :=
  {| aws.AccessKeyID := B "ASIAEXAMPLE"; aws.SecretAccessKey := B "secret/key+1";
     aws.SessionToken := B "token"; aws.Source := B "AssumeRoleProvider";
     aws.CanExpire := true;
     aws.Expires :=
       {| time.unix := 1718770578; time.nsec := 500000000; time.offset := 0 |} |}.

(** Credentials whose session token is not UTF-8. *)
Definition ex_creds_binary : aws.Credentials :=
  {| aws.AccessKeyID := B "ASIAEXAMPLE"; aws.SecretAccessKey := B "secret/key+1";
     aws.SessionToken := [x74; xff]; aws.Source := B "AssumeRoleProvider";
     aws.CanExpire := true; aws.Expires := ex_expiry |}.

(** A key whose external id ends with a comma. *)
Definition ex_key_comma : computableCacheKey :=
  {| DurationSeconds := 3600; ExternalId := B "a,";
     RoleArn := B "arn:aws:iam::123456789012:role/test"; SerialNumber := [] |}.

(** A key whose external id starts with a colon. *)
Definition ex_key_colon : computableCacheKey :=
  {| DurationSeconds := 0; ExternalId := B ":a";
     RoleArn := B "arn:aws:iam::123456789012:role/test"; SerialNumber := [] |}.
(** * More of [main.go]: notions and examples

    What the statements of the second part use: the events of a lookup
    and of a [save], what is read back from the cache file, the shell
    variables, and the shape of the text that is hashed for the cache
    key. *)

From Stdlib Require DecimalPos DecimalZ.

(** ** Events *)

(** Looking at the file system: a stat or a read. *)
Definition lookup_event (e : Event) : bool :=
  match e with
  | EvStat _ | EvReadFile _ => true
  | _ => false
  end.

(** Writing to the standard output. *)
Definition is_stdout (e : Event) : bool :=
  match e with
  | EvStdout _ _ => true
  | _ => false
  end.

(** A cache file that is JSON but names no credentials. *)
Definition ex_fs_empty_object : gmap path node :=
  <[ex_file := File true true (B "{}")]> ex_fs_root.

(** The steps of [save] for the cache file [p] and the text [data]. *)
Definition save_event (p : path) (data : gostring) (e : Event) : bool :=
  match e with
  | EvStat q | EvMkdirAll q => bool_decide (q = Dir p)
  | EvWriteFile q d => bool_decide (q = p) && bool_decide (d = data)
  | _ => false
  end.

(** ** [save] and [get] on the cache file *)

(** The entry that [Unmarshal] reads from what [save] wrote. *)
Definition readBack (creds : aws.Credentials) : CachedCredentials :=
  {| AccessKeyId := aws.AccessKeyID creds;
     SecretAccessKey := aws.SecretAccessKey creds;
     SessionToken := aws.SessionToken creds;
     Expiration :=
       {| time.unix := time.unix (aws.Expires creds) + time.offset (aws.Expires creds);
          time.nsec := 0; time.offset := 0 |} |}.

(** Strings of well-formed UTF-8 and an expiration whose wall clock shows
    a year of four digits. *)
Definition storable (creds : aws.Credentials) : Prop :=
  utf8.Valid (aws.AccessKeyID creds) = true
  /\ utf8.Valid (aws.SecretAccessKey creds) = true
  /\ utf8.Valid (aws.SessionToken creds) = true
  /\ 0 <= Year (aws.Expires creds) < 10000.

(** ** More worlds *)

(** Credentials that expired an hour ago by the clock, cached with an
    expiration in a zone two hours east of UTC. *)
Definition ex_creds_plus2 : aws.Credentials :=
  {| aws.AccessKeyID := B "ASIAEXAMPLE"; aws.SecretAccessKey := B "secret/key+1";
     aws.SessionToken := B "token"; aws.Source := B "AssumeRoleProvider";
     aws.CanExpire := true; aws.Expires := ex_expiry_plus2 |}.

(** An hour after [ex_expiry]. *)
Definition ex_hour_late : time.Time :=
  {| time.unix := 1718770578 + 3600; time.nsec := 0; time.offset := 0 |}.

(** A cache file with these credentials. *)
Definition ex_fs_plus2 : gmap path node :=
  <[ex_file := File true true (cacheData ex_creds_plus2)]> ex_fs_root.

(** ** The credentials as shell variables (main.go, lines 284-308) *)

Record shellCredentials := {
  AWS_ACCESS_KEY_ID : gostring;
  AWS_SECRET_ACCESS_KEY : gostring;
  AWS_SESSION_TOKEN : gostring
}.

(** [NewShellCredentials]. *)
Definition NewShellCredentials (creds : aws.Credentials) : shellCredentials :=
  {| AWS_ACCESS_KEY_ID := aws.AccessKeyID creds;
     AWS_SECRET_ACCESS_KEY := aws.SecretAccessKey creds;
     AWS_SESSION_TOKEN := aws.SessionToken creds |}.

(** What reflection shows of the struct: its fields in the order of the
    declaration, each with its name and its value. *)
Definition shellCredentials_fields (s : shellCredentials)
  : list (String.string * gostring) :=
  [("AWS_ACCESS_KEY_ID"%string, AWS_ACCESS_KEY_ID s);
   ("AWS_SECRET_ACCESS_KEY"%string, AWS_SECRET_ACCESS_KEY s);
   ("AWS_SESSION_TOKEN"%string, AWS_SESSION_TOKEN s)].

(** [strings.ToUpper] on ASCII text. *)
Definition ToUpper (s : gostring) : gostring := map json.upper_byte s.

(** [strings.Join]. *)
Fixpoint Join (elems : list gostring) (sep : gostring) : gostring :=
  match elems with
  | [] => []
  | [x] => x
  | x :: l => x ++ sep ++ Join l sep
  end.

(** [fmt.Sprintf ("export %s=%v", name, f)] for a field [f] that holds a
    string: the string is printed as it is. *)
Definition export_line (name value : gostring) : gostring :=
  B "export " ++ name ++ B "=" ++ value.

(** [shellCredentials.String]. *)
Definition shellCredentials_String (s : shellCredentials) : gostring :=
  let lines :=
    map (fun f => export_line (ToUpper (B (fst f))) (snd f)) (shellCredentials_fields s) in
  Join lines [x0a].

(** The variables of [ex_creds]. *)
Definition ex_shell : shellCredentials := NewShellCredentials ex_creds.

(** ** The text that is hashed for the cache key *)

(** The key [v] with another external id. *)
Definition with_ExternalId (v : computableCacheKey) (e : gostring) : computableCacheKey :=
  {| DurationSeconds := DurationSeconds v; ExternalId := e;
     RoleArn := RoleArn v; SerialNumber := SerialNumber v |}.

(** What [json.join] writes before an element that is not the first. *)
Definition before (sep : gostring) (l : list gostring) : gostring :=
  concat (map (fun x => x ++ sep) l).

(** A byte of a printed integer: a digit or the minus sign. *)
Definition numeral (b : byte) : bool :=
  bool_decide (b = x2d) || ((0x30 <=? byteZ b) && (byteZ b <=? 0x39)).

(** The value of the member [name] in a list of fields. *)
Fixpoint field_value (name : String.string) (l : list (String.string * gostring))
  : option gostring :=
  match l with
  | [] => None
  | (n, v) :: l' => if String.eqb n name then Some v else field_value name l'
  end.

(** What follows the first member of an object: the other members, each
    after a comma and a space, and the closing brace. *)
Definition after_first (l : list (String.string * gostring)) : gostring :=
  flat (B ", ") (map text_member l) ++ B "}".

(** The text of a field list whose values are numbers and literals of
    strings without quotes. *)
Inductive shaped : gostring -> Prop :=
  | shaped_number v : v <> [] -> Forall (fun b => numeral b = true) v -> shaped v
  | shaped_string s : Forall (fun c => c <> dquote) s -> shaped (dquote :: s ++ [dquote]).

(** A field whose name has no quote and whose value has this shape. *)
Definition shaped_field (f : String.string * gostring) : Prop :=
  Forall (fun c => c <> dquote) (B f.1) /\ shaped f.2.

(** ** Ill-formed UTF-8 *)

(** The text with every byte that is not part of a well-formed UTF-8
    sequence replaced by U+FFFD. *)
Fixpoint scrub_loop (fuel : nat) (s : gostring) : gostring :=
  match fuel, s with
  | S fuel', _ :: s' =>
      let '(c, size) := utf8.DecodeRune s in
      if (c =? utf8.RuneError) && (size =? 1)%nat then
        utf8.EncodeRune utf8.RuneError ++ scrub_loop fuel' s'
      else firstn size s ++ scrub_loop fuel' (skipn size s)
  | _, _ => []
  end.

Definition scrub (s : gostring) : gostring := scrub_loop (length s) s.

(** The entry that [Unmarshal] reads from what [save] wrote, whatever the
    strings hold. *)
Definition readBack_scrubbed (creds : aws.Credentials) : CachedCredentials :=
  {| AccessKeyId := scrub (aws.AccessKeyID creds);
     SecretAccessKey := scrub (aws.SecretAccessKey creds);
     SessionToken := scrub (aws.SessionToken creds);
     Expiration :=
       {| time.unix := time.unix (aws.Expires creds) + time.offset (aws.Expires creds);
          time.nsec := 0; time.offset := 0 |} |}.

(** ** Credentials that do not expire *)

(** Static credentials: they cannot expire and carry the zero time. *)
Definition ex_static : aws.Credentials :=
  {| aws.AccessKeyID := B "AKIAEXAMPLE"; aws.SecretAccessKey := B "secret/key+1";
     aws.SessionToken := []; aws.Source := B "SharedConfigCredentials";
     aws.CanExpire := false; aws.Expires := zeroTime |}.

(** A cache file with them. *)
Definition ex_fs_static : gmap path node :=
  <[ex_file := File true true (cacheData ex_static)]> ex_fs_root.

(** * Properties *)

(** ** Known answers for the SHA-1 model *)

Example sha1_empty :
  EncodeToString (SHA1.Sum []) = B "da39a3ee5e6b4b0d3255bfef95601890afd80709".
Proof. vm_compute. reflexivity. Qed.

Example sha1_abc :
  EncodeToString (SHA1.Sum (B "abc")) = B "a9993e364706816aba3e25717850c26c9cd0d89d".
Proof. vm_compute. reflexivity. Qed.

Example sha1_two_blocks :
  EncodeToString
    (SHA1.Sum (B "abcdbcdecdefdefgefghfghighijhijkijkljklmklmnlmnomnopnopq"))
  = B "84983e441c3bd26ebaae4aa1f95129e5e54670f1".
Proof. vm_compute. reflexivity. Qed.

(** ** Known answers for the calendar and the layout *)

Example Format_epoch :
  time.Format {| time.unix := 0; time.nsec := 0; time.offset := 0 |}
  = B "1970-01-01T00:00:00+00:00".
Proof. vm_compute. reflexivity. Qed.

Example Format_zero_time : time.Format zeroTime = B "0001-01-01T00:00:00+00:00".
Proof. vm_compute. reflexivity. Qed.

Example Format_leap_day :
  time.Format {| time.unix := 1709251199; time.nsec := 7; time.offset := 0 |}
  = B "2024-02-29T23:59:59+00:00".
Proof. vm_compute. reflexivity. Qed.

Example Format_before_epoch :
  time.Format {| time.unix := -1; time.nsec := 0; time.offset := 0 |}
  = B "1969-12-31T23:59:59+00:00".
Proof. vm_compute. reflexivity. Qed.

Example Format_last_four_digit_second :
  time.Format {| time.unix := 253402300799; time.nsec := 0; time.offset := 0 |}
  = B "9999-12-31T23:59:59+00:00".
Proof. vm_compute. reflexivity. Qed.

Example Parse_expiry :
  time.Parse (B "2024-06-19T04:16:18+00:00") = Some ex_expiry.
Proof. vm_compute. reflexivity. Qed.

Example Parse_fraction :
  time.Parse (B "2024-06-19T04:16:18.25+00:00")
  = Some {| time.unix := 1718770578; time.nsec := 250000000; time.offset := 0 |}.
Proof. vm_compute. reflexivity. Qed.

Example Parse_day_out_of_range : time.Parse (B "2023-02-29T04:16:18+00:00") = None.
Proof. vm_compute. reflexivity. Qed.

Example Parse_Z_suffix : time.Parse (B "2024-06-19T04:16:18Z") = None.
Proof. vm_compute. reflexivity. Qed.

(** ** Paths *)

Lemma Dir_app_last (p : path) (x : gostring) : Dir (p ++ [x]) = p.
Proof. unfold Dir. apply removelast_last. Qed.

Lemma Dir_length (p : path) : length (Dir p) = pred (length p).
Proof.
  unfold Dir. induction p as [|a [|b p] IH]; simpl in *; auto.
Qed.

Lemma Dir_neq (p : path) : p <> [] -> Dir p <> p.
Proof.
  intros Hp E. apply (f_equal (@length _)) in E. rewrite Dir_length in E.
  destruct p; [congruence | simpl in E; lia].
Qed.

Lemma pathOf_nonempty c w p : pathOf c w = Some p -> p <> [].
Proof.
  unfold pathOf. destruct (fullPath c) eqn:E.
  - destruct (home w); [|discriminate]. intros [= <-].
    intros H. apply app_eq_nil in H as [_ H]. discriminate.
  - intros [= <-]. discriminate.
Qed.

Lemma cachePath_pathOf c w :
  cachePath c w =
  match pathOf c w with
  | Some p => (Ret p, w)
  | None => (Fatal FatalUser, w)
  end.
Proof.
  unfold cachePath, pathOf. destruct (fullPath c); [|reflexivity].
  destruct (home w); reflexivity.
Qed.

Lemma pathOf_log c e w : pathOf c (log e w) = pathOf c w.
Proof. reflexivity. Qed.

Lemma pathOf_set_fs c m w : pathOf c (set_fs m w) = pathOf c w.
Proof. reflexivity. Qed.

Lemma pathOf_set_now c t w : pathOf c (set_now t w) = pathOf c w.
Proof. reflexivity. Qed.

(** ** [os] *)

(** [MkdirAll] of a path that exists changes nothing: it succeeds on a
    directory and fails on a file. *)
Lemma mkdirAll_exists_rev m rp n :
  m !! rev rp = Some n ->
  os.mkdirAll m rp =
  match n with
  | Directory _ => inr m
  | File _ _ _ => inl ENOTDIR
  end.
Proof.
  intros H. destruct rp; cbn [os.mkdirAll]; rewrite H; destruct n; reflexivity.
Qed.

Lemma mkdirAll_exists m p n :
  m !! p = Some n ->
  os.mkdirAll m (rev p) =
  match n with
  | Directory _ => inr m
  | File _ _ _ => inl ENOTDIR
  end.
Proof.
  intros H. apply mkdirAll_exists_rev. rewrite rev_involutive. exact H.
Qed.

Arguments pathOf : simpl never.

(** ** [save], step by step *)

Lemma save_eq c creds w p :
  pathOf c w = Some p ->
  save c creds w =
  match fs w !! Dir p with
  | None => write_step p creds (log (EvStat (Dir p)) w)
  | Some (Directory _) =>
      write_step p creds (log (EvMkdirAll (Dir p)) (log (EvStat (Dir p)) w))
  | Some (File _ _ _) =>
      (Ret (Some (errMkdir ENOTDIR)), log (EvMkdirAll (Dir p)) (log (EvStat (Dir p)) w))
  end.
Proof.
  intros Hp. unfold save, mbind, M_bind, pathExists, os.Stat, os.MkdirAll, write_step,
    os.WriteFile, mret, M_ret.
  rewrite cachePath_pathOf, Hp. simpl.
  destruct (fs w !! Dir p) as [n|] eqn:E; simpl.
  - rewrite (mkdirAll_exists _ _ _ E). destruct n; simpl.
    + rewrite cachePath_pathOf, pathOf_set_fs, !pathOf_log, Hp. simpl.
      destruct (os.write _ _ _); reflexivity.
    + reflexivity.
  - rewrite cachePath_pathOf, !pathOf_log, Hp. simpl.
    destruct (os.write _ _ _); reflexivity.
Qed.

Lemma wf_fs_parent m q n :
  wf_fs m = true -> m !! q = Some n -> q <> [] ->
  exists d, m !! Dir q = Some (Directory d).
Proof.
  unfold wf_fs. rewrite forallb_forall. intros H Hq Hne.
  specialize (H (q, n)). simpl in H.
  assert (Hin : In (q, n) (map_to_list m)).
  { apply list_elem_of_In. apply elem_of_map_to_list. exact Hq. }
  specialize (H Hin). apply orb_true_iff in H as [H|H].
  - apply bool_decide_eq_true in H. contradiction.
  - destruct (m !! Dir q) as [[d|]|]; try discriminate. eauto.
Qed.

(** What the final write does: it is recorded, and either the file at [p]
    holds the data or the file system is as before. *)
Lemma write_step_spec p creds w :
  exists r w',
    write_step p creds w = (Ret r, w')
    /\ trace w' = trace w ++ [EvWriteFile p (cacheData creds)]
    /\ now w' = now w /\ home w' = home w
    /\ ((r = None /\ exists rd, fs w' = <[p := File rd true (cacheData creds)]> (fs w))
        \/ (exists e, r = Some (errWriteCache e)
                      /\ os.write (fs w) p (cacheData creds) = inl e
                      /\ fs w' = fs w)).
Proof.
  unfold write_step, cacheData.
  destruct (os.write (fs w) p (Marshal_item (cacheItem creds))) as [e|m] eqn:E.
  - eexists _, _. split; [reflexivity|]. repeat split. right. eauto.
  - eexists _, _. split; [reflexivity|]. repeat split. left. split; [reflexivity|].
    unfold os.write in E. simpl.
    destruct (fs w !! p) as [[d|rd [|] data]|]; try discriminate.
    + injection E as <-. eauto.
    + destruct (fs w !! Dir p) as [[[|]|]|]; try discriminate.
      injection E as <-. eauto.
Qed.

(** [save] in one statement: it looks at the directory of the cache file,
    never at the file itself, and either leaves the data in the file or
    returns one of its errors and leaves the file system alone. *)
Lemma save_spec c creds w p :
  pathOf c w = Some p ->
  exists r w' evs,
    save c creds w = (Ret r, w')
    /\ trace w' = trace w ++ EvStat (Dir p) :: evs
    /\ Forall (fun e => reads p e = false) (EvStat (Dir p) :: evs)
    /\ now w' = now w /\ home w' = home w
    /\ ((r = None
         /\ In (EvWriteFile p (cacheData creds)) evs
         /\ exists rd, fs w' = <[p := File rd true (cacheData creds)]> (fs w))
        \/ (exists e, r = Some e /\ persistence_error e = true /\ fs w' = fs w)).
Proof.
  intros Hp. rewrite (save_eq _ _ _ _ Hp).
  assert (Hd : reads p (EvStat (Dir p)) = false).
  { simpl. apply bool_decide_eq_false. apply Dir_neq. eapply pathOf_nonempty; eauto. }
  destruct (fs w !! Dir p) as [[d|rd wr data]|] eqn:E.
  - destruct (write_step_spec p creds (log (EvMkdirAll (Dir p)) (log (EvStat (Dir p)) w)))
      as (r & w' & -> & Ht & Hn & Hh & Hr).
    exists r, w', [EvMkdirAll (Dir p); EvWriteFile p (cacheData creds)].
    split; [reflexivity|]. split; [rewrite Ht; simpl; rewrite <- !app_assoc; reflexivity|].
    split; [repeat constructor; exact Hd|]. split; [exact Hn|]. split; [exact Hh|].
    destruct Hr as [(-> & rd & Hf)|(e & -> & _ & Hf)].
    + left. split; [reflexivity|]. split; [simpl; auto|]. exists rd. exact Hf.
    + right. exists (errWriteCache e). auto.
  - eexists _, _, [EvMkdirAll (Dir p)]. split; [reflexivity|].
    split; [simpl; rewrite <- !app_assoc; reflexivity|].
    split; [repeat constructor; exact Hd|]. split; [reflexivity|]. split; [reflexivity|].
    right. exists (errMkdir ENOTDIR). auto.
  - destruct (write_step_spec p creds (log (EvStat (Dir p)) w))
      as (r & w' & -> & Ht & Hn & Hh & Hr).
    exists r, w', [EvWriteFile p (cacheData creds)].
    split; [reflexivity|]. split; [rewrite Ht; simpl; rewrite <- !app_assoc; reflexivity|].
    split; [repeat constructor; exact Hd|]. split; [exact Hn|]. split; [exact Hh|].
    destruct Hr as [(-> & rd & Hf)|(e & -> & _ & Hf)].
    + left. split; [reflexivity|]. split; [simpl; auto|]. exists rd. exact Hf.
    + right. exists (errWriteCache e). auto.
Qed.

(** ** [get], [refresh] and [Load], step by step *)

(** The errors of a walk that finds no node. *)
Lemma lookup_errno_cases m rp :
  os.lookup_errno m rp = ENOENT \/ os.lookup_errno m rp = ENOTDIR.
Proof.
  induction rp as [|x rp IH]; [now left|].
  cbn [os.lookup_errno]. destruct (m !! rev rp) as [[?|? ? ?]|]; auto.
Qed.

(** [ENOTDIR] tells that a regular file stands above the path. *)
Lemma lookup_errno_ENOTDIR m rp :
  os.lookup_errno m rp = ENOTDIR ->
  exists q rd wr data,
    m !! q = Some (File rd wr data) /\ (length q < length rp)%nat.
Proof.
  induction rp as [|x rp IH]; [discriminate|].
  cbn [os.lookup_errno]. destruct (m !! rev rp) as [[?|rd wr data]|] eqn:E.
  - discriminate.
  - intros _. exists (rev rp), rd, wr, data. split; [exact E|].
    rewrite length_rev. simpl. lia.
  - intros H. destruct (IH H) as (q & rd & wr & data & Hq & Hl).
    exists q, rd, wr, data. split; [exact Hq|simpl; lia].
Qed.

Lemma write_step_trace p creds w :
  trace (snd (write_step p creds w)) = trace w ++ [EvWriteFile p (cacheData creds)].
Proof.
  unfold write_step. fold (cacheData creds).
  destruct (os.write (fs w) p (cacheData creds)); reflexivity.
Qed.

Lemma write_ok m p data :
  can_save m p = true ->
  os.write m p data = inr (<[p := File (readable_after (m !! p)) true data]> m).
Proof.
  unfold can_save, os.write.
  destruct (m !! Dir p) as [[d|? ? ?]|]; [| discriminate |];
    destruct (m !! p) as [[?|rd [] ?]|]; try discriminate; try reflexivity.
  destruct d; [reflexivity|discriminate].
Qed.

Lemma write_fails m p data :
  can_save m p = false ->
  (exists n, m !! Dir p = Some n /\ is_directory (Some n) = false)
  \/ exists e, os.write m p data = inl e.
Proof.
  unfold can_save, os.write.
  destruct (m !! Dir p) as [[d|? ? ?]|].
  - destruct (m !! p) as [[?|rd [] ?]|]; try discriminate; intros H; right; eauto.
    destruct d; [discriminate|eauto].
  - intros _. left. eauto.
  - destruct (m !! p) as [[?|rd [] ?]|]; try discriminate; intros H; right; eauto.
Qed.

(** What [save] does to the file system, and when it succeeds. *)
Lemma save_result c creds w p :
  pathOf c w = Some p ->
  (fst (save c creds w) = Ret None <-> can_save (fs w) p = true)
  /\ fs (snd (save c creds w))
     = (if can_save (fs w) p
        then <[p := File (readable_after (fs w !! p)) true (cacheData creds)]> (fs w)
        else fs w)
  /\ forall q, q <> p -> fs (snd (save c creds w)) !! q = fs w !! q.
Proof.
  intros Hp. rewrite (save_eq c creds w p Hp).
  destruct (can_save (fs w) p) eqn:Hc.
  - pose proof (write_ok _ _ (cacheData creds) Hc) as Hwr.
    assert (Hstep : forall w1, fs w1 = fs w ->
               fst (write_step p creds w1) = Ret None
               /\ fs (snd (write_step p creds w1))
                  = <[p := File (readable_after (fs w !! p)) true (cacheData creds)]> (fs w)).
    { intros w1 H1. unfold write_step. fold (cacheData creds). rewrite H1, Hwr.
      split; reflexivity. }
    unfold can_save in Hc.
    destruct (fs w !! Dir p) as [[d|? ? ?]|]; [| discriminate |].
    + destruct (Hstep (log (EvMkdirAll (Dir p)) (log (EvStat (Dir p)) w)) eq_refl)
        as [H1 H2].
      rewrite H1, H2. split; [tauto|]. split; [reflexivity|].
      intros q Hq. now apply lookup_insert_ne.
    + destruct (Hstep (log (EvStat (Dir p)) w) eq_refl) as [H1 H2].
      rewrite H1, H2. split; [tauto|]. split; [reflexivity|].
      intros q Hq. now apply lookup_insert_ne.
  - assert (Hstep : forall w1, fs w1 = fs w ->
               (exists e, os.write (fs w) p (cacheData creds) = inl e) ->
               fst (write_step p creds w1) <> Ret None
               /\ fs (snd (write_step p creds w1)) = fs w).
    { intros w1 H1 [e He]. unfold write_step. fold (cacheData creds). rewrite H1, He.
      split; [discriminate|exact H1]. }
    destruct (write_fails _ _ (cacheData creds) Hc) as [(n & Hn & Hnd)|Hwr].
    + rewrite Hn. destruct n as [d|? ? ?]; [discriminate|]. cbn [fst snd fs log].
      split; [split; discriminate|]. split; reflexivity.
    + destruct (fs w !! Dir p) as [[d|? ? ?]|].
      * destruct (Hstep (log (EvMkdirAll (Dir p)) (log (EvStat (Dir p)) w)) eq_refl Hwr)
          as [H1 H2].
        rewrite H2. split; [split; [contradiction|discriminate]|]. split; reflexivity.
      * cbn [fst snd fs log]. split; [split; discriminate|]. split; reflexivity.
      * destruct (Hstep (log (EvStat (Dir p)) w) eq_refl Hwr) as [H1 H2].
        rewrite H2. split; [split; [contradiction|discriminate]|]. split; reflexivity.
Qed.

(** [save] in full: its steps, its result and the file system that it
    leaves. *)
Lemma save_full c creds w p :
  pathOf c w = Some p ->
  exists r w',
    save c creds w = (Ret r, w')
    /\ trace w' = trace w ++ save_steps (fs w) p (cacheData creds)
    /\ if can_save (fs w) p
       then r = None
            /\ fs w' = <[p := File (readable_after (fs w !! p)) true (cacheData creds)]>
                         (fs w)
       else (exists e, r = Some e /\ persistence_error e = true) /\ fs w' = fs w.
Proof.
  intros Hp.
  destruct (save_spec c creds w p Hp) as (r & w' & evs & E & _ & _ & _ & _ & Hr).
  destruct (save_result c creds w p Hp) as (Hiff & Hfs & _).
  exists r, w'. split; [exact E|]. split.
  - replace w' with (snd (save c creds w)) by now rewrite E.
    rewrite (save_eq c creds w p Hp). unfold save_steps.
    destruct (fs w !! Dir p) as [[d|rd wr data]|];
      rewrite ?write_step_trace; cbn [snd trace log]; now rewrite <- !app_assoc.
  - rewrite E in Hiff, Hfs. cbn [fst snd] in Hiff, Hfs.
    destruct (can_save (fs w) p).
    + split; [|exact Hfs]. destruct Hiff as [_ H]. specialize (H eq_refl). congruence.
    + split; [|exact Hfs].
      destruct Hr as [(-> & _)|(e & -> & He & _)].
      * destruct Hiff as [H _]. specialize (H eq_refl). discriminate.
      * now exists e.
Qed.

Lemma get_eq c w p :
  pathOf c w = Some p ->
  get c w =
  match fs w !! p with
  | None => (Ret (blank, Some errCacheMissing), log (EvStat p) w)
  | Some n =>
      let w2 := log (EvReadFile p) (log (EvStat p) w) in
      match n with
      | Directory _ => (Ret (blank, Some (errReadCache EISDIR)), w2)
      | File false _ _ => (Ret (blank, Some (errReadCache EACCES)), w2)
      | File true _ data =>
          match Unmarshal_item data with
          | inl e => (Ret (blank, Some (errDecodeCache e)), w2)
          | inr v =>
              match Credentials v with
              | None => (Panic, w2)
              | Some cc => (Ret (fromCache cc, None), w2)
              end
          end
      end
  end.
Proof.
  intros Hp. unfold get, mbind, M_bind, pathExists, os.Stat, os.ReadFile, mret, M_ret.
  rewrite cachePath_pathOf, Hp. simpl.
  destruct (fs w !! p) as [n|] eqn:E; simpl; [|reflexivity].
  rewrite cachePath_pathOf, pathOf_log, Hp. simpl. rewrite E.
  destruct n as [d|[|] wr data]; simpl; try reflexivity.
  destruct (Unmarshal_item data) as [e|v]; [reflexivity|].
  destruct (Credentials v); reflexivity.
Qed.

Lemma refresh_eq c w :
  refresh c w =
  match snd (provider c) with
  | Some msg => (Ret (fst (provider c), Some (errUpstream msg)), log EvRetrieve w)
  | None =>
      match save c (fst (provider c)) (log EvRetrieve w) with
      | (Ret r, w') => (Ret (fst (provider c), r), w')
      | (Fatal f, w') => (Fatal f, w')
      | (Panic, w') => (Panic, w')
      end
  end.
Proof.
  unfold refresh, mbind, M_bind, Retrieve, mret, M_ret. simpl.
  destruct (snd (provider c)); simpl; [reflexivity|].
  destruct (save c (fst (provider c)) (log EvRetrieve w)) as [[[e|]| |] w']; reflexivity.
Qed.

Lemma Load_forced c w : forceRefresh c = true -> Load c w = refresh c w.
Proof. unfold Load. intros ->. reflexivity. Qed.

Lemma Load_cached c w :
  forceRefresh c = false ->
  Load c w =
  match get c w with
  | (Ret (creds, err), w1) =>
      if bool_decide (err = None) && negb (aws.Expired creds (now w1))
      then (Ret (creds, err), w1)
      else refresh c w1
  | (Fatal f, w1) => (Fatal f, w1)
  | (Panic, w1) => (Panic, w1)
  end.
Proof.
  unfold Load. intros ->. simpl. unfold mbind, M_bind, Now, mret, M_ret.
  destruct (get c w) as [[[creds err]| |] w1]; try reflexivity.
  simpl. destruct (bool_decide (err = None) && negb (aws.Expired creds (now w1)));
    reflexivity.
Qed.

(** Whenever [Load] comes to the provider, it goes on as [refresh]. *)
Lemma Load_reaches_upstream c w w1 :
  reaches_upstream c w w1 -> Load c w = refresh c w1.
Proof.
  intros [Hf|creds e w1' Hf Hg|creds w1' Hf Hg Hx].
  - apply Load_forced, Hf.
  - rewrite (Load_cached _ _ Hf), Hg. reflexivity.
  - rewrite (Load_cached _ _ Hf), Hg, Hx. rewrite andb_false_r. reflexivity.
Qed.

(** The only way in which the cache ends the process is the failure of
    [user.Current]. *)
Lemma save_Fatal c creds w f w' : save c creds w = (Fatal f, w') -> f = FatalUser.
Proof.
  destruct (pathOf c w) as [p|] eqn:Hp.
  - destruct (save_spec c creds w p Hp) as (r & w2 & evs & -> & _). discriminate.
  - unfold save, mbind, M_bind. rewrite cachePath_pathOf, Hp. congruence.
Qed.

Lemma get_Fatal c w f w' : get c w = (Fatal f, w') -> f = FatalUser.
Proof.
  destruct (pathOf c w) as [p|] eqn:Hp.
  - rewrite (get_eq _ _ _ Hp).
    destruct (fs w !! p) as [[d|[|] wr data]|]; try discriminate.
    simpl. destruct (Unmarshal_item data) as [e|v]; [discriminate|].
    destruct (Credentials v); discriminate.
  - unfold get, mbind, M_bind. rewrite cachePath_pathOf, Hp. congruence.
Qed.

Lemma refresh_Fatal c w f w' : refresh c w = (Fatal f, w') -> f = FatalUser.
Proof.
  rewrite refresh_eq. destruct (snd (provider c)); [discriminate|].
  destruct (save c (fst (provider c)) (log EvRetrieve w)) as [[r|f'|] w2] eqn:E;
    try discriminate.
  intros [= <- <-]. eapply save_Fatal, E.
Qed.

Lemma Load_Fatal c w f w' : Load c w = (Fatal f, w') -> f = FatalUser.
Proof.
  destruct (forceRefresh c) eqn:Hf.
  - rewrite (Load_forced _ _ Hf). apply refresh_Fatal.
  - rewrite (Load_cached _ _ Hf).
    destruct (get c w) as [[[creds err]|f'|] w1] eqn:E; try discriminate.
    + destruct (_ && _); [discriminate|]. apply refresh_Fatal.
    + intros [= <- <-]. eapply get_Fatal, E.
Qed.

(** ** The claims about [save] and [Load] *)

(** C9.  [save] looks at the directory of the cache file, the cache root,
    and calls [MkdirAll] on it before the write exactly when it is there
    already; it never makes a directory; when the cache root is absent it
    is left absent, the write of the file is attempted all the same, and
    [save] fails with the error of that write, which is [ENOTDIR] when a
    regular file stands above the cache root and [ENOENT] otherwise. *)
Theorem save_never_makes_cache_root c creds w p r w' :
  pathOf c w = Some p ->
  wf_fs (fs w) = true ->
  save c creds w = (r, w') ->
  (forall n, fs w !! Dir p = Some n ->
     exists evs, trace w' = trace w ++ EvStat (Dir p) :: EvMkdirAll (Dir p) :: evs)
  /\ (forall q d, fs w' !! q = Some (Directory d) -> fs w !! q = Some (Directory d))
  /\ (fs w !! Dir p = None ->
        exists e,
          r = Ret (Some (errWriteCache e))
          /\ e = os.lookup_errno (fs w) (rev (Dir p))
          /\ (e = ENOENT \/ e = ENOTDIR)
          /\ fs w' = fs w
          /\ trace w' = trace w ++ [EvStat (Dir p); EvWriteFile p (cacheData creds)]).
Proof.
  intros Hp Hwf Hs. split; [|split].
  - intros n Hn. rewrite (save_eq _ _ _ _ Hp), Hn in Hs. destruct n as [d|rd wr data].
    + destruct (write_step_spec p creds (log (EvMkdirAll (Dir p)) (log (EvStat (Dir p)) w)))
        as (r1 & w1 & E & Ht & _).
      rewrite E in Hs. injection Hs as <- <-. eexists. rewrite Ht. simpl.
      rewrite <- !app_assoc. reflexivity.
    + injection Hs as <- <-. exists []. simpl. rewrite <- !app_assoc. reflexivity.
  - intros q d Hq.
    destruct (save_spec c creds w p Hp) as (r1 & w1 & evs & E & _ & _ & _ & _ & Hr).
    rewrite E in Hs. injection Hs as <- <-.
    destruct Hr as [(_ & _ & rd & Hf)|(e & _ & _ & Hf)]; rewrite Hf in Hq; [|exact Hq].
    destruct (decide (p = q)) as [->|Hne].
    + rewrite lookup_insert_eq in Hq. discriminate.
    + rewrite lookup_insert_ne in Hq by exact Hne. exact Hq.
  - intros Hn. rewrite (save_eq _ _ _ _ Hp), Hn in Hs.
    assert (Hfile : fs w !! p = None).
    { destruct (fs w !! p) as [n|] eqn:E; [|reflexivity].
      destruct (wf_fs_parent _ _ _ Hwf E (pathOf_nonempty _ _ _ Hp)) as [d Hd].
      congruence. }
    unfold write_step, os.write in Hs. cbn [fs log] in Hs. rewrite Hfile, Hn in Hs.
    injection Hs as <- <-.
    exists (os.lookup_errno (fs w) (rev (Dir p))).
    split; [reflexivity|]. split; [reflexivity|].
    split; [apply lookup_errno_cases|].
    split; [reflexivity|]. cbn [trace log]. now rewrite <- app_assoc.
Qed.

(** C4, as amended.  With [forceRefresh] set, [Load] calls the provider
    first, and looks at the cache file neither before nor after, whatever
    the file holds.  When the provider fails, nothing else happens.  When
    it succeeds, [save] runs before [Load] returns, with the steps of
    [save_steps]; where the cache file can be written ([can_save]) it is
    written with the new credentials and [Load] returns no error; where
    it cannot, the file system is left as it was and the error of [save]
    is returned. *)
Theorem Load_force_refresh c w p :
  forceRefresh c = true ->
  pathOf c w = Some p ->
  exists r w' evs,
    Load c w = (Ret (fst (provider c), r), w')
    /\ trace w' = trace w ++ EvRetrieve :: evs
    /\ Forall (fun e => reads p e = false) evs
    /\ match snd (provider c) with
       | Some msg => r = Some (errUpstream msg) /\ evs = [] /\ fs w' = fs w
       | None =>
           let data := cacheData (fst (provider c)) in
           evs = save_steps (fs w) p data
           /\ if can_save (fs w) p
              then r = None
                   /\ fs w' = <[p := File (readable_after (fs w !! p)) true data]> (fs w)
              else (exists e, r = Some e /\ persistence_error e = true)
                   /\ fs w' = fs w
       end.
Proof.
  intros Hf Hp. rewrite (Load_forced _ _ Hf), refresh_eq.
  destruct (snd (provider c)) as [msg|].
  - eexists _, _, []. split; [reflexivity|]. split; [reflexivity|]. auto.
  - assert (Hp' : pathOf c (log EvRetrieve w) = Some p) by now rewrite pathOf_log.
    destruct (save_full c (fst (provider c)) (log EvRetrieve w) p Hp')
      as (r & w' & -> & Ht & Hr).
    cbn [fs log] in Ht, Hr.
    exists r, w', (save_steps (fs w) p (cacheData (fst (provider c)))).
    split; [reflexivity|].
    split; [rewrite Ht; cbn [trace log]; now rewrite <- app_assoc|].
    split.
    + assert (Hne : Dir p <> p) by (apply Dir_neq; eapply pathOf_nonempty; exact Hp).
      assert (Hd : reads p (EvStat (Dir p)) = false)
        by (cbn [reads]; now apply bool_decide_eq_false_2).
      unfold save_steps.
      destruct (fs w !! Dir p) as [[d|rd wr data]|]; repeat constructor; exact Hd.
    + cbv zeta. split; [reflexivity|exact Hr].
Qed.

(** C7.  When [Load] comes to the provider, the provider succeeds and
    [save] then fails, [Load] returns the new credentials together with
    the error of [save], which is the error of making the directory or of
    writing the file. *)
Theorem Load_persistence_failure c w w1 creds e :
  reaches_upstream c w w1 ->
  provider c = (creds, None) ->
  fst (save c creds (log EvRetrieve w1)) = Ret (Some e) ->
  Load c w = (Ret (creds, Some e), snd (save c creds (log EvRetrieve w1)))
  /\ persistence_error e = true.
Proof.
  intros Hu Hprov Hs.
  destruct (save c creds (log EvRetrieve w1)) as [r w2] eqn:Hs'.
  simpl in Hs. subst r. rename Hs' into Hs.
  rewrite (Load_reaches_upstream _ _ _ Hu), refresh_eq, Hprov.
  simpl. rewrite Hs. split; [reflexivity|].
  destruct (pathOf c (log EvRetrieve w1)) as [p|] eqn:Hp.
  - destruct (save_spec c creds _ p Hp) as (r & w' & evs & E & _ & _ & _ & _ & Hr).
    rewrite E in Hs. injection Hs as -> ->.
    destruct Hr as [(? & _)|(e' & [= <-] & He & _)]; [discriminate|exact He].
  - unfold save, mbind, M_bind in Hs. rewrite cachePath_pathOf, Hp in Hs. discriminate.
Qed.

(** C3.  Without [forceRefresh], when the cache file is absent, cannot be
    read or does not hold JSON, [Load] calls the provider and returns its
    credentials; the error that comes with them is the provider's own or,
    when the provider succeeded, the one of [save] if it failed, and never
    the error of reading or decoding the cache. *)
Theorem Load_cache_unusable c w p :
  forceRefresh c = false ->
  pathOf c w = Some p ->
  unusable (fs w) p ->
  exists r w' evs,
    Load c w = (Ret (fst (provider c), r), w')
    /\ trace w' = trace w ++ evs
    /\ In EvRetrieve evs
    /\ match r with
       | Some e => cache_read_error e = false
       | None => True
       end
    /\ match snd (provider c) with
       | Some msg => r = Some (errUpstream msg)
       | None => r = None \/ exists e, r = Some e /\ persistence_error e = true
       end.
Proof.
  intros Hf Hp Hun.
  assert (Hg : exists e w1 evs1,
             get c w = (Ret (blank, Some e), w1)
             /\ trace w1 = trace w ++ evs1 /\ pathOf c w1 = Some p).
  { rewrite (get_eq _ _ _ Hp).
    destruct Hun as [H|wr data H|wr H|wr data H Hj]; rewrite H; simpl.
    - eexists _, _, [_]. split; [reflexivity|]. split; reflexivity || exact Hp.
    - eexists _, _, [_; _]. split; [reflexivity|].
      split; [simpl; rewrite <- app_assoc; reflexivity|exact Hp].
    - eexists _, _, [_; _]. split; [reflexivity|].
      split; [simpl; rewrite <- app_assoc; reflexivity|exact Hp].
    - unfold Unmarshal_item. rewrite Hj. eexists _, _, [_; _]. split; [reflexivity|].
      split; [simpl; rewrite <- app_assoc; reflexivity|exact Hp]. }
  destruct Hg as (e & w1 & evs1 & Hg & Ht1 & Hp1).
  rewrite (Load_cached _ _ Hf), Hg. simpl. rewrite refresh_eq.
  destruct (snd (provider c)) as [msg|].
  - eexists _, _, (evs1 ++ [EvRetrieve]). split; [reflexivity|].
    split; [simpl; rewrite Ht1, <- app_assoc; reflexivity|].
    split; [apply in_or_app; right; left; reflexivity|]. auto.
  - destruct (save_spec c (fst (provider c)) (log EvRetrieve w1) p Hp1)
      as (r & w' & evs & -> & Ht & _ & _ & _ & Hr).
    exists r, w', (evs1 ++ EvRetrieve :: EvStat (Dir p) :: evs).
    split; [reflexivity|].
    split; [rewrite Ht; simpl; rewrite Ht1, <- !app_assoc; reflexivity|].
    split; [apply in_or_app; right; left; reflexivity|].
    destruct Hr as [(-> & _)|(e' & -> & He & _)].
    + auto.
    + split; [destruct e'; simpl in *; congruence|]. right. eauto.
Qed.

(** C6.  A cache entry that expires at the very instant of the current
    time is expired for [Load]: after the file is read, the provider is
    called and its credentials are returned. *)
Theorem Load_expiry_boundary c w p wr data cc :
  forceRefresh c = false ->
  pathOf c w = Some p ->
  fs w !! p = Some (File true wr data) ->
  Unmarshal_item data = inr {| Credentials := Some cc |} ->
  time.unix (Expiration cc) = time.unix (now w) ->
  time.nsec (Expiration cc) = time.nsec (now w) ->
  aws.Expired (fromCache cc) (now w) = true
  /\ exists r w' evs,
      Load c w = (Ret (fst (provider c), r), w')
      /\ trace w' = trace w ++ EvStat p :: EvReadFile p :: EvRetrieve :: evs.
Proof.
  intros Hf Hp Hfile Hj Hu Hn.
  assert (Hx : aws.Expired (fromCache cc) (now w) = true).
  { unfold aws.Expired, time.After. simpl. rewrite Hu, Hn, !Z.ltb_irrefl.
    rewrite andb_false_r. reflexivity. }
  split; [exact Hx|].
  rewrite (Load_cached _ _ Hf), (get_eq _ _ _ Hp), Hfile. simpl. rewrite Hj. simpl.
  change (now (log (EvReadFile p) (log (EvStat p) w))) with (now w).
  rewrite Hx. simpl. rewrite refresh_eq.
  destruct (snd (provider c)) as [msg|].
  - eexists _, _, []. split; [reflexivity|]. simpl. rewrite <- !app_assoc. reflexivity.
  - destruct (save_spec c (fst (provider c))
                (log EvRetrieve (log (EvReadFile p) (log (EvStat p) w))) p Hp)
      as (r & w' & evs & -> & Ht & _).
    eexists _, _, _. split; [reflexivity|]. rewrite Ht. simpl.
    rewrite <- !app_assoc. reflexivity.
Qed.

(** ** The claims about [main] *)

(** C5.  With [-no-cache], whatever [-force-refresh] says, [main] touches
    no file: the file system is as before and the trace has no event of
    the file system; once the duration is accepted and the configuration
    loaded, the first thing that happens is the call of the provider. *)
Theorem main_no_cache fl cfg w :
  noCache fl = true ->
  exists out w' evs,
    main fl cfg w = (out, w')
    /\ fs w' = fs w
    /\ trace w' = trace w ++ evs
    /\ Forall (fun e => file_event e = false) evs
    /\ (duration_ok (duration fl) = true ->
        forall cf, cfg = inr cf -> exists evs', evs = EvRetrieve :: evs').
Proof.
  intros Hn. unfold main. rewrite Hn.
  destruct (duration_ok (duration fl)); simpl.
  - destruct cfg as [e|cf].
    + eexists _, _, []. split; [reflexivity|]. rewrite app_nil_r.
      repeat split; auto. intros _ cf [=].
    + unfold mbind, M_bind, Retrieve, emit, log_Fatal. simpl.
      destruct (snd (cfgCredentials cf)) as [msg|]; simpl.
      * eexists _, _, [EvRetrieve]. split; [reflexivity|].
        repeat split; auto. eauto.
      * eexists _, _, [EvRetrieve; EvStdout _ _]. split; [reflexivity|].
        split; [reflexivity|]. split; [simpl; rewrite <- app_assoc; reflexivity|].
        split; [repeat constructor|]. eauto.
  - eexists _, _, []. split; [reflexivity|]. rewrite app_nil_r.
    repeat split; auto. discriminate.
Qed.

Lemma duration_ok_iff d :
  duration_ok d = true <-> 15 * Minute <= d <= 12 * Hour.
Proof.
  unfold duration_ok, Hour, Minute. rewrite andb_true_iff, !Z.leb_le. lia.
Qed.

(** C10.  [main] ends with the error about the duration exactly when the
    duration lies outside the closed interval from 15 minutes to 12 hours,
    and then nothing has happened: no retrieval, no access to the cache.
    Exactly 15 minutes and exactly 12 hours are accepted. *)
Theorem main_duration_gate fl cfg w :
  (fst (main fl cfg w) = Fatal FatalDuration
   <-> ~ (15 * Minute <= duration fl <= 12 * Hour))
  /\ (~ (15 * Minute <= duration fl <= 12 * Hour) ->
      main fl cfg w = (Fatal FatalDuration, w))
  /\ (duration fl = 15 * Minute \/ duration fl = 12 * Hour ->
      duration_ok (duration fl) = true
      /\ fst (main fl cfg w) <> Fatal FatalDuration).
Proof.
  assert (Hout : ~ (15 * Minute <= duration fl <= 12 * Hour) ->
                 main fl cfg w = (Fatal FatalDuration, w)).
  { intros H. unfold main. rewrite <- duration_ok_iff in H.
    destruct (duration_ok (duration fl)); [contradiction H; reflexivity|reflexivity]. }
  assert (Hin : 15 * Minute <= duration fl <= 12 * Hour ->
                fst (main fl cfg w) <> Fatal FatalDuration).
  { intros H. apply duration_ok_iff in H. unfold main. rewrite H. simpl.
    destruct cfg as [e|cf]; [simpl; congruence|].
    destruct (noCache fl).
    - unfold mbind, M_bind, Retrieve, emit, log_Fatal. simpl.
      destruct (snd (cfgCredentials cf)); simpl; congruence.
    - unfold mbind, M_bind.
      destruct (Load _ w) as [[[creds [e|]]|f|] w1] eqn:E; simpl; try congruence.
      apply Load_Fatal in E. subst f. congruence. }
  split; [|split].
  - split.
    + intros H Hr. exact (Hin Hr H).
    + intros H. rewrite (Hout H). reflexivity.
  - exact Hout.
  - intros H.
    assert (Hr : 15 * Minute <= duration fl <= 12 * Hour)
      by (unfold Hour, Minute in *; lia).
    split; [apply duration_ok_iff, Hr|apply Hin, Hr].
Qed.

(** ** The claims at concrete worlds *)

Lemma ex_pathOf force m t : pathOf (ex_cache force) (ex_world m t) = Some ex_file.
Proof. vm_compute. reflexivity. Qed.

(** With the cache root missing, [save] stats the root, tries the write
    and fails; nothing is created. *)
Lemma save_never_makes_cache_root_witness :
  exists e,
    fst (save (ex_cache false) ex_creds (ex_world ex_fs_home ex_now))
    = Ret (Some (errWriteCache e))
    /\ e = os.lookup_errno ex_fs_home (rev (Dir ex_file))
    /\ (e = ENOENT \/ e = ENOTDIR)
    /\ fs (snd (save (ex_cache false) ex_creds (ex_world ex_fs_home ex_now))) = ex_fs_home
    /\ trace (snd (save (ex_cache false) ex_creds (ex_world ex_fs_home ex_now)))
       = [EvStat ex_root; EvWriteFile ex_file (cacheData ex_creds)].
Proof.
  refine (proj2 (proj2 (save_never_makes_cache_root (ex_cache false) ex_creds
            (ex_world ex_fs_home ex_now) ex_file _ _ _ _ _)) _).
  - apply ex_pathOf.
  - vm_compute. reflexivity.
  - apply surjective_pairing.
  - vm_compute. reflexivity.
Defined.

(** The error of the write, in two worlds without the cache root: above
    it there are directories only, and [save] fails with [ENOENT]; a
    regular file stands at [.aws/cli], and [save] fails with
    [ENOTDIR]. *)
Lemma save_without_cache_root_errno :
  wf_fs ex_fs_home = true
  /\ fst (save (ex_cache false) ex_creds (ex_world ex_fs_home ex_now))
     = Ret (Some (errWriteCache ENOENT))
  /\ wf_fs ex_fs_cli_file = true
  /\ ex_fs_cli_file !! ex_root = None
  /\ fst (save (ex_cache false) ex_creds (ex_world ex_fs_cli_file ex_now))
     = Ret (Some (errWriteCache ENOTDIR))
  /\ fs (snd (save (ex_cache false) ex_creds (ex_world ex_fs_cli_file ex_now)))
     !! ex_file = None.
Proof.
  repeat (split; [vm_compute; reflexivity|]). vm_compute. reflexivity.
Qed.

(** A forced refresh over a valid cache entry: the provider is called,
    the entry is not looked at, and the file, which can be written, is
    rewritten. *)
Lemma Load_force_refresh_witness :
  (exists r w' evs,
     Load (ex_cache true) (ex_world ex_fs_cached ex_now) = (Ret (ex_fresh, r), w')
     /\ trace w' = [] ++ EvRetrieve :: evs
     /\ Forall (fun e => reads ex_file e = false) evs
     /\ (evs = save_steps ex_fs_cached ex_file (cacheData ex_fresh)
         /\ if can_save ex_fs_cached ex_file
            then r = None
                 /\ fs w' = <[ex_file := File (readable_after (ex_fs_cached !! ex_file))
                                           true (cacheData ex_fresh)]> ex_fs_cached
            else (exists e, r = Some e /\ persistence_error e = true)
                 /\ fs w' = ex_fs_cached))
  /\ can_save ex_fs_cached ex_file = true.
Proof.
  split.
  - apply (Load_force_refresh (ex_cache true) (ex_world ex_fs_cached ex_now) ex_file).
    + reflexivity.
    + apply ex_pathOf.
  - vm_compute. reflexivity.
Defined.

(** C4, as stated, fails where a regular file stands in the place of the
    cache root: the provider succeeds, [MkdirAll] fails on the file, and
    [Load] returns without a write of the cache file, which is not
    there afterwards. *)
Lemma Load_force_refresh_no_write :
  forceRefresh (ex_cache true) = true
  /\ snd (provider (ex_cache true)) = None
  /\ fst (Load (ex_cache true) (ex_world ex_fs_root_file ex_now))
     = Ret (ex_fresh, Some (errMkdir ENOTDIR))
  /\ trace (snd (Load (ex_cache true) (ex_world ex_fs_root_file ex_now)))
     = [EvRetrieve; EvStat ex_root; EvMkdirAll ex_root]
  /\ fs (snd (Load (ex_cache true) (ex_world ex_fs_root_file ex_now))) !! ex_file = None.
Proof.
  repeat (split; [vm_compute; reflexivity|]). vm_compute. reflexivity.
Qed.

(** Nor is the file written where the cache root is missing: the write is
    attempted and fails. *)
Lemma Load_force_refresh_failed_write :
  fst (Load (ex_cache true) (ex_world ex_fs_home ex_now))
  = Ret (ex_fresh, Some (errWriteCache ENOENT))
  /\ trace (snd (Load (ex_cache true) (ex_world ex_fs_home ex_now)))
     = [EvRetrieve; EvStat ex_root; EvWriteFile ex_file (cacheData ex_fresh)]
  /\ fs (snd (Load (ex_cache true) (ex_world ex_fs_home ex_now))) !! ex_file = None.
Proof.
  repeat (split; [vm_compute; reflexivity|]). vm_compute. reflexivity.
Qed.

(** A forced refresh when the cache root is missing: the new credentials
    come back with the error of the write. *)
Lemma Load_persistence_failure_witness :
  Load (ex_cache true) (ex_world ex_fs_home ex_now)
  = (Ret (ex_fresh, Some (errWriteCache ENOENT)),
     snd (save (ex_cache true) ex_fresh (log EvRetrieve (ex_world ex_fs_home ex_now))))
  /\ persistence_error (errWriteCache ENOENT) = true.
Proof.
  apply (Load_persistence_failure (ex_cache true) (ex_world ex_fs_home ex_now)
           (ex_world ex_fs_home ex_now) ex_fresh).
  - apply forced. reflexivity.
  - reflexivity.
  - vm_compute. reflexivity.
Defined.

(** A cache file that is not JSON: the provider is called. *)
Lemma Load_cache_unusable_witness :
  exists r w' evs,
    Load (ex_cache false) (ex_world ex_fs_malformed ex_now) = (Ret (ex_fresh, r), w')
    /\ trace w' = evs
    /\ In EvRetrieve evs
    /\ match r with
       | Some e => cache_read_error e = false
       | None => True
       end
    /\ (r = None \/ exists e, r = Some e /\ persistence_error e = true).
Proof.
  apply (Load_cache_unusable (ex_cache false) (ex_world ex_fs_malformed ex_now) ex_file).
  - reflexivity.
  - apply ex_pathOf.
  - apply (malformed _ _ true (B "{Credentials: ")); vm_compute; reflexivity.
Defined.

(** A cache entry read at the very second at which it expires. *)
Lemma Load_expiry_boundary_witness :
  aws.Expired (fromCache (default zeroCachedCredentials (Credentials (cacheItem ex_creds))))
    ex_expiry = true
  /\ exists r w' evs,
      Load (ex_cache false) (ex_world ex_fs_cached ex_expiry) = (Ret (ex_fresh, r), w')
      /\ trace w' = EvStat ex_file :: EvReadFile ex_file :: EvRetrieve :: evs.
Proof.
  apply (Load_expiry_boundary (ex_cache false) (ex_world ex_fs_cached ex_expiry) ex_file
           true (cacheData ex_creds)
           (default zeroCachedCredentials (Credentials (cacheItem ex_creds)))).
  - reflexivity.
  - apply ex_pathOf.
  - vm_compute. reflexivity.
  - vm_compute. reflexivity.
  - reflexivity.
  - reflexivity.
Defined.

(** [-no-cache] together with [-force-refresh], over a valid cache entry. *)
Lemma main_no_cache_witness :
  exists out w' evs,
    main (ex_flags true true Hour) (inr ex_config) (ex_world ex_fs_cached ex_now)
    = (out, w')
    /\ fs w' = ex_fs_cached
    /\ trace w' = evs
    /\ Forall (fun e => file_event e = false) evs
    /\ (duration_ok Hour = true ->
        forall cf, @inr error Config ex_config = inr cf ->
                   exists evs', evs = EvRetrieve :: evs').
Proof.
  apply (main_no_cache (ex_flags true true Hour) (inr ex_config)
           (ex_world ex_fs_cached ex_now)).
  reflexivity.
Defined.

(** ** Exhaustive checks *)

Lemma all_from_spec fuel f : forall lo,
  all_from fuel lo f = true ->
  forall x, lo <= x < lo + Z.of_nat fuel -> f x = true.
Proof.
  induction fuel as [|fuel IH]; intros lo H x Hx.
  - simpl in Hx. lia.
  - simpl in H. apply andb_true_iff in H as [H0 H1].
    destruct (Z.eq_dec x lo) as [->|Hne]; [exact H0|].
    apply (IH (lo + 1) H1). lia.
Qed.

Lemma byteZ_zbyte z : 0 <= z < 256 -> byteZ (zbyte z) = z.
Proof.
  intros Hz. apply Z.eqb_eq.
  apply (all_from_spec 256 (fun z => byteZ (zbyte z) =? z) 0); [|lia].
  vm_compute. reflexivity.
Qed.

Lemma byteZ_range b : 0 <= byteZ b < 256.
Proof. destruct b; vm_compute; split; congruence. Qed.

Lemma byteZ_digit a : 0 <= a <= 9 -> byteZ (time.digit a) = 0x30 + a.
Proof. intros H. unfold time.digit. apply byteZ_zbyte. lia. Qed.

(** ** The calendar *)

(** Goals of linear arithmetic with divisions by constants. *)
Ltac divmod := Z.div_mod_to_equations; lia.

(** The cycles of [absDate]: the day of the year lies in the year, and
    [daysSinceEpoch] counts the days before that year. *)
Lemma absDate_spec a :
  0 <= snd (time.absDate a)
  /\ snd (time.absDate a) < (if time.isLeap (fst (time.absDate a)) then 366 else 365)
  /\ time.daysSinceEpoch (fst (time.absDate a)) + snd (time.absDate a) = a.
Proof.
  unfold time.absDate. cbv zeta. cbn [fst snd].
  rewrite !Z.shiftr_div_pow2 by lia. change (2 ^ 2) with 4.
  set (n1 := a / 146097). set (d1 := a - 146097 * n1).
  set (n2 := d1 / 36524). set (n2' := n2 - n2 / 4). set (d2 := d1 - 36524 * n2').
  set (n3 := d2 / 1461). set (d3 := d2 - 1461 * n3).
  set (n4 := d3 / 365). set (n4' := n4 - n4 / 4). set (d4 := d3 - 365 * n4').
  assert (H1 : 0 <= d1 < 146097) by (subst d1 n1; divmod).
  assert (H2 : 0 <= n2 <= 4) by (subst n2; divmod).
  assert (H2' : 0 <= n2' <= 3 /\ (n2 = 4 -> n2' = 3) /\ (n2 < 4 -> n2' = n2))
    by (subst n2'; divmod).
  assert (Hd2 : 0 <= d2 <= 36524 /\ (d2 = 36524 -> n2' = 3)) by (subst d2 n2; divmod).
  assert (H3 : 0 <= n3 <= 24) by (subst n3; divmod).
  assert (Hd3 : 0 <= d3 <= 1460 /\ (n3 = 24 -> d3 = 1460 -> n2' = 3))
    by (subst d3 n3; divmod).
  assert (H4 : 0 <= n4 <= 4) by (subst n4; divmod).
  assert (H4' : 0 <= n4' <= 3 /\ (n4 = 4 -> n4' = 3) /\ (n4 < 4 -> n4' = n4))
    by (subst n4'; divmod).
  assert (Hd4 : 0 <= d4 <= 365 /\ (d4 = 365 -> n4' = 3 /\ d3 = 1460))
    by (subst d4 n4; divmod).
  set (y := 400 * n1 + 100 * n2' + 4 * n3 + n4' + 1).
  split; [lia|]. split.
  - unfold time.isLeap.
    assert (Hm4 : y mod 4 = (n4' + 1) mod 4) by (subst y; divmod).
    assert (Hm100 : y mod 100 = (4 * n3 + n4' + 1) mod 100) by (subst y; divmod).
    assert (Hm400 : y mod 400 = (100 * n2' + 4 * n3 + n4' + 1) mod 400)
      by (subst y; divmod).
    rewrite Hm4, Hm100, Hm400.
    destruct (Z.eq_dec d4 365) as [E|E]; [|destruct (_ && _); lia].
    destruct Hd4 as [_ Hd4]. destruct (Hd4 E) as [E4 E3].
    replace ((n4' + 1) mod 4 =? 0) with true by (symmetry; apply Z.eqb_eq; divmod).
    cbn [andb].
    destruct (Z.eq_dec n3 24) as [E24|E24].
    + assert (E2 : n2' = 3) by (apply Hd3; assumption).
      replace ((100 * n2' + 4 * n3 + n4' + 1) mod 400 =? 0) with true
        by (rewrite E2, E24, E4; reflexivity).
      rewrite orb_true_r. lia.
    + replace ((4 * n3 + n4' + 1) mod 100 =? 0) with false
        by (symmetry; apply Z.eqb_neq; divmod).
      cbn [negb orb]. lia.
  - unfold time.daysSinceEpoch.
    replace (y - 1) with (400 * n1 + 100 * n2' + 4 * n3 + n4') by (subst y; lia).
    replace ((400 * n1 + 100 * n2' + 4 * n3 + n4') / 400) with n1 by divmod.
    cbv zeta.
    replace (400 * n1 + 100 * n2' + 4 * n3 + n4' - 400 * n1)
      with (100 * n2' + 4 * n3 + n4') by lia.
    replace ((100 * n2' + 4 * n3 + n4') / 100) with n2' by divmod.
    replace (100 * n2' + 4 * n3 + n4' - 100 * n2') with (4 * n3 + n4') by lia.
    replace ((4 * n3 + n4') / 4) with n3 by divmod.
    subst d4 d3 d2 d1. lia.
Qed.

(** Only whether the year is a leap year matters for the months. *)
Lemma monthDay_check_leap y y' yd :
  time.isLeap y = time.isLeap y' -> monthDay_check y yd = monthDay_check y' yd.
Proof.
  intros H. unfold monthDay_check, time.monthDay, time.daysIn. rewrite H. reflexivity.
Qed.

Lemma monthDay_checked y yd :
  0 <= yd < (if time.isLeap y then 366 else 365) -> monthDay_check y yd = true.
Proof.
  intros H. destruct (time.isLeap y) eqn:E.
  - rewrite (monthDay_check_leap y 2024 yd E).
    apply (all_from_spec 366 (monthDay_check 2024) 0); [|lia]. vm_compute. reflexivity.
  - rewrite (monthDay_check_leap y 2023 yd E).
    apply (all_from_spec 365 (monthDay_check 2023) 0); [|lia]. vm_compute. reflexivity.
Qed.

(** The date of any day is a date of the calendar, from which
    [days_from_civil] gives the day back. *)
Lemma civil_roundtrip z y m d :
  time.civil_from_days z = (y, m, d) ->
  1 <= m <= 12 /\ 1 <= d <= time.daysIn m y /\ d <= 31
  /\ time.days_from_civil y m d = z.
Proof.
  unfold time.civil_from_days, time.days_from_civil.
  destruct (absDate_spec (z + time.unixEpochDay)) as (H0 & H1 & H2).
  destruct (time.absDate (z + time.unixEpochDay)) as [year yday]. cbn [fst snd] in *.
  pose proof (monthDay_checked year yday (conj H0 H1)) as Hc.
  unfold monthDay_check in Hc.
  destruct (time.monthDay year yday) as [month day].
  intros [= <- <- <-].
  rewrite !andb_true_iff, !Z.leb_le, Z.eqb_eq in Hc.
  destruct Hc as (((((Hm1 & Hm2) & Hd1) & Hd2) & Hd3) & Hyd).
  repeat split; try assumption. lia.
Qed.

(** ** The layout of the expiration *)

Lemma appendInt_two x : 0 <= x < 100 -> time.appendInt x 2 = two x.
Proof.
  intros H. eapply bool_decide_eq_true_1.
  apply (all_from_spec 100 pad2_check 0); [|lia]. vm_compute. reflexivity.
Qed.

Lemma appendInt_four x : 0 <= x < 10000 -> time.appendInt x 4 = four x.
Proof.
  intros H. eapply bool_decide_eq_true_1.
  apply (all_from_spec (Z.to_nat 10000) pad4_check 0); [|lia]. vm_compute. reflexivity.
Qed.

Lemma digit_checked a :
  0 <= a <= 9 -> plain (time.digit a) = true /\ time.digit a <> dquote.
Proof.
  intros H.
  assert (Hc : digit_check a = true).
  { apply (all_from_spec 10 digit_check 0); [|lia]. vm_compute. reflexivity. }
  unfold digit_check in Hc. apply andb_true_iff in Hc as [H1 H2].
  split; [exact H1|]. apply negb_true_iff, bool_decide_eq_false in H2. exact H2.
Qed.

Lemma digit_isDigit a :
  0 <= a <= 9 ->
  (0x30 <=? byteZ (time.digit a)) && (byteZ (time.digit a) <=? 0x39) = true.
Proof.
  intros H. rewrite (byteZ_digit a H). apply andb_true_iff.
  rewrite !Z.leb_le. lia.
Qed.

Lemma getnum_two x rest fixed :
  0 <= x < 100 -> time.getnum (two x ++ rest) fixed = Some (x, rest).
Proof.
  intros H.
  assert (H1 : 0 <= x / 10 <= 9) by divmod.
  assert (H0 : 0 <= x mod 10 <= 9) by divmod.
  unfold time.getnum, time.isDigit, time.digitval, two. simpl.
  rewrite (digit_isDigit _ H1), (digit_isDigit _ H0). simpl.
  rewrite (byteZ_digit _ H1), (byteZ_digit _ H0).
  f_equal. f_equal. divmod.
Qed.

Lemma year_four y rest :
  0 <= y < 10000 ->
  time.isDigit (four y ++ rest) 0 = true
  /\ time.digits_value 0 (firstn 4 (four y ++ rest)) = Some y.
Proof.
  intros H.
  assert (H3 : 0 <= y / 1000 <= 9) by divmod.
  assert (H2 : 0 <= y / 100 mod 10 <= 9) by divmod.
  assert (H1 : 0 <= y / 10 mod 10 <= 9) by divmod.
  assert (H0 : 0 <= y mod 10 <= 9) by divmod.
  unfold time.isDigit, four. simpl.
  rewrite (digit_isDigit _ H3), (digit_isDigit _ H2), (digit_isDigit _ H1),
    (digit_isDigit _ H0).
  split; [reflexivity|].
  rewrite (byteZ_digit _ H3), (byteZ_digit _ H2), (byteZ_digit _ H1), (byteZ_digit _ H0).
  f_equal. divmod.
Qed.

Lemma HasPrefix_app p rest : HasPrefix (p ++ rest) p = true.
Proof.
  induction p as [|c p IH]; simpl.
  - destruct rest; reflexivity.
  - destruct (decide (c = c)); [exact IH|contradiction].
Qed.

Lemma skip_literal p rest : time.skip (p ++ rest) p = Some rest.
Proof.
  unfold time.skip. rewrite HasPrefix_app. f_equal.
  induction p as [|c p IH]; [reflexivity|exact IH].
Qed.

(** [Parse] reads a well-formed stamp back. *)
Lemma Parse_stamp y m d hh mm ss :
  0 <= y < 10000 -> 1 <= m <= 12 -> 1 <= d <= time.daysIn m y -> d <= 31 ->
  0 <= hh < 24 -> 0 <= mm < 60 -> 0 <= ss < 60 ->
  time.Parse (stamp y m d hh mm ss) = Some (time.Date y m d hh mm ss 0).
Proof.
  intros Hy Hm Hd Hd' Hh Hmi Hs.
  unfold time.Parse, stamp.
  destruct (year_four y (B "-" ++ two m ++ B "-" ++ two d ++ B "T" ++ two hh ++ B ":"
                           ++ two mm ++ B ":" ++ two ss ++ B "+00:00") Hy) as [Hy0 Hy4].
  rewrite Hy0, Hy4.
  replace (length _ <? 4)%nat with false by reflexivity.
  cbn [orb negb mbind option_bind].
  change (skipn 4 (four y ++ ?r)) with r.
  rewrite skip_literal. cbn [mbind option_bind].
  rewrite getnum_two by lia. cbn [mbind option_bind].
  replace (m <=? 0) with false by (symmetry; apply Z.leb_gt; lia).
  replace (12 <? m) with false by (symmetry; apply Z.ltb_ge; lia).
  cbn [orb]. rewrite skip_literal. cbn [mbind option_bind].
  rewrite getnum_two by lia. cbn [mbind option_bind].
  rewrite skip_literal. cbn [mbind option_bind].
  rewrite getnum_two by lia. cbn [mbind option_bind].
  replace (hh <? 0) with false by (symmetry; apply Z.ltb_ge; lia).
  replace (24 <=? hh) with false by (symmetry; apply Z.leb_gt; lia).
  cbn [orb]. rewrite skip_literal. cbn [mbind option_bind].
  rewrite getnum_two by lia. cbn [mbind option_bind].
  replace (mm <? 0) with false by (symmetry; apply Z.ltb_ge; lia).
  replace (60 <=? mm) with false by (symmetry; apply Z.leb_gt; lia).
  cbn [orb]. rewrite skip_literal. cbn [mbind option_bind].
  replace (two ss ++ B "+00:00") with (two ss ++ B "+00:00" ++ []) by reflexivity.
  rewrite getnum_two by lia. cbn [mbind option_bind].
  replace (ss <? 0) with false by (symmetry; apply Z.ltb_ge; lia).
  replace (60 <=? ss) with false by (symmetry; apply Z.leb_gt; lia).
  cbn [orb]. simpl.
  replace (d <? 1) with false by (symmetry; apply Z.ltb_ge; lia).
  replace (time.daysIn m y <? d) with false by (symmetry; apply Z.ltb_ge; lia).
  reflexivity.
Qed.

(** [Format] writes a stamp, for a year of four digits. *)
Lemma Format_stamp t y m d :
  time.civil_from_days ((time.unix t + time.offset t) / 86400) = (y, m, d) ->
  0 <= y < 10000 ->
  let secs := (time.unix t + time.offset t) mod 86400 in
  time.Format t = stamp y m d (secs / 3600) (secs mod 3600 / 60) (secs mod 60).
Proof.
  intros Hc Hy secs.
  destruct (civil_roundtrip _ _ _ _ Hc) as (Hm & Hd & Hd' & _).
  assert (Hs : 0 <= secs < 86400) by (apply Z.mod_pos_bound; lia).
  unfold time.Format. rewrite Hc. fold secs. unfold stamp.
  rewrite (appendInt_four y Hy), (appendInt_two m), (appendInt_two d),
    (appendInt_two (secs / 3600)), (appendInt_two (secs mod 3600 / 60)),
    (appendInt_two (secs mod 60)) by divmod.
  reflexivity.
Qed.

(** A text of plain bytes is quoted as it is. *)
Lemma appendString_loop_plain s : forall fuel,
  (length s <= fuel)%nat -> Forall (fun b => plain b = true) s ->
  json.appendString_loop fuel s = s.
Proof.
  induction s as [|b s IH]; intros fuel Hf Hs.
  - destruct fuel; reflexivity.
  - destruct fuel as [|fuel]; [simpl in Hf; lia|].
    inversion Hs as [|? ? Hb Hs']; subst.
    unfold plain in Hb. apply andb_true_iff in Hb as [Hb1 Hb2].
    cbn [json.appendString_loop]. unfold utf8.RuneSelf. rewrite Hb1, Hb2.
    simpl. f_equal. apply IH; [simpl in Hf; lia|exact Hs'].
Qed.

Lemma appendString_plain s :
  Forall (fun b => plain b = true) s -> json.appendString s = dquote :: s ++ [dquote].
Proof.
  intros H. unfold json.appendString. rewrite appendString_loop_plain; auto.
Qed.

Lemma two_plain x : 0 <= x < 100 -> Forall (fun b => plain b = true) (two x).
Proof.
  intros H. unfold two.
  repeat constructor; apply digit_checked; divmod.
Qed.

Lemma stamp_plain y m d hh mm ss :
  0 <= y < 10000 -> 0 <= m < 100 -> 0 <= d < 100 ->
  0 <= hh < 100 -> 0 <= mm < 100 -> 0 <= ss < 100 ->
  Forall (fun b => plain b = true) (stamp y m d hh mm ss).
Proof.
  intros Hy Hm Hd Hh Hmi Hs. unfold stamp.
  assert (Hlit : forall c, plain c = true -> Forall (fun b => plain b = true) [c])
    by (intros c Hc; repeat constructor; exact Hc).
  repeat (apply Forall_app; split); try (apply two_plain; assumption);
    try (apply Hlit; reflexivity).
  - unfold four. repeat constructor; apply digit_checked; divmod.
  - repeat constructor.
Qed.

(** The quotes around a quoted text are what [Trim] takes away, when the
    text has no quote at its ends. *)
Lemma Trim_quoted a mid z c :
  a <> c -> z <> c -> Trim (c :: (a :: mid ++ [z]) ++ [c]) c = a :: mid ++ [z].
Proof.
  intros Ha Hz. unfold Trim, TrimRight. simpl.
  destruct (decide (c = c)) as [_|E]; [|contradiction].
  destruct (decide (a = c)) as [E|_]; [contradiction|].
  simpl. rewrite !rev_app_distr. simpl.
  destruct (decide (c = c)) as [_|E]; [|contradiction].
  destruct (decide (z = c)) as [E|_]; [contradiction|].
  simpl. rewrite rev_app_distr, rev_involutive. reflexivity.
Qed.

Lemma Trim_stamp y m d hh mm ss :
  0 <= y < 10000 ->
  Trim (dquote :: stamp y m d hh mm ss ++ [dquote]) dquote = stamp y m d hh mm ss.
Proof.
  intros Hy.
  assert (H3 : time.digit (y / 1000) <> dquote) by (apply digit_checked; divmod).
  set (mid := [time.digit (y / 100 mod 10); time.digit (y / 10 mod 10);
               time.digit (y mod 10)]
              ++ B "-" ++ two m ++ B "-" ++ two d ++ B "T" ++ two hh ++ B ":"
              ++ two mm ++ B ":" ++ two ss ++ B "+00:0").
  change (stamp y m d hh mm ss) with (time.digit (y / 1000) :: mid ++ [x30]).
  apply Trim_quoted; [exact H3|discriminate].
Qed.

(** The years that are written on four digits, in seconds of the Unix
    epoch: from 0000-01-01T00:00:00Z to 9999-12-31T23:59:59Z. *)
Lemma Year_range t :
  0 <= Year t < 10000 ->
  forall y m d,
    time.civil_from_days ((time.unix t + time.offset t) / 86400) = (y, m, d) ->
    0 <= y < 10000.
Proof. unfold Year. intros H y m d E. rewrite E in H. exact H. Qed.

(** [Parse] reads what [Format] wrote, to the second, for a time in UTC
    whose year has four digits. *)
Lemma Parse_Format t :
  time.offset t = 0 ->
  0 <= Year t < 10000 ->
  time.Parse (time.Format t)
  = Some {| time.unix := time.unix t; time.nsec := 0; time.offset := 0 |}.
Proof.
  intros Hoff Hyear.
  destruct (time.civil_from_days ((time.unix t + time.offset t) / 86400))
    as [[y m] d] eqn:Hc.
  pose proof (Year_range t Hyear y m d Hc) as Hy.
  destruct (civil_roundtrip _ _ _ _ Hc) as (Hm & Hd & Hd' & Hdays).
  pose proof (Format_stamp t y m d Hc Hy) as Hfmt. cbv zeta in Hfmt.
  set (secs := (time.unix t + time.offset t) mod 86400) in *.
  assert (Hs : 0 <= secs < 86400) by (apply Z.mod_pos_bound; lia).
  rewrite Hfmt, Parse_stamp by divmod.
  f_equal. unfold time.Date. f_equal.
  rewrite Hdays. subst secs. rewrite Hoff in *. rewrite Z.add_0_r in *. divmod.
Qed.

(** The formatted time is quoted as it is, and [Trim] takes the quotes
    away again. *)
Lemma quoted_Format t :
  0 <= Year t < 10000 ->
  json.appendString (time.Format t) = dquote :: time.Format t ++ [dquote]
  /\ Trim (dquote :: time.Format t ++ [dquote]) dquote = time.Format t.
Proof.
  intros Hyear.
  destruct (time.civil_from_days ((time.unix t + time.offset t) / 86400))
    as [[y m] d] eqn:Hc.
  pose proof (Year_range t Hyear y m d Hc) as Hy.
  destruct (civil_roundtrip _ _ _ _ Hc) as (Hm & Hd & Hd' & _).
  pose proof (Format_stamp t y m d Hc Hy) as Hfmt. cbv zeta in Hfmt.
  set (secs := (time.unix t + time.offset t) mod 86400) in *.
  assert (Hs : 0 <= secs < 86400) by (apply Z.mod_pos_bound; lia).
  rewrite Hfmt. split.
  - apply appendString_plain, stamp_plain; divmod.
  - apply Trim_stamp, Hy.
Qed.

(** C8, as amended.  For a time in UTC whose year is between 0 and 9999,
    the text that [MarshalJSON] writes in the layout with the [+00:00]
    suffix is read back by [UnmarshalJSON] as the same time, to the
    second: the same second of the Unix epoch, no nanoseconds, in UTC. *)
Theorem ExpireTime_roundtrip t :
  time.offset t = 0 ->
  0 <= Year t < 10000 ->
  ExpireTime_UnmarshalJSON (ExpireTime_MarshalJSON t)
  = Some {| time.unix := time.unix t; time.nsec := 0; time.offset := 0 |}.
Proof.
  intros Hoff Hyear.
  unfold ExpireTime_UnmarshalJSON, ExpireTime_MarshalJSON.
  destruct (quoted_Format t Hyear) as [Hq Htrim].
  rewrite Hq, Htrim. apply Parse_Format; assumption.
Qed.

(** The same at concrete times: a time of year 2024 with nanoseconds, read
    back to the second. *)
Lemma ExpireTime_roundtrip_witness :
  ExpireTime_UnmarshalJSON (ExpireTime_MarshalJSON ex_now)
  = Some {| time.unix := 1718769978; time.nsec := 0; time.offset := 0 |}.
Proof.
  apply (ExpireTime_roundtrip ex_now).
  - reflexivity.
  - vm_compute. split; [discriminate|reflexivity].
Defined.

(** C8, as stated, fails on the first second of year 10000: the year is
    written on five digits, which [Parse] does not read. *)
Lemma ExpireTime_year_10000 :
  ExpireTime_MarshalJSON ex_year_10000
  = dquote :: B "10000-01-01T00:00:00+00:00" ++ [dquote]
  /\ ExpireTime_UnmarshalJSON (ExpireTime_MarshalJSON ex_year_10000) = None.
Proof. split; vm_compute; reflexivity. Qed.

(** A time that is not in UTC is written with the wall clock of its
    location and the suffix [+00:00], and read back as another instant. *)
Lemma ExpireTime_not_UTC :
  ExpireTime_MarshalJSON ex_expiry_plus2
  = dquote :: B "2024-06-19T06:16:18+00:00" ++ [dquote]
  /\ ExpireTime_UnmarshalJSON (ExpireTime_MarshalJSON ex_expiry_plus2)
     = Some {| time.unix := 1718770578 + 7200; time.nsec := 0; time.offset := 0 |}.
Proof. split; vm_compute; reflexivity. Qed.

(** ** UTF-8: encoding what was decoded *)

Lemma zbyte_byteZ b : zbyte (byteZ b) = b.
Proof. destruct b; reflexivity. Qed.

Lemma land_lor_zero a n b :
  0 <= n -> 0 <= b < 2 ^ n -> Z.land (Z.shiftl a n) b = 0.
Proof.
  intros Hn Hb. apply Z.bits_inj'. intros i Hi.
  rewrite Z.land_spec, Z.bits_0.
  destruct (Z.lt_ge_cases i n) as [Hlt|Hge].
  - rewrite Z.shiftl_spec_low by exact Hlt. reflexivity.
  - rewrite <- (Z.mod_small b (2 ^ n)) by exact Hb.
    rewrite Z.mod_pow2_bits_high by lia. apply andb_false_r.
Qed.

(** Bits that do not overlap add up. *)
Lemma lor_shiftl a n b :
  0 <= n -> 0 <= b < 2 ^ n -> Z.lor (Z.shiftl a n) b = a * 2 ^ n + b.
Proof.
  intros Hn Hb. rewrite <- (Z.shiftl_mul_pow2 a n Hn).
  rewrite <- Z.add_lor_land, (land_lor_zero a n b Hn Hb). lia.
Qed.

Lemma land_63 a : Z.land a 0x3F = a mod 64.
Proof. change 0x3F with (Z.ones 6). rewrite Z.land_ones by lia. reflexivity. Qed.

Lemma land_31 a : Z.land a 0x1F = a mod 32.
Proof. change 0x1F with (Z.ones 5). rewrite Z.land_ones by lia. reflexivity. Qed.

Lemma land_15 a : Z.land a 0x0F = a mod 16.
Proof. change 0x0F with (Z.ones 4). rewrite Z.land_ones by lia. reflexivity. Qed.

Lemma land_7 a : Z.land a 0x07 = a mod 8.
Proof. change 0x07 with (Z.ones 3). rewrite Z.land_ones by lia. reflexivity. Qed.

Lemma lor_tag tag n x :
  0 <= n -> 0 <= x < 2 ^ n -> Z.lor (tag * 2 ^ n) x = tag * 2 ^ n + x.
Proof.
  intros Hn Hx. rewrite <- (Z.shiftl_mul_pow2 tag n Hn).
  rewrite (lor_shiftl tag n x Hn Hx), Z.shiftl_mul_pow2 by exact Hn. reflexivity.
Qed.

Lemma lor_80 x : 0 <= x < 64 -> Z.lor 0x80 x = 0x80 + x.
Proof. intros H. apply (lor_tag 2 6 x); lia. Qed.

Lemma lor_C0 x : 0 <= x < 32 -> Z.lor 0xC0 x = 0xC0 + x.
Proof. intros H. apply (lor_tag 6 5 x); lia. Qed.

Lemma lor_E0 x : 0 <= x < 16 -> Z.lor 0xE0 x = 0xE0 + x.
Proof. intros H. apply (lor_tag 14 4 x); lia. Qed.

Lemma lor_F0 x : 0 <= x < 8 -> Z.lor 0xF0 x = 0xF0 + x.
Proof. intros H. apply (lor_tag 30 3 x); lia. Qed.

(** The rune of a sequence of two, three and four bytes, in arithmetic. *)
Lemma rune2_eq z0 z1 :
  Z.lor (Z.shiftl (Z.land z0 0x1F) 6) (Z.land z1 0x3F) = z0 mod 32 * 64 + z1 mod 64.
Proof.
  rewrite land_31, land_63, (lor_shiftl _ 6) by (try lia; apply Z.mod_pos_bound; lia).
  reflexivity.
Qed.

Lemma rune3_eq z0 z1 z2 :
  Z.lor (Z.shiftl (Z.land z0 0x0F) 12)
    (Z.lor (Z.shiftl (Z.land z1 0x3F) 6) (Z.land z2 0x3F))
  = z0 mod 16 * 4096 + z1 mod 64 * 64 + z2 mod 64.
Proof.
  rewrite land_15, !land_63.
  rewrite (lor_shiftl _ 6) by (try lia; apply Z.mod_pos_bound; lia).
  rewrite (lor_shiftl _ 12) by (try lia; change (2 ^ 6) with 64; change (2 ^ 12) with 4096; divmod).
  change (2 ^ 6) with 64. change (2 ^ 12) with 4096. lia.
Qed.

Lemma rune4_eq z0 z1 z2 z3 :
  Z.lor (Z.shiftl (Z.land z0 0x07) 18)
    (Z.lor (Z.shiftl (Z.land z1 0x3F) 12)
       (Z.lor (Z.shiftl (Z.land z2 0x3F) 6) (Z.land z3 0x3F)))
  = z0 mod 8 * 262144 + z1 mod 64 * 4096 + z2 mod 64 * 64 + z3 mod 64.
Proof.
  rewrite land_7, !land_63.
  rewrite (lor_shiftl _ 6) by (try lia; apply Z.mod_pos_bound; lia).
  rewrite (lor_shiftl _ 12) by (try lia; change (2 ^ 6) with 64; change (2 ^ 12) with 4096; divmod).
  rewrite (lor_shiftl _ 18)
    by (try lia; change (2 ^ 6) with 64; change (2 ^ 12) with 4096;
        change (2 ^ 18) with 262144; divmod).
  change (2 ^ 6) with 64. change (2 ^ 12) with 4096. change (2 ^ 18) with 262144. lia.
Qed.

Lemma shiftr_div a n : 0 <= n -> Z.shiftr a n = a / 2 ^ n.
Proof. apply Z.shiftr_div_pow2. Qed.

Lemma EncodeRune_2 z0 z1 :
  0xC2 <= z0 <= 0xDF -> 0x80 <= z1 <= 0xBF ->
  utf8.EncodeRune (z0 mod 32 * 64 + z1 mod 64) = [zbyte z0; zbyte z1].
Proof.
  intros H0 H1. set (c := z0 mod 32 * 64 + z1 mod 64).
  assert (Hc : 0x80 <= c <= 0x7FF) by (subst c; divmod).
  unfold utf8.EncodeRune.
  replace (c <=? 0x7F) with false by (symmetry; apply Z.leb_gt; lia).
  replace (0 <=? c) with true by (symmetry; apply Z.leb_le; lia).
  replace (c <=? 0x7FF) with true by (symmetry; apply Z.leb_le; lia).
  cbn [andb]. rewrite land_63, (shiftr_div c 6) by lia. change (2 ^ 6) with 64.
  rewrite lor_C0, lor_80 by (subst c; divmod).
  f_equal; [|f_equal]; f_equal; subst c; divmod.
Qed.

Lemma EncodeRune_3 z0 z1 z2 :
  0xE0 <= z0 <= 0xEF -> 0x80 <= z1 <= 0xBF -> 0x80 <= z2 <= 0xBF ->
  (z0 = 0xE0 -> 0xA0 <= z1) -> (z0 = 0xED -> z1 <= 0x9F) ->
  utf8.EncodeRune (z0 mod 16 * 4096 + z1 mod 64 * 64 + z2 mod 64)
  = [zbyte z0; zbyte z1; zbyte z2].
Proof.
  intros H0 H1 H2 Hlo Hhi. set (c := z0 mod 16 * 4096 + z1 mod 64 * 64 + z2 mod 64).
  assert (Hc : 0x800 <= c <= 0xFFFF) by (subst c; divmod).
  assert (Hs : c < 0xD800 \/ 0xDFFF < c) by (subst c; divmod).
  unfold utf8.EncodeRune, utf8.MaxRune.
  replace (c <=? 0x7F) with false by (symmetry; apply Z.leb_gt; lia).
  replace (c <=? 0x7FF) with false by (symmetry; apply Z.leb_gt; lia).
  replace (c <? 0) with false by (symmetry; apply Z.ltb_ge; lia).
  replace (0x10FFFF <? c) with false by (symmetry; apply Z.ltb_ge; lia).
  replace ((0xD800 <=? c) && (c <=? 0xDFFF)) with false
    by (symmetry; apply andb_false_iff; rewrite Z.leb_gt, Z.leb_gt; lia).
  replace (c <=? 0xFFFF) with true by (symmetry; apply Z.leb_le; lia).
  rewrite !andb_false_r. cbn [orb]. unfold utf8.enc3.
  rewrite !land_63, (shiftr_div c 6), (shiftr_div c 12) by lia.
  change (2 ^ 6) with 64. change (2 ^ 12) with 4096.
  rewrite lor_E0, !lor_80 by (subst c; divmod).
  f_equal; [|f_equal; [|f_equal]]; f_equal; subst c; divmod.
Qed.

Lemma EncodeRune_4 z0 z1 z2 z3 :
  0xF0 <= z0 <= 0xF4 -> 0x80 <= z1 <= 0xBF -> 0x80 <= z2 <= 0xBF -> 0x80 <= z3 <= 0xBF ->
  (z0 = 0xF0 -> 0x90 <= z1) -> (z0 = 0xF4 -> z1 <= 0x8F) ->
  utf8.EncodeRune (z0 mod 8 * 262144 + z1 mod 64 * 4096 + z2 mod 64 * 64 + z3 mod 64)
  = [zbyte z0; zbyte z1; zbyte z2; zbyte z3].
Proof.
  intros H0 H1 H2 H3 Hlo Hhi.
  set (c := z0 mod 8 * 262144 + z1 mod 64 * 4096 + z2 mod 64 * 64 + z3 mod 64).
  assert (Hc : 0x10000 <= c <= 0x10FFFF) by (subst c; divmod).
  unfold utf8.EncodeRune, utf8.MaxRune.
  replace (c <=? 0x7F) with false by (symmetry; apply Z.leb_gt; lia).
  replace (c <=? 0x7FF) with false by (symmetry; apply Z.leb_gt; lia).
  replace (c <? 0) with false by (symmetry; apply Z.ltb_ge; lia).
  replace (0x10FFFF <? c) with false by (symmetry; apply Z.ltb_ge; lia).
  replace (c <=? 0xDFFF) with false by (symmetry; apply Z.leb_gt; lia).
  replace (c <=? 0xFFFF) with false by (symmetry; apply Z.leb_gt; lia).
  rewrite !andb_false_r. cbn [orb].
  rewrite !land_63, (shiftr_div c 6), (shiftr_div c 12), (shiftr_div c 18) by lia.
  change (2 ^ 6) with 64. change (2 ^ 12) with 4096. change (2 ^ 18) with 262144.
  rewrite lor_F0, !lor_80 by (subst c; divmod).
  f_equal; [|f_equal; [|f_equal; [|f_equal]]]; f_equal; subst c; divmod.
Qed.

Ltac cmp_cases :=
  repeat match goal with
    | |- context [?a <? ?b] => destruct (Z.ltb_spec a b)
    | |- context [?a =? ?b] => destruct (Z.eqb_spec a b)
    | |- context [?a <=? ?b] => destruct (Z.leb_spec a b)
    end.

Lemma first_ASCII z : utf8.first z = utf8.ASCII -> z < 0x80.
Proof. unfold utf8.first. cmp_cases; intros; try discriminate; lia. Qed.

(** What the table says of a lead byte. *)
Lemma first_Lead z sz lo hi :
  utf8.first z = utf8.Lead sz lo hi ->
  0x80 <= lo /\ hi <= 0xBF
  /\ ((sz = 2%nat /\ 0xC2 <= z <= 0xDF)
      \/ (sz = 3%nat /\ 0xE0 <= z <= 0xEF
          /\ (z = 0xE0 -> 0xA0 <= lo) /\ (z = 0xED -> hi <= 0x9F))
      \/ (sz = 4%nat /\ 0xF0 <= z <= 0xF4
          /\ (z = 0xF0 -> 0x90 <= lo) /\ (z = 0xF4 -> hi <= 0x8F))).
Proof.
  unfold utf8.first. cmp_cases; intros [= <- <- <-]; repeat split; try lia.
  all: try (left; split; [reflexivity|lia]).
  all: try (right; left; split; [reflexivity|lia]).
  all: try (right; right; split; [reflexivity|lia]).
Qed.

Lemma DecodeRune_cases s c size :
  utf8.DecodeRune s = (c, size) -> s <> [] ->
  (c = utf8.RuneError /\ size = 1%nat) \/ wellformed_at s c size.
Proof.
  intros H Hs. destruct s as [|b0 t]; [contradiction|]. clear Hs.
  pose proof (byteZ_range b0) as R0.
  unfold utf8.DecodeRune in H.
  destruct (utf8.first (byteZ b0)) as [| |sz lo hi] eqn:F.
  - (* ASCII *)
    injection H as <- <-. right. apply first_ASCII in F.
    unfold wellformed_at. simpl. repeat split; try lia.
    + unfold utf8.EncodeRune.
      replace (0 <=? byteZ b0) with true by (symmetry; apply Z.leb_le; lia).
      replace (byteZ b0 <=? 0x7F) with true by (symmetry; apply Z.leb_le; lia).
      simpl. rewrite zbyte_byteZ. reflexivity.
    + intros rest. simpl. replace (utf8.first (byteZ b0)) with utf8.ASCII.
      * reflexivity.
      * unfold utf8.first. replace (byteZ b0 <? 128) with true; [reflexivity|].
        symmetry. apply Z.ltb_lt. lia.
    + constructor.
  - injection H as <- <-. left. auto.
  - destruct (first_Lead _ _ _ _ F) as (Hlo & Hhi & Hsz).
    destruct t as [|b1 t1].
    { (* one byte only *)
      simpl in H. destruct Hsz as [(-> & _)|[(-> & _)|(-> & _)]];
        simpl in H; injection H as <- <-; left; auto. }
    pose proof (byteZ_range b1) as R1.
    cbn [nth] in H.
    destruct ((byteZ b1 <? lo) || (hi <? byteZ b1)) eqn:E1.
    { destruct (length (b0 :: b1 :: t1) <? sz)%nat; injection H as <- <-; left; auto. }
    apply orb_false_iff in E1 as [E1a E1b]. apply Z.ltb_ge in E1a, E1b.
    destruct Hsz as [(-> & Hz)|[(-> & Hz & Hl & Hh)|(-> & Hz & Hl & Hh)]].
    + (* two bytes *)
      simpl in H. injection H as <- <-. right. rewrite rune2_eq.
      unfold wellformed_at. simpl. repeat split; try lia.
      * rewrite EncodeRune_2 by lia. rewrite !zbyte_byteZ. reflexivity.
      * intros rest. rewrite F. simpl.
        replace ((byteZ b1 <? lo) || (hi <? byteZ b1)) with false
          by (symmetry; apply orb_false_iff; rewrite !Z.ltb_ge; lia).
        rewrite rune2_eq. reflexivity.
      * repeat constructor; lia.
    + (* three bytes *)
      destruct t1 as [|b2 t2]; [simpl in H; injection H as <- <-; left; auto|].
      pose proof (byteZ_range b2) as R2.
      cbn [length Nat.ltb Nat.leb nth] in H.
      unfold utf8.cont in H.
      destruct ((0x80 <=? byteZ b2) && (byteZ b2 <=? 0xBF)) eqn:E2;
        simpl in H; [|injection H as <- <-; left; auto].
      apply andb_true_iff in E2 as [E2a E2b]. apply Z.leb_le in E2a, E2b.
      injection H as <- <-. right. rewrite rune3_eq.
      unfold wellformed_at. simpl. repeat split; try lia.
      * rewrite EncodeRune_3 by lia. rewrite !zbyte_byteZ. reflexivity.
      * intros rest. rewrite F. simpl. unfold utf8.cont.
        replace ((byteZ b1 <? lo) || (hi <? byteZ b1)) with false
          by (symmetry; apply orb_false_iff; rewrite !Z.ltb_ge; lia).
        replace ((0x80 <=? byteZ b2) && (byteZ b2 <=? 0xBF)) with true
          by (symmetry; apply andb_true_iff; rewrite !Z.leb_le; lia).
        simpl. rewrite rune3_eq. reflexivity.
      * repeat constructor; lia.
    + (* four bytes *)
      destruct t1 as [|b2 t2]; [simpl in H; injection H as <- <-; left; auto|].
      destruct t2 as [|b3 t3].
      { simpl in H. injection H as <- <-. left. auto. }
      pose proof (byteZ_range b2) as R2. pose proof (byteZ_range b3) as R3.
      cbn [length Nat.ltb Nat.leb nth] in H.
      unfold utf8.cont in H.
      destruct ((0x80 <=? byteZ b2) && (byteZ b2 <=? 0xBF)) eqn:E2;
        simpl in H; [|injection H as <- <-; left; auto].
      destruct ((0x80 <=? byteZ b3) && (byteZ b3 <=? 0xBF)) eqn:E3;
        simpl in H; [|injection H as <- <-; left; auto].
      apply andb_true_iff in E2 as [E2a E2b]. apply Z.leb_le in E2a, E2b.
      apply andb_true_iff in E3 as [E3a E3b]. apply Z.leb_le in E3a, E3b.
      injection H as <- <-. right. rewrite rune4_eq.
      unfold wellformed_at. simpl. repeat split; try lia.
      * rewrite EncodeRune_4 by lia. rewrite !zbyte_byteZ. reflexivity.
      * intros rest. rewrite F. simpl. unfold utf8.cont.
        replace ((byteZ b1 <? lo) || (hi <? byteZ b1)) with false
          by (symmetry; apply orb_false_iff; rewrite !Z.ltb_ge; lia).
        replace ((0x80 <=? byteZ b2) && (byteZ b2 <=? 0xBF)) with true
          by (symmetry; apply andb_true_iff; rewrite !Z.leb_le; lia).
        replace ((0x80 <=? byteZ b3) && (byteZ b3 <=? 0xBF)) with true
          by (symmetry; apply andb_true_iff; rewrite !Z.leb_le; lia).
        simpl. rewrite rune4_eq. reflexivity.
      * repeat constructor; lia.
Qed.

(** ** JSON strings: reading what was written *)

Lemma scanString_token b X :
  (byteZ b <? 0x80) = true ->
  json.scanString (token b ++ X)
  = '(body, rest) ← json.scanString X; Some (token b ++ body, rest).
Proof. destruct b; intros H; try discriminate H; reflexivity. Qed.

Lemma unquote_token b X fuel :
  (byteZ b <? 0x80) = true ->
  json.unquote_loop (S fuel) (token b ++ X)
  = t ← json.unquote_loop fuel X; Some (b :: t).
Proof. destruct b; intros H; try discriminate H; reflexivity. Qed.

Lemma token_length b : (byteZ b <? 0x80) = true -> (1 <= length (token b))%nat.
Proof. destruct b; intros H; try discriminate H; vm_compute; lia. Qed.

Lemma high_not_special b :
  0x80 <= byteZ b ->
  json.byte_is b dquote = false /\ json.byte_is b bslash = false
  /\ (byteZ b <? 0x20) = false /\ (byteZ b <? utf8.RuneSelf) = false.
Proof.
  intros H. unfold json.byte_is, utf8.RuneSelf.
  repeat split; try (apply Z.ltb_ge; lia);
    apply bool_decide_eq_false; intros ->; vm_compute in H; apply H; reflexivity.
Qed.

(** Bytes above the ASCII range go through the scanner as they are. *)
Lemma scanString_high l X :
  Forall (fun b => 0x80 <= byteZ b) l ->
  json.scanString (l ++ X)
  = '(body, rest) ← json.scanString X; Some (l ++ body, rest).
Proof.
  induction 1 as [|b l Hb Hl IH]; simpl.
  - destruct (json.scanString X) as [[body rest]|]; reflexivity.
  - destruct (high_not_special b Hb) as (-> & -> & -> & _).
    rewrite IH. destruct (json.scanString X) as [[body rest]|]; reflexivity.
Qed.

(** In the encoder, a sequence that starts above the ASCII range and is
    not ill formed is well formed, with all its bytes above that range. *)
Lemma DecodeRune_high b s c size :
  0x80 <= byteZ b ->
  utf8.DecodeRune (b :: s) = (c, size) ->
  (c =? utf8.RuneError) && (size =? 1)%nat = false ->
  wellformed_at (b :: s) c size
  /\ Forall (fun b => 0x80 <= byteZ b) (firstn size (b :: s)).
Proof.
  intros Hb Hd Hne.
  destruct (DecodeRune_cases _ _ _ Hd) as [(-> & ->)|Hw]; [discriminate|discriminate|].
  split; [exact Hw|].
  destruct Hw as ((H1 & H4) & Hlen & _ & _ & Hall).
  destruct (size =? 1)%nat eqn:E; [|exact Hall].
  apply Nat.eqb_eq in E. subst size. simpl. repeat constructor. exact Hb.
Qed.

Lemma skipn_length_le {A} (n : nat) (s : list A) fuel :
  (1 <= n)%nat -> (length s <= S fuel)%nat -> (length (skipn n s) <= fuel)%nat.
Proof. intros Hn Hl. rewrite length_skipn. lia. Qed.

(** The scanner reads the body of a quoted string up to its closing
    quote. *)
Lemma scanString_appendString fuel : forall s rest,
  (length s <= fuel)%nat ->
  json.scanString (json.appendString_loop fuel s ++ dquote :: rest)
  = Some (json.appendString_loop fuel s, rest).
Proof.
  induction fuel as [|fuel IH]; intros s rest Hl.
  - destruct s; [reflexivity|simpl in Hl; lia].
  - destruct s as [|b s]; [reflexivity|].
    cbn [json.appendString_loop].
    destruct (byteZ b <? utf8.RuneSelf) eqn:Hb.
    + fold (token b). rewrite <- app_assoc, (scanString_token b _ Hb).
      rewrite IH by (simpl in Hl; lia). reflexivity.
    + apply Z.ltb_ge in Hb. unfold utf8.RuneSelf in Hb.
      destruct (utf8.DecodeRune (b :: s)) as [c size] eqn:Hd.
      destruct ((c =? utf8.RuneError) && (size =? 1)%nat) eqn:Hne.
      * rewrite <- app_assoc.
        cbn. rewrite IH by (simpl in Hl; lia). reflexivity.
      * destruct (DecodeRune_high b s c size Hb Hd Hne) as (((H1 & _) & _) & Hall).
        pose proof (skipn_length_le size (b :: s) fuel H1 Hl) as Hsk.
        destruct ((c =? 0x2028) || (c =? 0x2029)) eqn:Hls.
        -- apply orb_true_iff in Hls as [E|E]; apply Z.eqb_eq in E; subst c;
             cbn; rewrite IH by exact Hsk; reflexivity.
        -- rewrite <- app_assoc, (scanString_high _ _ Hall), IH by exact Hsk.
           reflexivity.
Qed.

Lemma DecodeRune_ascii b s :
  (byteZ b <? utf8.RuneSelf) = true -> utf8.DecodeRune (b :: s) = (byteZ b, 1%nat).
Proof.
  intros H. apply Z.ltb_lt in H. unfold utf8.RuneSelf in H.
  unfold utf8.DecodeRune, utf8.first.
  replace (byteZ b <? 128) with true by (symmetry; apply Z.ltb_lt; lia).
  reflexivity.
Qed.

Lemma unquote_loop_nil fuel : json.unquote_loop fuel [] = Some [].
Proof. destruct fuel; reflexivity. Qed.

Lemma skipn_firstn_app {A} (n : nat) (s Y : list A) :
  (n <= length s)%nat -> skipn n (firstn n s ++ Y) = Y.
Proof.
  intros H. rewrite skipn_app, length_firstn, Nat.min_l by exact H.
  rewrite Nat.sub_diag, skipn_all2 by (rewrite length_firstn; lia). reflexivity.
Qed.

(** The escapes of U+2028 and U+2029. *)
Lemma unquote_line_separator c fu X :
  (c =? 0x2028) || (c =? 0x2029) = true ->
  json.unquote_loop (S fu) (B "\u202" ++ hexdigit (Z.land c 0xF) :: X)
  = t ← json.unquote_loop fu X; Some (utf8.EncodeRune c ++ t).
Proof.
  intros H. apply orb_true_iff in H as [E|E]; apply Z.eqb_eq in E; subst c; reflexivity.
Qed.

(** Unquoting the body of a quoted string gives the string back, when it
    is well-formed UTF-8. *)
Lemma unquote_appendString fe : forall s fv fu,
  (length s <= fe)%nat ->
  utf8.Valid_loop fv s = true ->
  (length (json.appendString_loop fe s) <= fu)%nat ->
  json.unquote_loop fu (json.appendString_loop fe s) = Some s.
Proof.
  induction fe as [|fe IH]; intros s fv fu Hl Hv Hfu.
  - destruct s; [apply unquote_loop_nil|simpl in Hl; lia].
  - destruct s as [|b s]; [apply unquote_loop_nil|].
    destruct fv as [|fv]; [discriminate Hv|].
    cbn [utf8.Valid_loop] in Hv. cbn [json.appendString_loop] in *.
    destruct (byteZ b <? utf8.RuneSelf) eqn:Hb.
    + rewrite (DecodeRune_ascii b s Hb) in Hv.
      replace ((byteZ b =? utf8.RuneError) && (1 =? 1)%nat) with false in Hv
        by (symmetry; apply andb_false_iff; left; apply Z.eqb_neq;
            apply Z.ltb_lt in Hb; unfold utf8.RuneSelf, utf8.RuneError in *; lia).
      cbn [skipn] in Hv. fold (token b) in *.
      pose proof (token_length b Hb) as Htl. rewrite length_app in Hfu.
      destruct fu as [|fu]; [lia|].
      rewrite (unquote_token b _ fu Hb).
      rewrite (IH s fv fu) by (simpl in Hl; lia || exact Hv). reflexivity.
    + apply Z.ltb_ge in Hb. unfold utf8.RuneSelf in Hb.
      destruct (utf8.DecodeRune (b :: s)) as [c size] eqn:Hd.
      destruct ((c =? utf8.RuneError) && (size =? 1)%nat) eqn:Hne; [discriminate Hv|].
      destruct (DecodeRune_high b s c size Hb Hd Hne)
        as (((H1 & H4) & Hlen & Henc & Hpre & _) & Hall).
      pose proof (skipn_length_le size (b :: s) fe H1 Hl) as Hsk.
      destruct ((c =? 0x2028) || (c =? 0x2029)) eqn:Hls.
      * rewrite length_app in Hfu. cbn [length] in Hfu.
        destruct fu as [|fu]; [lia|].
        rewrite (unquote_line_separator c fu _ Hls).
        rewrite (IH (skipn size (b :: s)) fv fu) by (exact Hsk || exact Hv || lia).
        cbn [mbind option_bind]. rewrite Henc, firstn_skipn. reflexivity.
      * rewrite length_app in Hfu.
        destruct size as [|n]; [lia|].
        cbn [firstn app] in *. cbn [length] in Hfu.
        destruct fu as [|fu]; [lia|].
        cbn [json.unquote_loop].
        destruct (high_not_special b Hb) as (-> & -> & -> & ->). cbn [orb].
        specialize (Hpre (json.appendString_loop fe (skipn (S n) (b :: s)))).
        cbn [firstn app] in Hpre. rewrite Hpre.
        cbn [skipn] in Hsk, Hv, Hfu |- *.
        rewrite skipn_firstn_app by (simpl in Hlen; lia).
        rewrite (IH (skipn n s) fv fu) by (exact Hsk || exact Hv || lia).
        cbn [mbind option_bind]. rewrite Henc. cbn [app]. f_equal. f_equal.
        apply firstn_skipn.
Qed.

(** ** Reading the cache file that [save] wrote *)

Ltac eval_byte_is :=
  repeat match goal with
    | |- context [json.byte_is ?a ?b] =>
        let v := eval vm_compute in (json.byte_is a b) in
        change (json.byte_is a b) with v
    end.

Lemma consumed_app q rest : json.consumed (q ++ rest) rest = q.
Proof.
  unfold json.consumed. rewrite length_app.
  replace (length q + length rest - length rest)%nat with (length q) by lia.
  rewrite firstn_app, Nat.sub_diag, firstn_all. simpl. apply app_nil_r.
Qed.

Lemma skipSpace_quoted s X :
  json.skipSpace (json.appendString s ++ X) = json.appendString s ++ X.
Proof. reflexivity. Qed.

(** A quoted string is a value. *)
Lemma parseValue_string s rest f d :
  json.parseValue (S f) d (json.appendString s ++ rest)
  = Some (json.VString (json.appendString_loop (length s) s), rest).
Proof.
  unfold json.appendString. cbn [app json.parseValue]. eval_byte_is. cbn [orb].
  rewrite <- app_assoc. cbn [app].
  rewrite scanString_appendString by lia. reflexivity.
Qed.

(** A member whose value is a quoted string, before a comma and before
    the closing brace.  The name is plain text. *)
Lemma parseMembers_comma name s more f d :
  (forall X, json.scanString (B name ++ dquote :: X) = Some (B name, X)) ->
  json.skipSpace more = more ->
  json.parseMembers (S (S f)) d (json.member name (json.appendString s) ++ B "," ++ more)
  = '(ms, r) ← json.parseMembers (S f) d more;
    Some ((B name, json.appendString s,
           json.VString (json.appendString_loop (length s) s)) :: ms, r).
Proof.
  intros Hname Hmore. unfold json.member. remember (S f) as f1 eqn:Hf1.
  change (B ":") with [x3a]. change (B ",") with [x2c].
  cbn [app json.parseMembers]. eval_byte_is.
  rewrite <- app_assoc. cbn [app]. rewrite Hname. cbn [mbind option_bind json.skipSpace].
  change (json.isSpace x3a) with false. cbn iota. eval_byte_is.
  rewrite skipSpace_quoted. subst f1. rewrite parseValue_string.
  cbn [mbind option_bind].
  rewrite consumed_app. cbn [app json.skipSpace].
  change (json.isSpace x2c) with false. cbn iota. eval_byte_is. rewrite Hmore.
  reflexivity.
Qed.

Lemma parseMembers_last name s rest f d :
  (forall X, json.scanString (B name ++ dquote :: X) = Some (B name, X)) ->
  json.parseMembers (S (S f)) d (json.member name (json.appendString s) ++ B "}" ++ rest)
  = Some ([(B name, json.appendString s,
            json.VString (json.appendString_loop (length s) s))], rest).
Proof.
  intros Hname. unfold json.member. remember (S f) as f1 eqn:Hf1.
  change (B ":") with [x3a]. change (B "}") with [x7d].
  cbn [app json.parseMembers]. eval_byte_is.
  rewrite <- app_assoc. cbn [app]. rewrite Hname. cbn [mbind option_bind json.skipSpace].
  change (json.isSpace x3a) with false. cbn iota. eval_byte_is.
  rewrite skipSpace_quoted. subst f1. rewrite parseValue_string.
  cbn [mbind option_bind].
  rewrite consumed_app. cbn [app json.skipSpace].
  change (json.isSpace x7d) with false. cbn iota. eval_byte_is.
  reflexivity.
Qed.

Lemma parseValue_object f d name v rest :
  (json.maxNestingDepth <? d + 1) = false ->
  json.parseValue (S f) d (B "{" ++ json.member name v ++ rest)
  = '(ms, r) ← json.parseMembers f (d + 1) (json.member name v ++ rest);
    Some (json.VObject ms, r).
Proof.
  intros Hd. unfold json.member. change (B "{") with [x7b].
  cbn [app json.parseValue]. eval_byte_is. rewrite Hd.
  cbn [json.skipSpace]. change (json.isSpace dquote) with false. cbn iota.
  eval_byte_is. reflexivity.
Qed.

(** The last member of an object, whatever its value. *)
Lemma parseMembers_last_value name v val rest f d :
  (forall X, json.scanString (B name ++ dquote :: X) = Some (B name, X)) ->
  json.skipSpace (v ++ B "}" ++ rest) = v ++ B "}" ++ rest ->
  json.parseValue f d (v ++ B "}" ++ rest) = Some (val, B "}" ++ rest) ->
  json.parseMembers (S f) d (json.member name v ++ B "}" ++ rest)
  = Some ([(B name, v, val)], rest).
Proof.
  intros Hname Hsp Hv. unfold json.member.
  change (B ":") with [x3a].
  cbn [app json.parseMembers]. eval_byte_is.
  rewrite <- app_assoc. cbn [app]. rewrite Hname. cbn [mbind option_bind json.skipSpace].
  change (json.isSpace x3a) with false. cbn iota. eval_byte_is.
  rewrite Hsp, Hv. cbn [mbind option_bind].
  rewrite consumed_app. change (B "}") with [x7d]. cbn [app json.skipSpace].
  change (json.isSpace x7d) with false. cbn iota. eval_byte_is.
  reflexivity.
Qed.

(** The names of the fields are read as they are. *)
Lemma scanString_plain l X :
  Forall (fun b => plain b = true) l ->
  json.scanString (l ++ dquote :: X) = Some (l, X).
Proof.
  intros H. rewrite <- (appendString_loop_plain l (length l)) at 1 by (lia || exact H).
  rewrite scanString_appendString by lia.
  rewrite appendString_loop_plain by (lia || exact H). reflexivity.
Qed.

Lemma scanString_name name X :
  forallb plain (B name) = true ->
  json.scanString (B name ++ dquote :: X) = Some (B name, X).
Proof.
  intros H. apply scanString_plain. apply Forall_forall. intros b Hb.
  rewrite forallb_forall in H. apply H. apply list_elem_of_In. exact Hb.
Qed.

(** The tree of the cache file that [save] writes. *)
Lemma parse_Marshal_item cc :
  json.parse (Marshal_item {| Credentials := Some cc |})
  = Some (json.VObject
            [(B "Credentials", Marshal_CachedCredentials cc,
              json.VObject
                [(B "AccessKeyId", json.appendString (AccessKeyId cc),
                  json.VString (json.appendString_loop (length (AccessKeyId cc))
                                  (AccessKeyId cc)));
                 (B "SecretAccessKey", json.appendString (SecretAccessKey cc),
                  json.VString (json.appendString_loop (length (SecretAccessKey cc))
                                  (SecretAccessKey cc)));
                 (B "SessionToken", json.appendString (SessionToken cc),
                  json.VString (json.appendString_loop (length (SessionToken cc))
                                  (SessionToken cc)));
                 (B "Expiration", ExpireTime_MarshalJSON (Expiration cc),
                  json.VString
                    (json.appendString_loop (length (time.Format (Expiration cc)))
                       (time.Format (Expiration cc))))])]).
Proof.
  unfold json.parse, Marshal_item. cbn [Credentials].
  set (inner := Marshal_CachedCredentials cc).
  assert (Hinner :
    forall f rest,
      json.parseValue (S (S (S (S (S (S f)))))) 1 (inner ++ B "}" ++ rest)
      = Some (json.VObject
                [(B "AccessKeyId", json.appendString (AccessKeyId cc),
                  json.VString (json.appendString_loop (length (AccessKeyId cc))
                                  (AccessKeyId cc)));
                 (B "SecretAccessKey", json.appendString (SecretAccessKey cc),
                  json.VString (json.appendString_loop (length (SecretAccessKey cc))
                                  (SecretAccessKey cc)));
                 (B "SessionToken", json.appendString (SessionToken cc),
                  json.VString (json.appendString_loop (length (SessionToken cc))
                                  (SessionToken cc)));
                 (B "Expiration", ExpireTime_MarshalJSON (Expiration cc),
                  json.VString
                    (json.appendString_loop (length (time.Format (Expiration cc)))
                       (time.Format (Expiration cc))))], B "}" ++ rest)).
  { intros f rest. subst inner. unfold Marshal_CachedCredentials, json.object.
    cbn [json.join]. rewrite <- !app_assoc.
    rewrite parseValue_object by reflexivity.
    rewrite parseMembers_comma
      by (reflexivity || (intros; apply scanString_name; reflexivity)).
    rewrite parseMembers_comma
      by (reflexivity || (intros; apply scanString_name; reflexivity)).
    rewrite parseMembers_comma
      by (reflexivity || (intros; apply scanString_name; reflexivity)).
    unfold ExpireTime_MarshalJSON.
    rewrite parseMembers_last by (intros; apply scanString_name; reflexivity).
    reflexivity. }
  change (json.skipSpace (json.object [json.member "Credentials" inner]))
    with (B "{" ++ json.member "Credentials" inner ++ B "}").
  set (data := B "{" ++ json.member "Credentials" inner ++ B "}").
  assert (Hlen : (8 <= length data)%nat).
  { subst data. unfold json.member. cbn [length app B list_byte_of_string].
    rewrite !length_app. simpl. lia. }
  destruct (length data) as [|[|[|[|[|[|[|[|n]]]]]]]] eqn:El; try lia.
  cbn [Nat.add]. subst data.
  rewrite parseValue_object by reflexivity.
  replace (B "}") with (B "}" ++ []) by reflexivity.
  erewrite (parseMembers_last_value "Credentials" inner _ []).
  - reflexivity.
  - intros. apply scanString_name. reflexivity.
  - reflexivity.
  - apply Hinner.
Qed.

Ltac eval_keyIs :=
  repeat match goal with
    | |- context [json.keyIs (B ?a) ?b] =>
        let v := eval vm_compute in (json.keyIs (B a) b) in
        change (json.keyIs (B a) b) with v
    end.

Lemma unquote_quoted s :
  utf8.Valid s = true ->
  json.unquote (json.appendString_loop (length s) s) = Some s.
Proof.
  intros H. unfold json.unquote.
  apply (unquote_appendString (length s) s (length s)); [lia|exact H|lia].
Qed.

(** [Unmarshal] reads the item that [Marshal] wrote, for strings of
    well-formed UTF-8 and an expiration in UTC with a year of four digits:
    the strings come back as they were, the expiration to the second. *)
Lemma Unmarshal_Marshal_item cc :
  utf8.Valid (AccessKeyId cc) = true ->
  utf8.Valid (SecretAccessKey cc) = true ->
  utf8.Valid (SessionToken cc) = true ->
  time.offset (Expiration cc) = 0 ->
  0 <= Year (Expiration cc) < 10000 ->
  Unmarshal_item (Marshal_item {| Credentials := Some cc |})
  = inr {| Credentials :=
             Some {| AccessKeyId := AccessKeyId cc;
                     SecretAccessKey := SecretAccessKey cc;
                     SessionToken := SessionToken cc;
                     Expiration :=
                       {| time.unix := time.unix (Expiration cc);
                          time.nsec := 0; time.offset := 0 |} |} |}.
Proof.
  intros Ha Hk Ht Hoff Hyear.
  unfold Unmarshal_item. rewrite parse_Marshal_item.
  cbn [decode_item]. eval_keyIs. cbn iota.
  cbn [decode_CachedCredentials]. eval_keyIs. cbn iota.
  unfold decode_string.
  rewrite (unquote_quoted _ Ha), (unquote_quoted _ Hk), (unquote_quoted _ Ht).
  cbn [AccessKeyId SecretAccessKey SessionToken Expiration].
  unfold ExpireTime_UnmarshalJSON, ExpireTime_MarshalJSON.
  destruct (quoted_Format _ Hyear) as [Hq Htrim].
  rewrite Hq, Htrim, (Parse_Format _ Hoff Hyear).
  reflexivity.
Qed.

(** ** Saving, then loading *)

(** C2, as amended.  After [save] has written credentials whose strings
    are well-formed UTF-8 and whose expiration is a whole second in UTC of
    a year between 0 and 9999, into a cache file that can be read, [Load]
    without [forceRefresh] at any time before that expiration returns
    credentials with the same access key, secret key, session token and
    expiration; it only stats and reads the cache file, and the provider
    is not called. *)
Theorem save_then_Load c creds w p t :
  let w1 := snd (save c creds w) in
  forceRefresh c = false ->
  pathOf c w = Some p ->
  fst (save c creds w) = Ret None ->
  readable (fs w1 !! p) = true ->
  utf8.Valid (aws.AccessKeyID creds) = true ->
  utf8.Valid (aws.SecretAccessKey creds) = true ->
  utf8.Valid (aws.SessionToken creds) = true ->
  time.offset (aws.Expires creds) = 0 ->
  time.nsec (aws.Expires creds) = 0 ->
  0 <= Year (aws.Expires creds) < 10000 ->
  time.After (aws.Expires creds) t = true ->
  exists creds' w2,
    Load c (set_now t w1) = (Ret (creds', None), w2)
    /\ same_credentials creds' creds
    /\ trace w2 = trace w1 ++ [EvStat p; EvReadFile p]
    /\ fs w2 = fs w1.
Proof.
  intros w1 Hf Hp Hsave Hread Ha Hk Ht Hoff Hns Hyear Hafter. subst w1.
  destruct (save_spec c creds w p Hp) as (r & w1 & evs & E & _ & _ & _ & Hh & Hr).
  rewrite E in Hsave, Hread |- *. simpl in Hsave, Hread |- *. injection Hsave as ->.
  destruct Hr as [(_ & _ & rd & Hfs)|(e & [=] & _)].
  rewrite Hfs, lookup_insert_eq in Hread. simpl in Hread.
  destruct rd; [|discriminate Hread].
  assert (Hp1 : pathOf c (set_now t w1) = Some p).
  { unfold pathOf in *. simpl. rewrite Hh. exact Hp. }
  rewrite (Load_cached _ _ Hf), (get_eq _ _ _ Hp1).
  change (fs (set_now t w1)) with (fs w1). rewrite Hfs, lookup_insert_eq.
  cbv zeta. unfold cacheData, cacheItem.
  rewrite Unmarshal_Marshal_item by assumption.
  cbn [Credentials AccessKeyId SecretAccessKey SessionToken Expiration].
  set (creds' := fromCache _).
  assert (Hexp : aws.Expires creds' = aws.Expires creds).
  { subst creds'. simpl. destruct (aws.Expires creds) as [u n o]. simpl in *.
    subst. reflexivity. }
  assert (Hx : aws.Expired creds'
                 (now (log (EvReadFile p) (log (EvStat p) (set_now t w1)))) = false).
  { unfold aws.Expired. change (aws.CanExpire creds') with true.
    rewrite Hexp. simpl. rewrite Hafter. reflexivity. }
  rewrite Hx. simpl.
  eexists _, _. split; [reflexivity|]. split.
  - unfold same_credentials. rewrite Hexp. subst creds'. simpl. auto.
  - split; [simpl; rewrite <- app_assoc; reflexivity|exact Hfs].
Qed.

(** The cache entry written at [ex_now] and read back at once. *)
Lemma save_then_Load_witness :
  exists creds' w2,
    Load (ex_cache false)
      (set_now ex_now (snd (save (ex_cache false) ex_creds (ex_world ex_fs_root ex_now))))
    = (Ret (creds', None), w2)
    /\ same_credentials creds' ex_creds
    /\ trace w2
       = trace (snd (save (ex_cache false) ex_creds (ex_world ex_fs_root ex_now)))
         ++ [EvStat ex_file; EvReadFile ex_file]
    /\ fs w2 = fs (snd (save (ex_cache false) ex_creds (ex_world ex_fs_root ex_now))).
Proof.
  apply (save_then_Load (ex_cache false) ex_creds (ex_world ex_fs_root ex_now)
           ex_file ex_now).
  - reflexivity.
  - apply ex_pathOf.
  - vm_compute. reflexivity.
  - vm_compute. reflexivity.
  - vm_compute. reflexivity.
  - vm_compute. reflexivity.
  - vm_compute. reflexivity.
  - reflexivity.
  - reflexivity.
  - vm_compute. split; [discriminate|reflexivity].
  - vm_compute. reflexivity.
Defined.

(** C2, as stated, fails on credentials that expire half a second after a
    full second: the cache file keeps the full second only, so just
    before the expiration the entry counts as expired; [Load] calls the
    provider and returns other credentials than the saved ones. *)
Lemma save_then_Load_half_second :
  let w := ex_world ex_fs_root ex_expiry in
  let saved := save (ex_cache false) ex_creds_half w in
  let loaded := Load (ex_cache false) (snd saved) in
  time.After (aws.Expires ex_creds_half) (now (snd saved)) = true
  /\ fst saved = Ret None
  /\ fst loaded = Ret (ex_fresh, None)
  /\ retrieved (snd loaded) = true.
Proof. vm_compute. repeat split. Qed.

(** Nor does a string that is not UTF-8 come back as it was: each byte
    that is not part of a well-formed sequence is read back as U+FFFD. *)
Lemma save_then_Load_binary :
  let w := ex_world ex_fs_root ex_now in
  let saved := save (ex_cache false) ex_creds_binary w in
  let loaded := Load (ex_cache false) (snd saved) in
  fst saved = Ret None
  /\ retrieved (snd loaded) = false
  /\ (aws.SessionToken <$> (match fst loaded with Ret (c, _) => Some c | _ => None end))
     = Some [x74; xef; xbf; xbd].
Proof. vm_compute. repeat split. Qed.

(** ** The cache key *)

(** *** The replacements on tame fields *)

(** [Replace] with an [old] of two bytes is [replace2]. *)
Lemma Replace_loop_two a b new : forall fuel s,
  (length s <= fuel)%nat -> Replace_loop fuel s [a; b] new = replace2 a b new s.
Proof.
  induction fuel as [|fuel IH]; intros s Hs.
  - destruct s; [reflexivity|simpl in Hs; lia].
  - destruct s as [|c t]; [reflexivity|].
    cbn [Replace_loop HasPrefix replace2].
    destruct (decide (a = c)) as [->|Hc].
    + destruct t as [|d t'].
      * destruct fuel; reflexivity.
      * cbn [HasPrefix]. destruct (decide (b = d)) as [->|Hd].
        -- replace (HasPrefix t' []) with true by (destruct t'; reflexivity).
           cbn [length skipn]. f_equal. apply IH. simpl in Hs. lia.
        -- f_equal. apply IH. simpl in *. lia.
    + f_equal. apply IH. simpl in Hs. lia.
Qed.

Lemma Replace_two a b new s : Replace s [a; b] new = replace2 a b new s.
Proof. apply Replace_loop_two. lia. Qed.

(** Text without the first byte of [old] passes through. *)
Lemma replace2_pass a b new e X :
  Forall (fun c => c <> a) e ->
  replace2 a b new (e ++ X) = e ++ replace2 a b new X.
Proof.
  induction 1 as [|c e Hc _ IH]; [reflexivity|].
  cbn [app replace2]. destruct (decide (a = c)) as [->|_]; [congruence|].
  now rewrite IH.
Qed.

(** So does text without the second byte of [old] that does not end with
    the first, in front of the second. *)
Lemma replace2_pass_last a b new e X :
  Forall (fun c => c <> b) e -> last e <> Some a ->
  replace2 a b new (e ++ b :: X) = e ++ replace2 a b new (b :: X).
Proof.
  induction 1 as [|c e Hc He IH]; intros Hl; [reflexivity|].
  assert (Hl' : last e <> Some a) by (destruct e; [discriminate|exact Hl]).
  change ((c :: e) ++ b :: X) with (c :: (e ++ b :: X)).
  cbn [replace2]. destruct (decide (a = c)) as [->|_].
  - destruct e as [|d e]; [now contradiction Hl|].
    inversion He as [|? ? Hd _]; subst.
    cbn [app]. destruct (decide (b = d)) as [->|_]; [congruence|].
    cbn [app] in IH. now rewrite IH.
  - now rewrite IH.
Qed.

Lemma replace2_skip a b new c X :
  c <> a -> replace2 a b new (c :: X) = c :: replace2 a b new X.
Proof.
  intros H. cbn [replace2]. destruct (decide (a = c)) as [->|_]; congruence.
Qed.

Lemma replace2_no a b new Y :
  head Y <> Some b -> replace2 a b new (a :: Y) = a :: replace2 a b new Y.
Proof.
  intros H. cbn [replace2]. rewrite decide_True by reflexivity.
  destruct Y as [|d Y]; [reflexivity|].
  destruct (decide (b = d)) as [->|_]; [now contradiction H|reflexivity].
Qed.

Lemma replace2_yes a b new Y :
  replace2 a b new (a :: b :: Y) = new ++ replace2 a b new Y.
Proof. cbn [replace2]. now rewrite !decide_True by reflexivity. Qed.

Lemma join_cons sep x l : json.join sep (x :: l) = x ++ flat sep l.
Proof.
  revert x. induction l as [|y l IH]; intros x.
  - simpl. now rewrite app_nil_r.
  - change (json.join sep (x :: y :: l)) with (x ++ sep ++ json.join sep (y :: l)).
    rewrite IH. unfold flat. simpl. now rewrite <- !app_assoc.
Qed.

Lemma plain_not_quote b : plain b = true -> b <> dquote.
Proof. intros H ->. vm_compute in H. discriminate. Qed.

Lemma tame_no_quote s : tame s -> Forall (fun c => c <> dquote) s.
Proof.
  intros [H _]. eapply Forall_impl; [exact H|]. apply plain_not_quote.
Qed.

Lemma inert_no_quote l : Forall inert l -> Forall (fun c => c <> dquote) l.
Proof. intros H. eapply Forall_impl; [exact H|]. now intros ? []. Qed.

Lemma inert_no_comma l : Forall inert l -> Forall (fun c => c <> x2c) l.
Proof. intros H. eapply Forall_impl; [exact H|]. now intros ? []. Qed.

Lemma head_app_ne (l X : gostring) (c d : byte) :
  head l <> Some c -> d <> c -> head (l ++ d :: X) <> Some c.
Proof. destruct l; simpl; congruence. Qed.

(** The first replacement puts one space after the colon of a member. *)
Lemma colons_member n v X :
  okname n -> okvalue v -> head X <> Some x3a ->
  colons (json.member n v ++ X) = spec_member n v ++ colons X.
Proof.
  intros [Hn Hh] Hv HX. unfold json.member, spec_member, colons.
  change (B ":") with [x3a]. change (B ": ") with [x3a; x20].
  cbn [app]. rewrite <- !app_assoc. cbn [app].
  rewrite replace2_no by (apply head_app_ne; [exact Hh|discriminate]).
  f_equal. rewrite replace2_pass by (now apply inert_no_quote). f_equal.
  rewrite replace2_yes. cbn [app]. do 3 f_equal.
  destruct Hv as [v Hv|s Hs].
  - now rewrite replace2_pass by (now apply inert_no_quote).
  - cbn [app]. rewrite <- !app_assoc. cbn [app].
    rewrite replace2_no by (apply head_app_ne; [apply Hs|discriminate]).
    rewrite replace2_pass by (now apply tame_no_quote).
    now rewrite replace2_no by exact HX.
Qed.

(** The second replacement leaves a member as it is. *)
Lemma commas_member n v X :
  okname n -> okvalue v ->
  commas (B n ++ dquote :: B ": " ++ v ++ X) = B n ++ dquote :: B ": " ++ v ++ commas X.
Proof.
  intros [Hn Hh] Hv. unfold commas.
  change (B ": ") with [x3a; x20]. cbn [app].
  rewrite replace2_pass by (now apply inert_no_comma). f_equal.
  rewrite !replace2_skip by discriminate. do 3 f_equal.
  destruct Hv as [v Hv|s Hs].
  - now rewrite replace2_pass by (now apply inert_no_comma).
  - cbn [app]. rewrite <- !app_assoc. cbn [app].
    rewrite replace2_skip by discriminate. f_equal.
    rewrite replace2_pass_last by (first [now apply tame_no_quote|apply Hs]).
    now rewrite replace2_skip by discriminate.
Qed.

Lemma flat_cons sep x l Z : flat sep (x :: l) ++ Z = sep ++ x ++ flat sep l ++ Z.
Proof. unfold flat. cbn [map concat]. now rewrite <- !app_assoc. Qed.

Lemma colons_skip c X : c <> dquote -> colons (c :: X) = c :: colons X.
Proof. apply replace2_skip. Qed.

Lemma commas_skip c X : c <> x2c -> commas (c :: X) = c :: commas X.
Proof. apply replace2_skip. Qed.

Lemma commas_yes X : commas (x2c :: dquote :: X) = x2c :: x20 :: dquote :: commas X.
Proof. apply (replace2_yes x2c dquote). Qed.

Lemma colons_code_member f X :
  okfield f -> head X <> Some x3a -> colons (code_member f ++ X) = text_member f ++ colons X.
Proof. intros [Hn Hv] HX. now apply colons_member. Qed.

Lemma commas_member_tail f X :
  okfield f -> commas (member_tail f ++ X) = member_tail f ++ commas X.
Proof.
  intros [Hn Hv]. unfold member_tail. rewrite <- !app_assoc. cbn [app].
  rewrite <- !app_assoc. now apply commas_member.
Qed.

Lemma text_member_eq f : text_member f = dquote :: member_tail f.
Proof. reflexivity. Qed.

Lemma head_flat l :
  head (flat (B ",") l ++ B "}") <> Some x3a.
Proof. destruct l; discriminate. Qed.

Lemma colons_flat fs :
  Forall okfield fs ->
  colons (flat (B ",") (map code_member fs) ++ B "}")
  = flat (B ",") (map text_member fs) ++ B "}".
Proof.
  induction 1 as [|f fs Hf _ IH]; [reflexivity|].
  cbn [map]. rewrite !flat_cons.
  change (B "," ++ ?l) with (x2c :: l).
  rewrite colons_skip by discriminate.
  rewrite colons_code_member by (first [exact Hf|apply head_flat]).
  now rewrite IH.
Qed.

Lemma colons_object fs :
  Forall okfield fs ->
  colons (json.object (map code_member fs))
  = B "{" ++ json.join (B ",") (map text_member fs) ++ B "}".
Proof.
  intros H. unfold json.object. destruct H as [|f fs Hf H]; [reflexivity|].
  cbn [map]. rewrite !join_cons. change (B "{" ++ ?l) with (x7b :: l).
  rewrite colons_skip by discriminate. rewrite <- !app_assoc.
  rewrite colons_code_member by (first [exact Hf|apply head_flat]).
  now rewrite colons_flat.
Qed.

Lemma commas_flat fs :
  Forall okfield fs ->
  commas (flat (B ",") (map text_member fs) ++ B "}")
  = flat (B ", ") (map text_member fs) ++ B "}".
Proof.
  induction 1 as [|f fs Hf _ IH]; [reflexivity|].
  cbn [map]. rewrite !flat_cons, text_member_eq.
  change (B "," ++ ?l) with (x2c :: l). change (B ", " ++ ?l) with (x2c :: x20 :: l).
  cbn [app]. rewrite commas_yes, commas_member_tail by exact Hf.
  now rewrite IH.
Qed.

Lemma commas_object fs :
  Forall okfield fs ->
  commas (B "{" ++ json.join (B ",") (map text_member fs) ++ B "}")
  = B "{" ++ json.join (B ", ") (map text_member fs) ++ B "}".
Proof.
  intros H. destruct H as [|f fs Hf H]; [reflexivity|].
  cbn [map]. rewrite !join_cons, text_member_eq.
  change (B "{" ++ ?l) with (x7b :: l). cbn [app].
  rewrite !commas_skip by discriminate. rewrite <- !app_assoc.
  rewrite commas_member_tail by exact Hf.
  now rewrite commas_flat.
Qed.

(** A number is printed with digits and a sign. *)
Lemma uint_inert d :
  Forall inert (list_byte_of_string (NilEmpty.string_of_uint d)).
Proof.
  induction d; cbn [NilEmpty.string_of_uint]; [constructor|..];
    (constructor; [split; discriminate|assumption]).
Qed.

Lemma FormatInt_inert z : Forall inert (FormatInt z).
Proof.
  assert (H : forall d, Forall inert (list_byte_of_string (NilZero.string_of_uint d))).
  { intros d. pose proof (uint_inert d) as H.
    destruct d; try exact H. repeat constructor; discriminate. }
  unfold FormatInt. destruct (Z.to_int z) as [d|d]; cbn [NilZero.string_of_int].
  - apply H.
  - constructor; [split; discriminate|apply H].
Qed.

Lemma okname_fields :
  okname "DurationSeconds" /\ okname "ExternalId" /\ okname "RoleArn"
  /\ okname "SerialNumber".
Proof.
  unfold okname, inert. repeat split;
    first [discriminate | repeat (constructor; [split; discriminate|]); constructor].
Qed.

Lemma appendString_tame s : tame s -> okvalue (json.appendString s).
Proof.
  intros H. rewrite appendString_plain by apply H. now constructor.
Qed.

Lemma fields_ok v :
  tame (ExternalId v) -> tame (RoleArn v) -> tame (SerialNumber v) ->
  Forall okfield (fields v).
Proof.
  intros He Hr Hs. destruct okname_fields as (Nd & Ne & Nr & Ns).
  unfold fields. rewrite !Forall_app. repeat split.
  - destruct (DurationSeconds v =? 0); [constructor|].
    constructor; [|constructor]. split; [exact Nd|].
    apply ok_number, FormatInt_inert.
  - pose proof (appendString_tame _ He).
    destruct (ExternalId v); [constructor|]. constructor; [|constructor]. now split.
  - pose proof (appendString_tame _ Hr).
    destruct (RoleArn v); [constructor|]. constructor; [|constructor]. now split.
  - pose proof (appendString_tame _ Hs).
    destruct (SerialNumber v); [constructor|]. constructor; [|constructor]. now split.
Qed.

Lemma Marshal_fields v :
  Marshal_cacheKey v = json.object (map code_member (fields v)).
Proof.
  unfold Marshal_cacheKey, fields, omitempty_int, omitempty_string.
  rewrite !map_app.
  destruct (DurationSeconds v =? 0), (ExternalId v), (RoleArn v), (SerialNumber v);
    reflexivity.
Qed.

Lemma spec_fields v :
  spec_blobStr v = B "{" ++ json.join (B ", ") (map text_member (fields v)) ++ B "}".
Proof.
  unfold spec_blobStr, fields, spec_int, spec_string.
  rewrite !map_app.
  destruct (DurationSeconds v =? 0), (ExternalId v), (RoleArn v), (SerialNumber v);
    reflexivity.
Qed.

(** Where the string fields are tame the program hashes the text of the
    specification, and the two keys are one. *)
Lemma cacheKey_tame v :
  tame (ExternalId v) -> tame (RoleArn v) -> tame (SerialNumber v) ->
  cacheKey_blobStr v = spec_blobStr v /\ cacheKey_String v = spec_cacheKey v.
Proof.
  intros He Hr Hs.
  assert (H : cacheKey_blobStr v = spec_blobStr v).
  { unfold cacheKey_blobStr.
    change (dquote :: B ":") with [dquote; x3a].
    change (B "," ++ [dquote]) with [x2c; dquote].
    rewrite !Replace_two. fold colons commas.
    pose proof (fields_ok v He Hr Hs) as Hok.
    rewrite Marshal_fields, colons_object, commas_object by exact Hok.
    symmetry. apply spec_fields. }
  split; [exact H|]. unfold cacheKey_String, spec_cacheKey. now rewrite H.
Qed.

Lemma cacheKey_tame_example :
  tame (ExternalId ex_key) /\ tame (RoleArn ex_key) /\ tame (SerialNumber ex_key)
  /\ cacheKey_String ex_key = spec_cacheKey ex_key.
Proof.
  assert (He : tame (ExternalId ex_key))
    by (apply (bool_decide_eq_true_1 _); vm_compute; reflexivity).
  assert (Hr : tame (RoleArn ex_key))
    by (apply (bool_decide_eq_true_1 _); vm_compute; reflexivity).
  assert (Hs : tame (SerialNumber ex_key))
    by (apply (bool_decide_eq_true_1 _); vm_compute; reflexivity).
  split; [exact He|]. split; [exact Hr|]. split; [exact Hs|].
  apply (cacheKey_tame ex_key He Hr Hs).
Qed.


(** The golden vector of the specification: the key of the role
    [arn:aws:iam::123456789012:role/test] for 3600 seconds is the SHA-1 of
    the text with one space after each colon and comma of the object. *)
Lemma cacheKey_golden :
  cacheKey_blobStr ex_key
  = B "{" ++ dquote :: B "DurationSeconds" ++ dquote :: B ": 3600, " ++ dquote
      :: B "RoleArn" ++ dquote :: B ": " ++ dquote
      :: B "arn:aws:iam::123456789012:role/test" ++ dquote :: B "}"
  /\ cacheKey_String ex_key = spec_cacheKey ex_key
  /\ cacheKey_String ex_key = B "2406977efcd34aedebf28077bc5185203cfc6da2".
Proof. vm_compute. repeat split. Qed.

(** Fields that are empty are left out, not written as empty strings. *)
Lemma cacheKey_omits_empty_fields :
  Marshal_cacheKey
    {| DurationSeconds := 0; ExternalId := []; RoleArn := B "r"; SerialNumber := [] |}
  = B "{" ++ dquote :: B "RoleArn" ++ dquote :: B ":" ++ dquote :: B "r" ++ dquote :: B "}"
  /\ Marshal_cacheKey
       {| DurationSeconds := 0; ExternalId := []; RoleArn := []; SerialNumber := [] |}
     = B "{}".
Proof. vm_compute. repeat split. Qed.

(** C1 at an external id that ends with a comma.  The text that the
    program hashes has a space inside the value of [ExternalId], between
    its comma and its closing quote, where the derivation of the
    specification has none; the two keys differ. *)
Theorem cacheKey_comma_divergence :
  cacheKey_blobStr ex_key_comma
  = B "{" ++ dquote :: B "DurationSeconds" ++ dquote :: B ": 3600, " ++ dquote
      :: B "ExternalId" ++ dquote :: B ": " ++ dquote :: B "a, " ++ dquote :: B ", "
      ++ dquote :: B "RoleArn" ++ dquote :: B ": " ++ dquote
      :: B "arn:aws:iam::123456789012:role/test" ++ dquote :: B "}"
  /\ spec_blobStr ex_key_comma
     = B "{" ++ dquote :: B "DurationSeconds" ++ dquote :: B ": 3600, " ++ dquote
         :: B "ExternalId" ++ dquote :: B ": " ++ dquote :: B "a," ++ dquote :: B ", "
         ++ dquote :: B "RoleArn" ++ dquote :: B ": " ++ dquote
         :: B "arn:aws:iam::123456789012:role/test" ++ dquote :: B "}"
  /\ cacheKey_String ex_key_comma = B "4e91d96c5c98976cf7a20ca3b050772066499a19"
  /\ spec_cacheKey ex_key_comma = B "894004721770a911b56de54e8edeaf769ad42f92".
Proof. vm_compute. repeat split. Qed.

(** The same happens after the opening quote of a value that starts with
    a colon. *)
Lemma cacheKey_colon_divergence :
  cacheKey_blobStr ex_key_colon
  = B "{" ++ dquote :: B "ExternalId" ++ dquote :: B ": " ++ dquote :: B ": a" ++ dquote
      :: B ", " ++ dquote :: B "RoleArn" ++ dquote :: B ": " ++ dquote
      :: B "arn:aws:iam::123456789012:role/test" ++ dquote :: B "}"
  /\ bool_decide (cacheKey_String ex_key_colon = spec_cacheKey ex_key_colon) = false.
Proof. vm_compute. repeat split. Qed.
(** * More of [main.go]: properties *)

(** ** The name and the place of the cache file *)

Lemma Sum_length msg : length (SHA1.Sum msg) = 20%nat.
Proof.
  unfold SHA1.Sum. destruct (SHA1.blocks _ _ _). reflexivity.
Qed.

Lemma hexdigit_in n : In (hexdigit n) hextable.
Proof.
  unfold hexdigit.
  destruct (Nat.lt_ge_cases (Z.to_nat n) (length hextable)) as [H|H].
  - now apply nth_In.
  - rewrite nth_overflow by exact H. vm_compute. auto.
Qed.

Lemma EncodeToString_length s : length (EncodeToString s) = (2 * length s)%nat.
Proof. induction s as [|b s IH]; [reflexivity|]. cbn [EncodeToString length]. lia. Qed.

Lemma EncodeToString_hex s : Forall (fun b => In b hextable) (EncodeToString s).
Proof.
  induction s as [|b s IH]; [constructor|].
  cbn [EncodeToString].
  constructor; [apply hexdigit_in|constructor; [apply hexdigit_in|exact IH]].
Qed.

Lemma lower_hex b : In b hextable -> lower_byte b = b.
Proof.
  intros H. vm_compute in H.
  repeat (destruct H as [<-|H]; [reflexivity|]). destruct H.
Qed.

Lemma ToLower_hex s : Forall (fun b => In b hextable) s -> ToLower s = s.
Proof.
  induction 1 as [|b s Hb _ IH]; [reflexivity|].
  unfold ToLower in *. cbn [map]. now rewrite IH, lower_hex.
Qed.

Lemma cacheKey_String_hex v :
  cacheKey_String v = EncodeToString (SHA1.Sum (cacheKey_blobStr v))
  /\ length (cacheKey_String v) = 40%nat
  /\ Forall (fun b => In b hextable) (cacheKey_String v).
Proof.
  assert (H : cacheKey_String v = EncodeToString (SHA1.Sum (cacheKey_blobStr v)))
    by (apply ToLower_hex, EncodeToString_hex).
  rewrite H. split; [reflexivity|]. split; [|apply EncodeToString_hex].
  now rewrite EncodeToString_length, Sum_length.
Qed.




(** ** [get] and the cache hit *)

(** X2.  [get] only looks: it leaves the file system, the clock and the
    home directory as they are, and all it does is stat and read. *)
Theorem get_reads_only c w :
  fs (snd (get c w)) = fs w
  /\ now (snd (get c w)) = now w
  /\ home (snd (get c w)) = home w
  /\ exists evs,
      trace (snd (get c w)) = trace w ++ evs
      /\ Forall (fun e => lookup_event e = true) evs.
Proof.
  destruct (pathOf c w) as [p|] eqn:Hp.
  - rewrite (get_eq c w p Hp).
    destruct (fs w !! p) as [[wr|[] wr data]|]; cbn [snd];
      try destruct (Unmarshal_item data) as [e|[[cc|]]];
      cbn [Credentials snd fs now home trace log];
      (split; [reflexivity|split; [reflexivity|split; [reflexivity|]]]);
      solve [ exists [EvStat p]; split; [reflexivity|repeat constructor]
            | exists [EvStat p; EvReadFile p]; split;
              [now rewrite <- app_assoc|repeat constructor] ].
  - unfold get. unfold mbind, M_bind. rewrite cachePath_pathOf, Hp. cbn [snd].
    split; [reflexivity|split; [reflexivity|split; [reflexivity|]]].
    exists []. split; [now rewrite app_nil_r|constructor].
Qed.


(** Valid JSON that leaves the [Credentials] pointer nil. *)
Lemma Unmarshal_item_nil :
  Unmarshal_item (B "{}") = inr {| Credentials := None |}
  /\ Unmarshal_item (B "null") = inr {| Credentials := None |}
  /\ Unmarshal_item (B "{" ++ dquote :: B "Credentials" ++ dquote :: B ": null}")
     = inr {| Credentials := None |}
  /\ Unmarshal_item (B "{" ++ dquote :: B "ProviderType" ++ dquote :: B ": 1}")
     = inr {| Credentials := None |}.
Proof. repeat split; vm_compute; reflexivity. Qed.

(** X3.  A cache file that holds JSON without a [Credentials] object
    leaves the pointer nil, and [get] dereferences it: [Load] without
    [forceRefresh] panics as soon as the file is read; the provider is not
    called and the file stays as it is. *)
Theorem Load_nil_Credentials_panics c w p wr data :
  forceRefresh c = false ->
  pathOf c w = Some p ->
  fs w !! p = Some (File true wr data) ->
  Unmarshal_item data = inr {| Credentials := None |} ->
  Load c w = (Panic, log (EvReadFile p) (log (EvStat p) w)).
Proof.
  intros Hf Hp Hfile Hdata.
  rewrite (Load_cached c w Hf), (get_eq c w p Hp), Hfile, Hdata. reflexivity.
Qed.

Lemma Load_nil_Credentials_panics_witness :
  Load (ex_cache false) (ex_world ex_fs_empty_object ex_now)
  = (Panic,
     log (EvReadFile ex_file) (log (EvStat ex_file) (ex_world ex_fs_empty_object ex_now))).
Proof.
  apply (Load_nil_Credentials_panics (ex_cache false)
           (ex_world ex_fs_empty_object ex_now) ex_file true (B "{}")).
  - reflexivity.
  - apply ex_pathOf.
  - vm_compute. reflexivity.
  - vm_compute. reflexivity.
Defined.

(** X4.  The cache hit.  Without [forceRefresh], a readable cache file
    whose entry expires after the current time is returned as it is read,
    marked as expiring and without a source; the provider is not called
    and nothing is written, however close the expiration is. *)
Theorem Load_cache_hit c w p wr data cc :
  forceRefresh c = false ->
  pathOf c w = Some p ->
  fs w !! p = Some (File true wr data) ->
  Unmarshal_item data = inr {| Credentials := Some cc |} ->
  time.After (Expiration cc) (now w) = true ->
  Load c w
  = (Ret ({| aws.AccessKeyID := AccessKeyId cc;
             aws.SecretAccessKey := SecretAccessKey cc;
             aws.SessionToken := SessionToken cc;
             aws.Source := [];
             aws.CanExpire := true;
             aws.Expires := Expiration cc |}, None),
     log (EvReadFile p) (log (EvStat p) w)).
Proof.
  intros Hf Hp Hfile Hdata Hafter.
  rewrite (Load_cached c w Hf), (get_eq c w p Hp), Hfile, Hdata.
  cbn [Credentials now log]. unfold aws.Expired, fromCache. cbn [aws.CanExpire aws.Expires].
  rewrite Hafter. reflexivity.
Qed.

Lemma Load_no_path c w :
  fullPath c = [] ->
  home w = None ->
  Load c w
  = if forceRefresh c then
      match snd (provider c) with
      | Some msg => (Ret (fst (provider c), Some (errUpstream msg)), log EvRetrieve w)
      | None => (Fatal FatalUser, log EvRetrieve w)
      end
    else (Fatal FatalUser, w).
Proof.
  intros Hfull Hhome.
  assert (Hp : forall w', home w' = None -> pathOf c w' = None).
  { intros w' H. unfold pathOf. now rewrite Hfull, H. }
  destruct (forceRefresh c) eqn:Hf.
  - rewrite (Load_forced c w Hf), refresh_eq.
    destruct (snd (provider c)); [reflexivity|].
    unfold save, mbind, M_bind. rewrite cachePath_pathOf, Hp by exact Hhome.
    reflexivity.
  - rewrite (Load_cached c w Hf).
    unfold get, mbind, M_bind. rewrite cachePath_pathOf, Hp by exact Hhome.
    reflexivity.
Qed.

(** X5.  When the current user cannot be determined, [Load] ends the
    process: at once without [forceRefresh], and with it only after the
    provider was called, whose credentials are lost (unless the provider
    failed, and then its error is returned). *)
Theorem Load_without_user c w :
  fullPath c = [] ->
  home w = None ->
  Load c w
  = if forceRefresh c then
      match snd (provider c) with
      | Some msg => (Ret (fst (provider c), Some (errUpstream msg)), log EvRetrieve w)
      | None => (Fatal FatalUser, log EvRetrieve w)
      end
    else (Fatal FatalUser, w).
Proof. apply Load_no_path. Qed.

Lemma Load_without_user_witness :
  Load (ex_cache true)
    {| fs := ex_fs_home; now := ex_now; home := None; trace := [] |}
  = (Fatal FatalUser,
     log EvRetrieve {| fs := ex_fs_home; now := ex_now; home := None; trace := [] |}).
Proof.
  apply (Load_without_user (ex_cache true)
           {| fs := ex_fs_home; now := ex_now; home := None; trace := [] |});
    reflexivity.
Defined.

Lemma Load_cache_hit_witness :
  Load (ex_cache false) (ex_world ex_fs_cached ex_now)
  = (Ret ({| aws.AccessKeyID := B "ASIAEXAMPLE";
             aws.SecretAccessKey := B "secret/key+1";
             aws.SessionToken := B "token";
             aws.Source := [];
             aws.CanExpire := true;
             aws.Expires := ex_expiry |}, None),
     log (EvReadFile ex_file) (log (EvStat ex_file) (ex_world ex_fs_cached ex_now))).
Proof.
  apply (Load_cache_hit (ex_cache false) (ex_world ex_fs_cached ex_now) ex_file true
           (cacheData ex_creds)
           {| AccessKeyId := B "ASIAEXAMPLE"; SecretAccessKey := B "secret/key+1";
              SessionToken := B "token"; Expiration := ex_expiry |}).
  - reflexivity.
  - apply ex_pathOf.
  - vm_compute. reflexivity.
  - vm_compute. reflexivity.
  - reflexivity.
Defined.


(** ** What [Load] does, in order *)

Lemma save_trace c creds w p :
  pathOf c w = Some p ->
  exists saves,
    trace (snd (save c creds w)) = trace w ++ saves
    /\ Forall (fun e => save_event p (cacheData creds) e = true) saves.
Proof.
  intros Hp. rewrite (save_eq c creds w p Hp).
  assert (Hd : bool_decide (Dir p = Dir p) = true) by now apply bool_decide_eq_true_2.
  assert (Hw : save_event p (cacheData creds) (EvWriteFile p (cacheData creds)) = true).
  { cbn [save_event]. now rewrite !bool_decide_eq_true_2. }
  destruct (fs w !! Dir p) as [[d|r wr data]|].
  - exists [EvStat (Dir p); EvMkdirAll (Dir p); EvWriteFile p (cacheData creds)].
    rewrite write_step_trace. cbn [trace log]. split.
    + now rewrite <- !app_assoc.
    + repeat (constructor; [first [exact Hd|exact Hw]|]). constructor.
  - exists [EvStat (Dir p); EvMkdirAll (Dir p)]. cbn [snd trace log]. split.
    + now rewrite <- !app_assoc.
    + repeat (constructor; [exact Hd|]). constructor.
  - exists [EvStat (Dir p); EvWriteFile p (cacheData creds)].
    rewrite write_step_trace. cbn [trace log]. split.
    + now rewrite <- !app_assoc.
    + repeat (constructor; [first [exact Hd|exact Hw]|]). constructor.
Qed.

Lemma refresh_trace c w p :
  pathOf c w = Some p ->
  exists saves,
    trace (snd (refresh c w)) = trace w ++ EvRetrieve :: saves
    /\ Forall (fun e => save_event p (cacheData (fst (provider c))) e = true) saves
    /\ (snd (provider c) <> None -> saves = []).
Proof.
  intros Hp. rewrite refresh_eq.
  destruct (snd (provider c)) as [msg|] eqn:Hprov.
  - exists []. cbn [snd trace log]. repeat split; constructor.
  - assert (Hp' : pathOf c (log EvRetrieve w) = Some p) by now rewrite pathOf_log.
    destruct (save_trace c (fst (provider c)) (log EvRetrieve w) p Hp')
      as (saves & Ht & Hs).
    exists saves. split; [|split; [exact Hs|congruence]].
    destruct (save c (fst (provider c)) (log EvRetrieve w)) as [[r|f|] w'];
      cbn [snd] in *; rewrite Ht; cbn [trace log]; now rewrite <- app_assoc.
Qed.

Lemma Load_trace_shape c w p :
  pathOf c w = Some p ->
  exists looks rest,
    trace (snd (Load c w)) = trace w ++ looks ++ rest
    /\ Forall (fun e => reads p e = true) looks
    /\ (forceRefresh c = true -> looks = [])
    /\ (rest = []
        \/ exists saves,
             rest = EvRetrieve :: saves
             /\ Forall (fun e => save_event p (cacheData (fst (provider c))) e = true)
                  saves
             /\ (snd (provider c) <> None -> saves = [])).
Proof.
  intros Hp.
  assert (Hr : forall w1 looks,
             pathOf c w1 = Some p -> trace w1 = trace w ++ looks ->
             exists rest,
               trace (snd (refresh c w1)) = trace w ++ looks ++ rest
               /\ (rest = []
                   \/ exists saves,
                        rest = EvRetrieve :: saves
                        /\ Forall (fun e => save_event p (cacheData (fst (provider c))) e
                                            = true) saves
                        /\ (snd (provider c) <> None -> saves = []))).
  { intros w1 looks Hp1 Ht.
    destruct (refresh_trace c w1 p Hp1) as (saves & Hs & Hall & Hnone).
    exists (EvRetrieve :: saves). split.
    - now rewrite Hs, Ht, <- app_assoc.
    - right. now exists saves. }
  assert (Hsp : reads p (EvStat p) = true) by (cbn; now apply bool_decide_eq_true_2).
  assert (Hrp : reads p (EvReadFile p) = true) by (cbn; now apply bool_decide_eq_true_2).
  destruct (forceRefresh c) eqn:Hf.
  - rewrite (Load_forced c w Hf).
    destruct (Hr w [] Hp) as (rest & Ht & Hrest); [now rewrite app_nil_r|].
    exists [], rest. repeat split; [exact Ht|constructor|exact Hrest].
  - rewrite (Load_cached c w Hf), (get_eq c w p Hp).
    set (w1 := log (EvStat p) w). set (w2 := log (EvReadFile p) w1).
    assert (H1 : trace w1 = trace w ++ [EvStat p]) by reflexivity.
    assert (H2 : trace w2 = trace w ++ [EvStat p; EvReadFile p])
      by (subst w2 w1; cbn [trace log]; now rewrite <- app_assoc).
    assert (P1 : pathOf c w1 = Some p) by (subst w1; now rewrite pathOf_log).
    assert (P2 : pathOf c w2 = Some p) by (subst w2; now rewrite pathOf_log).
    assert (L1 : Forall (fun e => reads p e = true) [EvStat p]) by now repeat constructor.
    assert (L2 : Forall (fun e => reads p e = true) [EvStat p; EvReadFile p])
      by now repeat constructor.
    destruct (fs w !! p) as [[d|[] wr data]|]; cbv zeta.
    + cbn [bool_decide andb]. destruct (Hr w2 _ P2 H2) as (rest & Ht & Hrest).
      exists [EvStat p; EvReadFile p], rest. now repeat split.
    + destruct (Unmarshal_item data) as [e|[[cc|]]].
      * destruct (Hr w2 _ P2 H2) as (rest & Ht & Hrest).
        exists [EvStat p; EvReadFile p], rest. now repeat split.
      * cbn [Credentials].
        destruct (bool_decide (@None error = None)
                  && negb (aws.Expired (fromCache cc) (now w2))).
        -- exists [EvStat p; EvReadFile p], []. cbn [snd]. rewrite app_nil_r.
           repeat split; [exact H2|exact L2|discriminate|now left].
        -- destruct (Hr w2 _ P2 H2) as (rest & Ht & Hrest).
           exists [EvStat p; EvReadFile p], rest. now repeat split.
      * exists [EvStat p; EvReadFile p], []. cbn [Credentials snd]. rewrite app_nil_r.
        repeat split; [exact H2|exact L2|discriminate|now left].
    + destruct (Hr w2 _ P2 H2) as (rest & Ht & Hrest).
      exists [EvStat p; EvReadFile p], rest. now repeat split.
    + destruct (Hr w1 _ P1 H1) as (rest & Ht & Hrest).
      exists [EvStat p], rest. now repeat split.
Qed.

(** X6.  The order of what [Load] does: it first looks at the cache file
    (a stat, then perhaps a read), and then either stops or calls the
    provider, once; only after that call does it run the steps of [save],
    which are a stat and perhaps a [MkdirAll] of the cache root and the
    write of the provider's credentials to the cache file, and none of
    them when the provider failed. *)
Theorem Load_steps c w p :
  pathOf c w = Some p ->
  exists looks rest,
    trace (snd (Load c w)) = trace w ++ looks ++ rest
    /\ Forall (fun e => reads p e = true) looks
    /\ (forceRefresh c = true -> looks = [])
    /\ (rest = []
        \/ exists saves,
             rest = EvRetrieve :: saves
             /\ Forall (fun e => save_event p (cacheData (fst (provider c))) e = true)
                  saves
             /\ (snd (provider c) <> None -> saves = [])).
Proof. apply Load_trace_shape. Qed.

Lemma Load_steps_witness :
  exists looks rest,
    trace (snd (Load (ex_cache false) (ex_world ex_fs_root ex_now)))
    = [] ++ looks ++ rest
    /\ Forall (fun e => reads ex_file e = true) looks
    /\ (false = true -> looks = [])
    /\ (rest = []
        \/ exists saves,
             rest = EvRetrieve :: saves
             /\ Forall (fun e => save_event ex_file (cacheData ex_fresh) e = true) saves
             /\ (@None gostring <> None -> saves = [])).
Proof.
  apply (Load_steps (ex_cache false) (ex_world ex_fs_root ex_now) ex_file).
  apply ex_pathOf.
Defined.


(** ** [save] and the file system *)

(** X7.  [save] succeeds exactly when the cache file can be written, and
    then the file system is the one before with the cache file holding the
    new entry, in mode 0600 if the file is new and in its own mode
    otherwise; when [save] fails the file system is as before.  No other
    path is ever touched. *)
Theorem save_outcome c creds w p :
  pathOf c w = Some p ->
  (fst (save c creds w) = Ret None <-> can_save (fs w) p = true)
  /\ fs (snd (save c creds w))
     = (if can_save (fs w) p
        then <[p := File (readable_after (fs w !! p)) true (cacheData creds)]> (fs w)
        else fs w)
  /\ forall q, q <> p -> fs (snd (save c creds w)) !! q = fs w !! q.
Proof. apply save_result. Qed.

Lemma save_outcome_witness :
  (fst (save (ex_cache false) ex_creds (ex_world ex_fs_root ex_now)) = Ret None
   <-> can_save ex_fs_root ex_file = true)
  /\ fs (snd (save (ex_cache false) ex_creds (ex_world ex_fs_root ex_now)))
     = (if can_save ex_fs_root ex_file
        then <[ex_file := File (readable_after (ex_fs_root !! ex_file)) true
                            (cacheData ex_creds)]> ex_fs_root
        else ex_fs_root)
  /\ forall q, q <> ex_file ->
       fs (snd (save (ex_cache false) ex_creds (ex_world ex_fs_root ex_now))) !! q
       = ex_fs_root !! q.
Proof.
  apply (save_outcome (ex_cache false) ex_creds (ex_world ex_fs_root ex_now) ex_file).
  apply ex_pathOf.
Defined.

Lemma save_home c creds w : home (snd (save c creds w)) = home w.
Proof.
  destruct (pathOf c w) as [p|] eqn:Hp.
  - destruct (save_spec c creds w p Hp) as (r & w' & evs & Hs & _ & _ & _ & Hh & _).
    now rewrite Hs.
  - unfold save, mbind, M_bind. now rewrite cachePath_pathOf, Hp.
Qed.

Lemma pathOf_home c w w' : home w' = home w -> pathOf c w' = pathOf c w.
Proof. intros H. unfold pathOf. now rewrite H. Qed.

Lemma can_save_after m p n :
  can_save m p = true -> can_save (<[p := File (readable_after (m !! p)) true n]> m) p = true.
Proof.
  intros H. unfold can_save in *.
  destruct (decide (Dir p = p)) as [E|E].
  - rewrite E in *. rewrite lookup_insert_eq.
    destruct (m !! p) as [[?|? ? ?]|]; discriminate.
  - rewrite lookup_insert_ne by congruence. rewrite lookup_insert_eq.
    destruct (m !! Dir p) as [[?|? ? ?]|]; try discriminate; reflexivity.
Qed.

(** X8.  The last [save] wins: when [save] succeeded, a second [save] on
    the same cache file succeeds too and leaves the file system that it
    would have left on its own; the entry written first is gone. *)
Theorem save_twice c a b w p :
  pathOf c w = Some p ->
  fst (save c a w) = Ret None ->
  fst (save c b (snd (save c a w))) = Ret None
  /\ fs (snd (save c b (snd (save c a w)))) = fs (snd (save c b w))
  /\ exists rd, fs (snd (save c b (snd (save c a w)))) !! p
                = Some (File rd true (cacheData b)).
Proof.
  intros Hp Ha.
  destruct (save_result c a w p Hp) as (Hiff & Hfs & _).
  apply Hiff in Ha. rewrite Ha in Hfs.
  assert (Hp1 : pathOf c (snd (save c a w)) = Some p)
    by (rewrite (pathOf_home c w _ (save_home c a w)); exact Hp).
  destruct (save_result c b _ p Hp1) as (Hiff1 & Hfs1 & _).
  destruct (save_result c b w p Hp) as (_ & Hfs2 & _).
  rewrite Ha in Hfs2.
  assert (Hc1 : can_save (fs (snd (save c a w))) p = true)
    by (rewrite Hfs; now apply can_save_after).
  rewrite Hc1 in Hfs1.
  split; [now apply Hiff1|].
  assert (E : fs (snd (save c b (snd (save c a w)))) = fs (snd (save c b w))).
  { rewrite Hfs1, Hfs2, Hfs. rewrite lookup_insert_eq. cbn [readable_after].
    apply insert_insert_eq. }
  split; [exact E|].
  rewrite E, Hfs2. eexists. apply lookup_insert_eq.
Qed.

Lemma save_twice_witness :
  fst (save (ex_cache false) ex_fresh
         (snd (save (ex_cache false) ex_creds (ex_world ex_fs_root ex_now)))) = Ret None
  /\ fs (snd (save (ex_cache false) ex_fresh
               (snd (save (ex_cache false) ex_creds (ex_world ex_fs_root ex_now)))))
     = fs (snd (save (ex_cache false) ex_fresh (ex_world ex_fs_root ex_now)))
  /\ exists rd,
       fs (snd (save (ex_cache false) ex_fresh
                 (snd (save (ex_cache false) ex_creds (ex_world ex_fs_root ex_now)))))
       !! ex_file = Some (File rd true (cacheData ex_fresh)).
Proof.
  apply (save_twice (ex_cache false) ex_creds ex_fresh (ex_world ex_fs_root ex_now)
           ex_file).
  - apply ex_pathOf.
  - vm_compute. reflexivity.
Defined.


(** ** A retrieval that fails *)

Lemma retrieved_log e w :
  retrieved (log e w)
  = retrieved w || match e with EvRetrieve => true | _ => false end.
Proof.
  unfold retrieved. cbn [trace log]. rewrite existsb_app. cbn [existsb].
  now rewrite orb_false_r.
Qed.

Lemma refresh_failed c w msg :
  snd (provider c) = Some msg ->
  refresh c w = (Ret (fst (provider c), Some (errUpstream msg)), log EvRetrieve w).
Proof. intros H. now rewrite refresh_eq, H. Qed.

(** X9.  When the provider fails, [Load] writes nothing: the file system
    is as before, a stale cache entry included, and if the provider was
    called at all, what [Load] returns is the provider's error. *)
Theorem Load_failed_retrieval c w msg :
  snd (provider c) = Some msg ->
  fs (snd (Load c w)) = fs w
  /\ (retrieved w = false ->
      retrieved (snd (Load c w)) = true ->
      fst (Load c w) = Ret (fst (provider c), Some (errUpstream msg))).
Proof.
  intros Hprov.
  destruct (forceRefresh c) eqn:Hf.
  - rewrite (Load_forced c w Hf), (refresh_failed c w msg Hprov). now split.
  - rewrite (Load_cached c w Hf).
    destruct (pathOf c w) as [p|] eqn:Hp.
    + rewrite (get_eq c w p Hp).
      destruct (fs w !! p) as [[d|[] wr data]|]; cbv zeta;
        try destruct (Unmarshal_item data) as [e|[[cc|]]]; cbn [Credentials];
        try destruct (bool_decide (@None error = None)
                      && negb (aws.Expired (fromCache cc) _));
        cbn [bool_decide andb]; rewrite ?(refresh_failed _ _ msg Hprov);
        cbn [fst snd fs log]; (split; [reflexivity|]); try reflexivity;
        intros H0; rewrite !retrieved_log, H0; discriminate.
    + unfold get, mbind, M_bind. rewrite cachePath_pathOf, Hp. cbn [fst snd].
      split; [reflexivity|]. intros H0 H1. congruence.
Qed.

Lemma Load_failed_retrieval_witness :
  fs (snd (Load {| provider := (blank, Some (B "AccessDenied")); cacheKey := ex_key;
                   forceRefresh := false; fullPath := [] |}
             (ex_world ex_fs_cached ex_expiry)))
  = ex_fs_cached
  /\ (retrieved (ex_world ex_fs_cached ex_expiry) = false ->
      retrieved (snd (Load {| provider := (blank, Some (B "AccessDenied"));
                              cacheKey := ex_key; forceRefresh := false;
                              fullPath := [] |}
                        (ex_world ex_fs_cached ex_expiry))) = true ->
      fst (Load {| provider := (blank, Some (B "AccessDenied")); cacheKey := ex_key;
                   forceRefresh := false; fullPath := [] |}
             (ex_world ex_fs_cached ex_expiry))
      = Ret (blank, Some (errUpstream (B "AccessDenied")))).
Proof.
  apply (Load_failed_retrieval
           {| provider := (blank, Some (B "AccessDenied")); cacheKey := ex_key;
              forceRefresh := false; fullPath := [] |}
           (ex_world ex_fs_cached ex_expiry) (B "AccessDenied")).
  reflexivity.
Defined.


(** ** The expiration and the zone *)

(** [Parse] reads what [Format] wrote as the wall clock of the time,
    taken for UTC. *)
Lemma Parse_Format_wall t :
  0 <= Year t < 10000 ->
  time.Parse (time.Format t)
  = Some {| time.unix := time.unix t + time.offset t; time.nsec := 0;
            time.offset := 0 |}.
Proof.
  intros Hyear.
  destruct (time.civil_from_days ((time.unix t + time.offset t) / 86400))
    as [[y m] d] eqn:Hc.
  pose proof (Year_range t Hyear y m d Hc) as Hy.
  destruct (civil_roundtrip _ _ _ _ Hc) as (Hm & Hd & Hd' & Hdays).
  pose proof (Format_stamp t y m d Hc Hy) as Hfmt. cbv zeta in Hfmt.
  set (secs := (time.unix t + time.offset t) mod 86400) in *.
  assert (Hs : 0 <= secs < 86400) by (apply Z.mod_pos_bound; lia).
  rewrite Hfmt, Parse_stamp by divmod.
  f_equal. unfold time.Date. f_equal.
  rewrite Hdays. subst secs. divmod.
Qed.

(** X10.  What [UnmarshalJSON] makes of what [MarshalJSON] wrote, for a
    time in any zone whose wall clock shows a year between 0 and 9999: the
    wall clock is written under the suffix [+00:00] and read as UTC, so
    the instant that comes back is the original one moved by the offset of
    its zone, without its nanoseconds. *)
Theorem ExpireTime_wall_clock t :
  0 <= Year t < 10000 ->
  ExpireTime_UnmarshalJSON (ExpireTime_MarshalJSON t)
  = Some {| time.unix := time.unix t + time.offset t; time.nsec := 0;
            time.offset := 0 |}.
Proof.
  intros Hyear.
  unfold ExpireTime_UnmarshalJSON, ExpireTime_MarshalJSON.
  destruct (quoted_Format t Hyear) as [Hq Htrim].
  rewrite Hq, Htrim. now apply Parse_Format_wall.
Qed.

Lemma ExpireTime_wall_clock_witness :
  ExpireTime_UnmarshalJSON (ExpireTime_MarshalJSON ex_expiry_plus2)
  = Some {| time.unix := 1718770578 + 7200; time.nsec := 0; time.offset := 0 |}.
Proof.
  apply (ExpireTime_wall_clock ex_expiry_plus2).
  vm_compute. split; [discriminate|reflexivity].
Defined.

Lemma Unmarshal_cacheData creds :
  storable creds ->
  Unmarshal_item (cacheData creds) = inr {| Credentials := Some (readBack creds) |}.
Proof.
  intros (Ha & Hk & Ht & Hyear).
  unfold cacheData, cacheItem, Unmarshal_item. rewrite parse_Marshal_item.
  cbn [decode_item]. eval_keyIs. cbn iota.
  cbn [decode_CachedCredentials]. eval_keyIs. cbn iota.
  unfold decode_string.
  cbn [AccessKeyId SecretAccessKey SessionToken Expiration].
  rewrite (unquote_quoted _ Ha), (unquote_quoted _ Hk), (unquote_quoted _ Ht).
  unfold ExpireTime_UnmarshalJSON, ExpireTime_MarshalJSON.
  destruct (quoted_Format _ Hyear) as [Hq Htrim].
  rewrite Hq, Htrim, (Parse_Format_wall _ Hyear).
  reflexivity.
Qed.

(** [Load] on a cache file that [save] wrote. *)
Lemma Load_saved c w p wr creds :
  forceRefresh c = false ->
  pathOf c w = Some p ->
  fs w !! p = Some (File true wr (cacheData creds)) ->
  storable creds ->
  Load c w
  = let w2 := log (EvReadFile p) (log (EvStat p) w) in
    if time.After (Expiration (readBack creds)) (now w)
    then (Ret (fromCache (readBack creds), None), w2)
    else refresh c w2.
Proof.
  intros Hf Hp Hfile Hst.
  rewrite (Load_cached c w Hf), (get_eq c w p Hp), Hfile, (Unmarshal_cacheData _ Hst).
  cbn [Credentials]. cbv zeta. unfold aws.Expired.
  cbn [fromCache aws.CanExpire aws.Expires now log].
  destruct (time.After _ _); reflexivity.
Qed.


(** X11.  Credentials whose expiration is in a zone east of UTC are served
    from the cache after they have expired: from their expiration on, for
    as long as the offset of the zone, [Load] still takes the entry that
    [save] wrote for valid and returns it without calling the provider. *)
Theorem Load_serves_expired c w p wr creds :
  forceRefresh c = false ->
  pathOf c w = Some p ->
  fs w !! p = Some (File true wr (cacheData creds)) ->
  storable creds ->
  aws.CanExpire creds = true ->
  time.unix (aws.Expires creds) < time.unix (now w) ->
  time.unix (now w) < time.unix (aws.Expires creds) + time.offset (aws.Expires creds) ->
  aws.Expired creds (now w) = true
  /\ Load c w
     = (Ret (fromCache (readBack creds), None), log (EvReadFile p) (log (EvStat p) w)).
Proof.
  intros Hf Hp Hfile Hst Hcan Hlo Hhi. split.
  - unfold aws.Expired, time.After. rewrite Hcan.
    replace (time.unix (now w) <? time.unix (aws.Expires creds)) with false
      by (symmetry; apply Z.ltb_ge; lia).
    replace (time.unix (aws.Expires creds) =? time.unix (now w)) with false
      by (symmetry; apply Z.eqb_neq; lia).
    reflexivity.
  - rewrite (Load_saved c w p wr creds Hf Hp Hfile Hst). cbv zeta.
    unfold time.After. cbn [readBack Expiration time.unix time.nsec].
    replace (time.unix (now w) <? _) with true by (symmetry; apply Z.ltb_lt; lia).
    reflexivity.
Qed.

Lemma Load_serves_expired_witness :
  aws.Expired ex_creds_plus2 ex_hour_late = true
  /\ Load (ex_cache false) (ex_world ex_fs_plus2 ex_hour_late)
     = (Ret (fromCache (readBack ex_creds_plus2), None),
        log (EvReadFile ex_file)
          (log (EvStat ex_file) (ex_world ex_fs_plus2 ex_hour_late))).
Proof.
  apply (Load_serves_expired (ex_cache false) (ex_world ex_fs_plus2 ex_hour_late)
           ex_file true ex_creds_plus2).
  - reflexivity.
  - apply ex_pathOf.
  - vm_compute. reflexivity.
  - repeat split; vm_compute; congruence.
  - reflexivity.
  - vm_compute. reflexivity.
  - vm_compute. reflexivity.
Defined.

(** ** One [Load] after another *)

Lemma refresh_fresh c w p creds :
  pathOf c w = Some p ->
  fst (refresh c w) = Ret (creds, None) ->
  creds = fst (provider c)
  /\ home (snd (refresh c w)) = home w
  /\ exists rd, fs (snd (refresh c w)) !! p = Some (File rd true (cacheData creds)).
Proof.
  intros Hp. rewrite refresh_eq.
  destruct (snd (provider c)) as [msg|]; [discriminate|].
  assert (Hp' : pathOf c (log EvRetrieve w) = Some p) by now rewrite pathOf_log.
  destruct (save_result c (fst (provider c)) (log EvRetrieve w) p Hp')
    as (Hiff & Hfs & _).
  pose proof (save_home c (fst (provider c)) (log EvRetrieve w)) as Hh.
  destruct (save c (fst (provider c)) (log EvRetrieve w)) as [[r|f|] w'];
    cbn [fst snd] in *; [|discriminate..].
  intros [= <- ->]. split; [reflexivity|]. split; [exact Hh|].
  rewrite Hfs. replace (can_save _ p) with true by (symmetry; now apply Hiff).
  eexists. apply lookup_insert_eq.
Qed.

Lemma Load_fresh c w p creds :
  pathOf c w = Some p ->
  retrieved w = false ->
  retrieved (snd (Load c w)) = true ->
  fst (Load c w) = Ret (creds, None) ->
  creds = fst (provider c)
  /\ home (snd (Load c w)) = home w
  /\ exists rd, fs (snd (Load c w)) !! p = Some (File rd true (cacheData creds)).
Proof.
  intros Hp H0.
  assert (Hr : forall w1, pathOf c w1 = Some p -> home w1 = home w ->
             fst (refresh c w1) = Ret (creds, None) ->
             creds = fst (provider c)
             /\ home (snd (refresh c w1)) = home w
             /\ exists rd, fs (snd (refresh c w1)) !! p
                           = Some (File rd true (cacheData creds))).
  { intros w1 Hp1 Hh1 H. destruct (refresh_fresh c w1 p creds Hp1 H) as (A & B & C).
    split; [exact A|]. split; [congruence|exact C]. }
  destruct (forceRefresh c) eqn:Hf.
  - rewrite (Load_forced c w Hf). intros _. now apply Hr.
  - rewrite (Load_cached c w Hf), (get_eq c w p Hp).
    destruct (fs w !! p) as [[d|[] wr data]|]; cbv zeta;
      try destruct (Unmarshal_item data) as [e|[[cc|]]]; cbn [Credentials];
      try destruct (bool_decide (@None error = None)
                    && negb (aws.Expired (fromCache cc) _));
      cbn [bool_decide andb];
      try (intros _; apply Hr; [now rewrite !pathOf_log|reflexivity]);
      cbn [fst snd]; rewrite !retrieved_log, H0; discriminate.
Qed.

(** X12.  A [Load] that fetched credentials from the provider and stored
    them serves the next one: credentials of well-formed UTF-8 that expire
    at a whole second in UTC come back from a following [Load] without
    [forceRefresh] on the same cache file, at any time before they expire,
    and the provider is not called again. *)
Theorem Load_then_Load c1 c2 w p creds t :
  let w1 := snd (Load c1 w) in
  pathOf c1 w = Some p ->
  pathOf c2 w = Some p ->
  forceRefresh c2 = false ->
  retrieved w = false ->
  retrieved w1 = true ->
  fst (Load c1 w) = Ret (creds, None) ->
  readable (fs w1 !! p) = true ->
  storable creds ->
  time.offset (aws.Expires creds) = 0 ->
  time.nsec (aws.Expires creds) = 0 ->
  time.After (aws.Expires creds) t = true ->
  exists creds',
    Load c2 (set_now t w1)
    = (Ret (creds', None), log (EvReadFile p) (log (EvStat p) (set_now t w1)))
    /\ same_credentials creds' creds.
Proof.
  intros w1 Hp1 Hp2 Hf H0 H1 Hret Hread Hst Hoff Hns Hafter.
  destruct (Load_fresh c1 w p creds Hp1 H0 H1 Hret) as (_ & Hh & rd & Hfile).
  fold w1 in Hh, Hfile. rewrite Hfile in Hread. cbn [readable] in Hread.
  destruct rd; [|discriminate].
  assert (Hp2' : pathOf c2 (set_now t w1) = Some p).
  { rewrite pathOf_set_now, (pathOf_home c2 w w1 Hh). exact Hp2. }
  assert (Hexp : Expiration (readBack creds) = aws.Expires creds).
  { unfold readBack. cbn [Expiration]. destruct (aws.Expires creds) as [u n o].
    cbn [time.unix time.nsec time.offset] in *. subst. now rewrite Z.add_0_r. }
  rewrite (Load_saved c2 (set_now t w1) p true creds Hf Hp2' Hfile Hst). cbv zeta.
  cbn [now set_now]. rewrite Hexp, Hafter.
  eexists. split; [reflexivity|].
  unfold same_credentials, fromCache, readBack. cbn. fold (readBack creds).
  repeat split; try reflexivity. exact Hexp.
Qed.

Lemma Load_then_Load_witness :
  exists creds',
    Load (ex_cache false)
      (set_now ex_expiry (snd (Load (ex_cache true) (ex_world ex_fs_root ex_now))))
    = (Ret (creds', None),
       log (EvReadFile ex_file)
         (log (EvStat ex_file)
            (set_now ex_expiry
               (snd (Load (ex_cache true) (ex_world ex_fs_root ex_now))))))
    /\ same_credentials creds' ex_fresh.
Proof.
  apply (Load_then_Load (ex_cache true) (ex_cache false) (ex_world ex_fs_root ex_now)
           ex_file ex_fresh ex_expiry).
  - apply ex_pathOf.
  - apply ex_pathOf.
  - reflexivity.
  - reflexivity.
  - vm_compute. reflexivity.
  - vm_compute. reflexivity.
  - vm_compute. reflexivity.
  - repeat split; vm_compute; congruence.
  - reflexivity.
  - reflexivity.
  - vm_compute. reflexivity.
Defined.


(** ** What [main] prints *)

Lemma Load_no_stdout c w :
  exists evs,
    trace (snd (Load c w)) = trace w ++ evs
    /\ Forall (fun e => is_stdout e = false) evs.
Proof.
  destruct (pathOf c w) as [p|] eqn:Hp.
  - destruct (Load_trace_shape c w p Hp) as (looks & rest & Ht & Hl & _ & Hrest).
    exists (looks ++ rest). split; [exact Ht|].
    apply Forall_app. split.
    + eapply Forall_impl; [exact Hl|]. intros [] H; try reflexivity; discriminate.
    + destruct Hrest as [->|(saves & -> & Hs & _)]; [constructor|].
      constructor; [reflexivity|].
      eapply Forall_impl; [exact Hs|]. intros [] H; try reflexivity; discriminate.
  - assert (H : fullPath c = [] /\ home w = None).
    { unfold pathOf in Hp. destruct (fullPath c); [|discriminate].
      destruct (home w); [discriminate|]. now split. }
    destruct H as [Hfull Hhome]. rewrite (Load_no_path c w Hfull Hhome).
    destruct (forceRefresh c); [destruct (snd (provider c))|].
    + exists [EvRetrieve]. split; [reflexivity|repeat constructor].
    + exists [EvRetrieve]. split; [reflexivity|repeat constructor].
    + exists []. split; [cbn [snd]; now rewrite app_nil_r|constructor].
Qed.

(** X13.  [main] writes the credentials to the standard output exactly
    when it ends normally, once, and as the last thing it does; when it
    ends through [log.Fatal] or a panic, nothing was printed. *)
Theorem main_prints_last fl cfg w :
  exists evs,
    trace (snd (main fl cfg w)) = trace w ++ evs
    /\ match fst (main fl cfg w) with
       | Ret _ =>
           exists evs' creds,
             evs = evs' ++ [EvStdout (asVars fl) creds]
             /\ Forall (fun e => is_stdout e = false) evs'
       | _ => Forall (fun e => is_stdout e = false) evs
       end.
Proof.
  unfold main.
  destruct (negb (duration_ok (duration fl))).
  { exists []. cbn [log_Fatal fst snd]. split; [now rewrite app_nil_r|constructor]. }
  destruct cfg as [e|cf].
  { exists []. cbn [log_Fatal fst snd]. split; [now rewrite app_nil_r|constructor]. }
  cbv zeta. unfold mbind, M_bind.
  assert (H : exists evs,
             trace (snd ((if noCache fl then Retrieve (cfgCredentials cf)
                          else Load (NewCache (cfgCredentials cf) (flagForceRefresh fl)
                                       (opts cf))) w))
             = trace w ++ evs
             /\ Forall (fun e => is_stdout e = false) evs).
  { destruct (noCache fl).
    - exists [EvRetrieve]. split; [reflexivity|repeat constructor].
    - apply Load_no_stdout. }
  destruct H as (evs & Ht & Hs).
  destruct ((if noCache fl then Retrieve (cfgCredentials cf)
             else Load (NewCache (cfgCredentials cf) (flagForceRefresh fl) (opts cf))) w)
    as [[[creds [e|]]|f|] w1]; cbn [snd] in Ht.
  - exists evs. cbn [log_Fatal fst snd]. now split.
  - exists (evs ++ [EvStdout (asVars fl) creds]). cbn [emit fst snd trace log]. split.
    + now rewrite Ht, <- app_assoc.
    + now exists evs, creds.
  - exists evs. now split.
  - exists evs. now split.
Qed.

(** X14.  Where the cache root [.aws/cli/cache] does not exist, [main]
    with the cache on cannot succeed: with or without [-force-refresh] it
    calls the provider and, when the provider succeeds, fails to write the
    cache file and ends through [log.Fatal] with the error of the write,
    [ENOTDIR] when a regular file stands above the cache root and
    [ENOENT] otherwise; the credentials that it obtained are not printed
    and the cache root is not created. *)
Theorem main_without_cache_root fl cf w h :
  noCache fl = false ->
  duration_ok (duration fl) = true ->
  snd (cfgCredentials cf) = None ->
  home w = Some h ->
  wf_fs (fs w) = true ->
  fs w !! (h ++ [B ".aws"; B "cli"; B "cache"]) = None ->
  exists e,
    fst (main fl (inr cf) w) = Fatal (FatalErr (errWriteCache e))
    /\ e = os.lookup_errno (fs w) (rev (h ++ [B ".aws"; B "cli"; B "cache"]))
    /\ (e = ENOENT \/ e = ENOTDIR)
    /\ fs (snd (main fl (inr cf) w)) = fs w
    /\ exists evs,
        trace (snd (main fl (inr cf) w)) = trace w ++ evs
        /\ In EvRetrieve evs
        /\ Forall (fun e => is_stdout e = false) evs.
Proof.
  intros Hnc Hd Hprov Hhome Hwf Hroot.
  set (c := NewCache (cfgCredentials cf) (flagForceRefresh fl) (opts cf)).
  set (p := h ++ [B ".aws"; B "cli"; B "cache"]
              ++ [cacheKey_String (cacheKey c) ++ B ".json"]).
  set (e := os.lookup_errno (fs w) (rev (h ++ [B ".aws"; B "cli"; B "cache"]))).
  assert (Hp : forall w1, home w1 = home w -> pathOf c w1 = Some p).
  { intros w1 H1. unfold pathOf. cbn [fullPath c NewCache]. now rewrite H1, Hhome. }
  assert (Hdir : Dir p = h ++ [B ".aws"; B "cli"; B "cache"]).
  { subst p. rewrite app_assoc. apply Dir_app_last. }
  assert (Hfile : fs w !! p = None).
  { destruct (fs w !! p) as [n|] eqn:E; [|reflexivity].
    destruct (wf_fs_parent _ _ _ Hwf E) as [d Hd'].
    - eapply pathOf_nonempty. now apply (Hp w).
    - rewrite Hdir, Hroot in Hd'. discriminate. }
  assert (Hsave : forall w1, home w1 = home w -> fs w1 = fs w ->
             save c (fst (cfgCredentials cf)) w1
             = (Ret (Some (errWriteCache e)),
                log (EvWriteFile p (cacheData (fst (cfgCredentials cf))))
                  (log (EvStat (Dir p)) w1))).
  { intros w1 H1 H2. rewrite (save_eq c _ w1 p (Hp w1 H1)), H2, Hdir, Hroot.
    unfold write_step. fold (cacheData (fst (cfgCredentials cf))).
    cbn [fs log]. unfold os.write. now rewrite H2, Hfile, Hdir, Hroot. }
  assert (Hrefresh : forall w1, home w1 = home w -> fs w1 = fs w ->
             refresh c w1
             = (Ret (fst (cfgCredentials cf), Some (errWriteCache e)),
                log (EvWriteFile p (cacheData (fst (cfgCredentials cf))))
                  (log (EvStat (Dir p)) (log EvRetrieve w1)))).
  { intros w1 H1 H2. rewrite refresh_eq. change (provider c) with (cfgCredentials cf).
    rewrite Hprov, (Hsave (log EvRetrieve w1)) by assumption. reflexivity. }
  exists e. unfold main. rewrite Hd, Hnc. cbn [negb]. cbv zeta. fold c.
  unfold mbind, M_bind.
  destruct (forceRefresh c) eqn:Hf.
  - rewrite (Load_forced c w Hf), (Hrefresh w) by reflexivity.
    cbn [log_Fatal fst snd fs log trace]. split; [reflexivity|]. split; [reflexivity|].
    split; [apply lookup_errno_cases|]. split; [reflexivity|].
    eexists. split; [rewrite <- !app_assoc; reflexivity|].
    split; [now left|repeat constructor].
  - rewrite (Load_cached c w Hf), (get_eq c w p (Hp w eq_refl)), Hfile.
    rewrite bool_decide_eq_false_2 by discriminate. cbn [andb].
    rewrite (Hrefresh (log (EvStat p) w)) by reflexivity.
    cbn [log_Fatal fst snd fs log trace]. split; [reflexivity|]. split; [reflexivity|].
    split; [apply lookup_errno_cases|]. split; [reflexivity|].
    eexists. split; [rewrite <- !app_assoc; reflexivity|].
    split; [right; now left|repeat constructor].
Qed.

Lemma main_without_cache_root_witness :
  exists e,
    fst (main (ex_flags false false Hour) (inr ex_config) (ex_world ex_fs_home ex_now))
    = Fatal (FatalErr (errWriteCache e))
    /\ e = os.lookup_errno ex_fs_home (rev (ex_home ++ [B ".aws"; B "cli"; B "cache"]))
    /\ (e = ENOENT \/ e = ENOTDIR)
    /\ fs (snd (main (ex_flags false false Hour) (inr ex_config)
                  (ex_world ex_fs_home ex_now)))
       = ex_fs_home
    /\ exists evs,
        trace (snd (main (ex_flags false false Hour) (inr ex_config)
                      (ex_world ex_fs_home ex_now)))
        = [] ++ evs
        /\ In EvRetrieve evs
        /\ Forall (fun e => is_stdout e = false) evs.
Proof.
  apply (main_without_cache_root (ex_flags false false Hour) ex_config
           (ex_world ex_fs_home ex_now) ex_home).
  - reflexivity.
  - reflexivity.
  - reflexivity.
  - reflexivity.
  - vm_compute. reflexivity.
  - vm_compute. reflexivity.
Defined.

(** The two errors at work: with directories only above the missing
    cache root [main] ends with [ENOENT], with a regular file at
    [.aws/cli] it ends with [ENOTDIR]. *)
Lemma main_without_cache_root_errno :
  fst (main (ex_flags false false Hour) (inr ex_config) (ex_world ex_fs_home ex_now))
  = Fatal (FatalErr (errWriteCache ENOENT))
  /\ fst (main (ex_flags false false Hour) (inr ex_config)
            (ex_world ex_fs_cli_file ex_now))
     = Fatal (FatalErr (errWriteCache ENOTDIR)).
Proof. split; vm_compute; reflexivity. Qed.


(** ** The shell variables *)

Lemma split_at_first {A} (sep : A) (a a' R R' : list A) :
  ~ In sep a -> ~ In sep a' ->
  a ++ sep :: R = a' ++ sep :: R' -> a = a' /\ R = R'.
Proof.
  revert a'. induction a as [|x a IH]; intros [|x' a'] Ha Ha' E.
  - now injection E.
  - injection E as -> _. contradiction Ha'. now left.
  - injection E as -> _. contradiction Ha. now left.
  - injection E as -> E. destruct (IH a') as [-> ->]; try assumption.
    + intros H. apply Ha. now right.
    + intros H. apply Ha'. now right.
    + now split.
Qed.

Lemma shellCredentials_String_eq s :
  shellCredentials_String s
  = B "export AWS_ACCESS_KEY_ID=" ++ AWS_ACCESS_KEY_ID s
    ++ x0a :: B "export AWS_SECRET_ACCESS_KEY=" ++ AWS_SECRET_ACCESS_KEY s
    ++ x0a :: B "export AWS_SESSION_TOKEN=" ++ AWS_SESSION_TOKEN s.
Proof.
  unfold shellCredentials_String, shellCredentials_fields, export_line.
  cbn [map Join fst snd].
  change (ToUpper (B "AWS_ACCESS_KEY_ID")) with (B "AWS_ACCESS_KEY_ID").
  change (ToUpper (B "AWS_SECRET_ACCESS_KEY")) with (B "AWS_SECRET_ACCESS_KEY").
  change (ToUpper (B "AWS_SESSION_TOKEN")) with (B "AWS_SESSION_TOKEN").
  rewrite <- !app_assoc. reflexivity.
Qed.

(** X15.  The text of the shell variables: three [export] lines, for the
    access key, the secret key and the session token in this order, with
    the values as they are, unquoted, and no newline at the end.  When
    neither the access key nor the secret key holds a newline, the text
    tells the three values: different credentials give different text. *)
Theorem shellCredentials_String_injective s s' :
  ~ In x0a (AWS_ACCESS_KEY_ID s) -> ~ In x0a (AWS_SECRET_ACCESS_KEY s) ->
  ~ In x0a (AWS_ACCESS_KEY_ID s') -> ~ In x0a (AWS_SECRET_ACCESS_KEY s') ->
  shellCredentials_String s = shellCredentials_String s' ->
  s = s'.
Proof.
  intros Ha Hk Ha' Hk'. rewrite !shellCredentials_String_eq. intros E.
  apply app_inv_head in E.
  apply split_at_first in E as [E1 E]; [|assumption..].
  apply app_inv_head in E.
  apply split_at_first in E as [E2 E]; [|assumption..].
  apply app_inv_head in E.
  destruct s, s'. cbn in *. now subst.
Qed.

Lemma shellCredentials_String_injective_witness :
  ex_shell = ex_shell.
Proof.
  apply (shellCredentials_String_injective ex_shell ex_shell);
    first [reflexivity | apply (bool_decide_eq_true_1 _); vm_compute; reflexivity].
Defined.


(** ** Keys that collide *)

Lemma join_middle sep D M R :
  json.join sep (D ++ M :: R) = before sep D ++ M ++ flat sep R.
Proof.
  induction D as [|x D IH].
  - apply join_cons.
  - change ((x :: D) ++ M :: R) with (x :: (D ++ M :: R)).
    destruct (D ++ M :: R) as [|y l] eqn:E; [now destruct D|].
    change (json.join sep (x :: y :: l)) with (x ++ sep ++ json.join sep (y :: l)).
    rewrite IH. unfold before. cbn [map concat]. now rewrite <- !app_assoc.
Qed.

(** A replacement works on the two sides of a place where no match can
    lie across. *)
Lemma replace2_app a b new : forall P Y,
  head Y <> Some b ->
  replace2 a b new (P ++ Y) = replace2 a b new P ++ replace2 a b new Y.
Proof.
  intros P. remember (length P) as n eqn:Hn. revert P Hn.
  induction n as [n IH] using lt_wf_ind. intros P Hn Y HY.
  destruct P as [|c P]; [reflexivity|].
  cbn [app replace2]. destruct (decide (a = c)) as [->|_].
  - destruct P as [|d P].
    + cbn [app]. destruct Y as [|y Y]; [reflexivity|].
      destruct (decide (b = y)) as [->|_]; [now contradiction HY|reflexivity].
    + cbn [app]. destruct (decide (b = d)) as [->|_].
      * rewrite <- app_assoc. f_equal.
        apply (IH (length P)); [simpl in Hn; lia|reflexivity|exact HY].
      * cbn [app]. f_equal.
        apply (IH (length (d :: P)) ltac:(simpl in *; lia) (d :: P) eq_refl Y HY).
  - cbn [app]. f_equal. apply (IH (length P)); [simpl in Hn; lia|reflexivity|exact HY].
Qed.

Lemma head_flat_quote l :
  head (flat (B ",") l ++ B "}") <> Some dquote.
Proof. destruct l; discriminate. Qed.

(** The text that is hashed when the external id is plain text [e]
    followed by [suffix], with what stands before and after the end of
    [e]. *)
Lemma Marshal_ExternalId v e suffix :
  Forall (fun b => plain b = true) (e ++ suffix) ->
  suffix <> [] ->
  exists PRE POST,
    Marshal_cacheKey (with_ExternalId v (e ++ suffix))
    = (PRE ++ e) ++ suffix ++ dquote :: POST
    /\ PRE = B "{" ++ before (B ",") (omitempty_int "DurationSeconds" (DurationSeconds v))
               ++ dquote :: B "ExternalId" ++ dquote :: B ":" ++ [dquote]
    /\ POST = flat (B ",") (omitempty_string "RoleArn" (RoleArn v)
                             ++ omitempty_string "SerialNumber" (SerialNumber v))
               ++ B "}".
Proof.
  intros Hpl Hne. eexists _, _. split; [|split; reflexivity].
  unfold Marshal_cacheKey, with_ExternalId. cbn [DurationSeconds ExternalId RoleArn SerialNumber].
  unfold json.object.
  assert (E : omitempty_string "ExternalId" (e ++ suffix)
              = [json.member "ExternalId" (dquote :: (e ++ suffix) ++ [dquote])]).
  { unfold omitempty_string. rewrite <- (appendString_plain _ Hpl).
    destruct (e ++ suffix) eqn:E; [|reflexivity].
    apply app_eq_nil in E as [_ ->]. contradiction. }
  rewrite E. cbn [app]. rewrite join_middle.
  unfold json.member. change (B ":") with [x3a].
  repeat (rewrite <- ?app_assoc; progress cbn [app]). rewrite <- ?app_assoc.
  reflexivity.
Qed.

(** X16.  Two external ids that differ only in a space after a final
    comma give the same cache key: the second replacement of [String]
    puts that space into the first one.  So do two sets of parameters
    share one cache file. *)
Theorem cacheKey_collision v e :
  Forall (fun b => plain b = true) e ->
  cacheKey_String (with_ExternalId v (e ++ B ","))
  = cacheKey_String (with_ExternalId v (e ++ B ", ")).
Proof.
  intros He.
  assert (H1 : Forall (fun b => plain b = true) (e ++ B ","))
    by (apply Forall_app; split; [exact He|repeat constructor]).
  assert (H2 : Forall (fun b => plain b = true) (e ++ B ", "))
    by (apply Forall_app; split; [exact He|repeat constructor]).
  destruct (Marshal_ExternalId v e (B ",") H1) as (PRE & POST & E1 & HPRE & HPOST);
    [discriminate|].
  destruct (Marshal_ExternalId v e (B ", ") H2) as (PRE' & POST' & E2 & HPRE' & HPOST');
    [discriminate|].
  subst PRE' POST'. rewrite <- HPRE, <- HPOST in E2.
  assert (HP : head POST <> Some x3a) by (subst POST; apply head_flat).
  unfold cacheKey_String. do 3 f_equal. unfold cacheKey_blobStr.
  change (dquote :: B ":") with [dquote; x3a].
  change (B "," ++ [dquote]) with [x2c; dquote].
  rewrite !Replace_two, E1, E2.
  change (B "," ++ dquote :: POST) with (x2c :: dquote :: POST).
  change (B ", " ++ dquote :: POST) with (x2c :: x20 :: dquote :: POST).
  set (A := PRE ++ e).
  rewrite (replace2_app dquote x3a _ A (x2c :: dquote :: POST)) by discriminate.
  rewrite (replace2_app dquote x3a _ A (x2c :: x20 :: dquote :: POST)) by discriminate.
  rewrite (replace2_skip dquote x3a _ x2c (dquote :: POST)) by discriminate.
  rewrite (replace2_skip dquote x3a _ x2c (x20 :: dquote :: POST)) by discriminate.
  rewrite (replace2_skip dquote x3a _ x20 (dquote :: POST)) by discriminate.
  rewrite !(replace2_no dquote x3a _ POST) by exact HP.
  set (CA := replace2 dquote x3a _ A). set (CP := replace2 dquote x3a _ POST).
  rewrite (replace2_app x2c dquote _ CA (x2c :: dquote :: CP)) by discriminate.
  rewrite (replace2_app x2c dquote _ CA (x2c :: x20 :: dquote :: CP)) by discriminate.
  reflexivity.
Qed.

Lemma cacheKey_collision_witness :
  cacheKey_String (with_ExternalId ex_key (B "a" ++ B ","))
  = cacheKey_String (with_ExternalId ex_key (B "a" ++ B ", ")).
Proof.
  apply (cacheKey_collision ex_key (B "a")).
  repeat constructor.
Defined.


(** ** Keys that do not collide *)

Lemma FormatInt_inj z1 z2 : FormatInt z1 = FormatInt z2 -> z1 = z2.
Proof.
  unfold FormatInt. intros H.
  apply (f_equal string_of_list_byte) in H.
  rewrite !string_of_list_byte_of_string in H.
  apply (f_equal NilZero.int_of_string) in H.
  assert (Hn : forall z, Z.to_int z <> Decimal.Pos Decimal.Nil
                         /\ Z.to_int z <> Decimal.Neg Decimal.Nil).
  { intros [|p|p]; cbn [Z.to_int]; split; try discriminate;
      intros [= E]; now apply (Stdlib.Numbers.DecimalPos.Unsigned.to_uint_nonnil p). }
  rewrite !NilZero.isi in H by apply Hn.
  injection H as H. now apply Stdlib.Numbers.DecimalZ.to_int_inj.
Qed.

Lemma uint_numeral d :
  Forall (fun b => numeral b = true) (list_byte_of_string (NilEmpty.string_of_uint d)).
Proof.
  induction d; cbn [NilEmpty.string_of_uint]; [constructor|..];
    (constructor; [reflexivity|assumption]).
Qed.

Lemma FormatInt_numeral z :
  FormatInt z <> [] /\ Forall (fun b => numeral b = true) (FormatInt z).
Proof.
  assert (H : forall d,
             list_byte_of_string (NilZero.string_of_uint d) <> []
             /\ Forall (fun b => numeral b = true)
                  (list_byte_of_string (NilZero.string_of_uint d))).
  { intros d. pose proof (uint_numeral d) as H.
    destruct d; (split; [discriminate|]); try exact H. repeat constructor. }
  unfold FormatInt. destruct (Z.to_int z) as [d|d]; cbn [NilZero.string_of_int].
  - apply H.
  - split; [discriminate|]. constructor; [reflexivity|apply H].
Qed.

(** Text of bytes that satisfy [P], before a byte that does not. *)
Lemma prefix_unique (P : byte -> bool) v v' x X x' X' :
  Forall (fun b => P b = true) v -> Forall (fun b => P b = true) v' ->
  P x = false -> P x' = false ->
  v ++ x :: X = v' ++ x' :: X' -> v = v' /\ x :: X = x' :: X'.
Proof.
  intros Hv. revert v'. induction Hv as [|b v Hb _ IH]; intros v' Hv' Hx Hx' E.
  - destruct Hv' as [|b' v' Hb' _]; [now split|].
    injection E as -> _. congruence.
  - destruct Hv' as [|b' v' Hb' Hv']; injection E as -> E; [congruence|].
    destruct (IH v' Hv' Hx Hx' E) as [-> ->]. now split.
Qed.

Lemma after_first_head l :
  exists x X, after_first l = x :: X /\ numeral x = false /\ x <> dquote.
Proof.
  unfold after_first, flat.
  destruct l as [|f l]; [exists x7d, []|exists x2c; eexists]; now repeat split.
Qed.

Lemma no_quote_In l : Forall (fun c => c <> dquote) l -> ~ In dquote l.
Proof.
  intros Hl Hin. rewrite List.Forall_forall in Hl. now apply (Hl _ Hin).
Qed.

Lemma shaped_inj v v' T T' :
  shaped v -> shaped v' ->
  (exists x X, T = x :: X /\ numeral x = false /\ x <> dquote) ->
  (exists x X, T' = x :: X /\ numeral x = false /\ x <> dquote) ->
  v ++ T = v' ++ T' -> v = v' /\ T = T'.
Proof.
  intros Hv Hv' (x & X & -> & Hx & Hxq) (x' & X' & -> & Hx' & Hxq') E.
  destruct Hv as [v Hne Hv|s Hs], Hv' as [v' Hne' Hv'|s' Hs'].
  - now apply (prefix_unique numeral).
  - destruct v as [|b v]; [contradiction|]. inversion Hv as [|? ? Hb _]; subst.
    injection E as -> _. discriminate Hb.
  - destruct v' as [|b v']; [contradiction|]. inversion Hv' as [|? ? Hb _]; subst.
    injection E as <- _. discriminate Hb.
  - injection E as E. rewrite <- !app_assoc in E. cbn [app] in E.
    pose proof no_quote_In as Hq.
    apply split_at_first in E as [-> E]; [now split|now apply Hq..].
Qed.

Lemma text_member_inj f f' T T' :
  shaped_field f -> shaped_field f' ->
  (exists x X, T = x :: X /\ numeral x = false /\ x <> dquote) ->
  (exists x X, T' = x :: X /\ numeral x = false /\ x <> dquote) ->
  text_member f ++ T = text_member f' ++ T' -> f = f' /\ T = T'.
Proof.
  intros [Hn Hv] [Hn' Hv'] HT HT' E.
  unfold text_member, spec_member in E. cbn [app] in E. injection E as E.
  rewrite <- !app_assoc in E. cbn [app] in E.
  pose proof no_quote_In as Hq.
  apply split_at_first in E as [En E]; [|now apply Hq..].
  change (B ": ") with [x3a; x20] in E. cbn [app] in E. injection E as E.
  rewrite <- ?app_assoc in E.
  destruct (shaped_inj _ _ _ _ Hv Hv' HT HT' E) as [Ev ET].
  split; [|exact ET].
  apply (f_equal string_of_list_byte) in En. unfold B in En.
  rewrite !string_of_list_byte_of_string in En.
  destruct f, f'. cbn [fst snd] in *. now subst.
Qed.

Lemma after_first_inj l : forall l',
  Forall shaped_field l -> Forall shaped_field l' ->
  after_first l = after_first l' -> l = l'.
Proof.
  induction l as [|f l IH]; intros [|f' l'] Hl Hl' E.
  - reflexivity.
  - discriminate E.
  - discriminate E.
  - inversion Hl as [|? ? Hf Hl0]; inversion Hl' as [|? ? Hf' Hl0']; subst.
    unfold after_first in E. cbn [map] in E. rewrite !flat_cons in E.
    change (B ", " ++ ?x) with (x2c :: x20 :: x) in E. injection E as E.
    apply (f_equal (cons dquote)) in E.
    change (text_member f ++ after_first l = text_member f' ++ after_first l') in E.
    destruct (text_member_inj f f' _ _ Hf Hf' (after_first_head l) (after_first_head l') E)
      as [-> E'].
    f_equal. now apply IH.
Qed.

Lemma spec_text_inj l l' :
  Forall shaped_field l -> Forall shaped_field l' ->
  B "{" ++ json.join (B ", ") (map text_member l) ++ B "}"
  = B "{" ++ json.join (B ", ") (map text_member l') ++ B "}" ->
  l = l'.
Proof.
  intros Hl Hl' E. destruct l as [|f l], l' as [|f' l'].
  - reflexivity.
  - cbn [map] in E. rewrite join_cons in E. discriminate E.
  - cbn [map] in E. rewrite join_cons in E. discriminate E.
  - inversion Hl as [|? ? Hf Hl0]; inversion Hl' as [|? ? Hf' Hl0']; subst.
    cbn [map] in E. rewrite !join_cons, <- !app_assoc in E.
    apply app_inv_head in E.
    change (text_member f ++ after_first l = text_member f' ++ after_first l') in E.
    destruct (text_member_inj f f' _ _ Hf Hf' (after_first_head l) (after_first_head l') E)
      as [-> E'].
    f_equal. now apply (after_first_inj l l').
Qed.

Lemma plain_no_quote s :
  Forall (fun b => plain b = true) s -> Forall (fun c => c <> dquote) s.
Proof. intros H. eapply Forall_impl; [exact H|]. apply plain_not_quote. Qed.

Lemma fields_shaped v :
  Forall (fun b => plain b = true) (ExternalId v) ->
  Forall (fun b => plain b = true) (RoleArn v) ->
  Forall (fun b => plain b = true) (SerialNumber v) ->
  Forall shaped_field (fields v).
Proof.
  intros He Hr Hs.
  assert (Hname : forall n, bool_decide (Forall (fun c => c <> dquote) (B n)) = true ->
                            Forall (fun c => c <> dquote) (B n))
    by (intros n; apply bool_decide_eq_true_1).
  assert (Hstr : forall n s,
             bool_decide (Forall (fun c => c <> dquote) (B n)) = true ->
             Forall (fun b => plain b = true) s ->
             shaped_field (n, json.appendString s)).
  { intros n s Hn Hp. split; [now apply Hname|]. cbn [snd].
    rewrite appendString_plain by exact Hp. apply shaped_string. now apply plain_no_quote. }
  unfold fields. rewrite !Forall_app. repeat split.
  - destruct (DurationSeconds v =? 0); [constructor|].
    constructor; [|constructor]. split; [now apply Hname|].
    cbn [snd]. apply shaped_number; apply FormatInt_numeral.
  - destruct (ExternalId v); [constructor|].
    constructor; [|constructor]. now apply Hstr.
  - destruct (RoleArn v); [constructor|].
    constructor; [|constructor]. now apply Hstr.
  - destruct (SerialNumber v); [constructor|].
    constructor; [|constructor]. now apply Hstr.
Qed.

Lemma field_value_fields v :
  field_value "DurationSeconds" (fields v)
  = (if DurationSeconds v =? 0 then None else Some (FormatInt (DurationSeconds v)))
  /\ field_value "ExternalId" (fields v)
     = match ExternalId v with [] => None | s => Some (json.appendString s) end
  /\ field_value "RoleArn" (fields v)
     = match RoleArn v with [] => None | s => Some (json.appendString s) end
  /\ field_value "SerialNumber" (fields v)
     = match SerialNumber v with [] => None | s => Some (json.appendString s) end.
Proof.
  unfold fields.
  destruct (DurationSeconds v =? 0), (ExternalId v), (RoleArn v), (SerialNumber v);
    repeat split; reflexivity.
Qed.

Lemma appendString_plain_inj s s' :
  Forall (fun b => plain b = true) s -> Forall (fun b => plain b = true) s' ->
  match s with [] => None | b :: l => Some (json.appendString (b :: l)) end
  = match s' with [] => None | b :: l => Some (json.appendString (b :: l)) end ->
  s = s'.
Proof.
  intros Hs Hs' E.
  assert (H : forall t t', Forall (fun b => plain b = true) t ->
             Forall (fun b => plain b = true) t' ->
             Some (json.appendString t) = Some (json.appendString t') -> t = t').
  { intros t t' Ht Ht' H0.
    assert (H : json.appendString t = json.appendString t') by congruence.
    rewrite !appendString_plain in H by assumption.
    injection H as H. now apply app_inv_tail in H. }
  destruct s as [|b s], s' as [|b' s']; try discriminate; [reflexivity|].
  now apply H.
Qed.

Lemma fields_inj v v' :
  Forall (fun b => plain b = true) (ExternalId v) ->
  Forall (fun b => plain b = true) (RoleArn v) ->
  Forall (fun b => plain b = true) (SerialNumber v) ->
  Forall (fun b => plain b = true) (ExternalId v') ->
  Forall (fun b => plain b = true) (RoleArn v') ->
  Forall (fun b => plain b = true) (SerialNumber v') ->
  fields v = fields v' -> v = v'.
Proof.
  intros He Hr Hs He' Hr' Hs' E.
  destruct (field_value_fields v) as (D & X & R & S).
  destruct (field_value_fields v') as (D' & X' & R' & S').
  rewrite E in D, X, R, S. rewrite D' in D. rewrite X' in X. rewrite R' in R.
  rewrite S' in S. clear D' X' R' S' E.
  apply appendString_plain_inj in X; [|assumption..].
  apply appendString_plain_inj in R; [|assumption..].
  apply appendString_plain_inj in S; [|assumption..].
  assert (Hd : DurationSeconds v' = DurationSeconds v).
  { destruct (Z.eqb_spec (DurationSeconds v) 0) as [E0|_],
             (Z.eqb_spec (DurationSeconds v') 0) as [E0'|_]; try discriminate.
    - congruence.
    - injection D as D. now apply FormatInt_inj in D. }
  destruct v, v'. cbn in *. now subst.
Qed.

Lemma blobStr_inj v v' :
  tame (ExternalId v) -> tame (RoleArn v) -> tame (SerialNumber v) ->
  tame (ExternalId v') -> tame (RoleArn v') -> tame (SerialNumber v') ->
  cacheKey_blobStr v = cacheKey_blobStr v' -> v = v'.
Proof.
  intros He Hr Hs He' Hr' Hs' E.
  destruct (cacheKey_tame v He Hr Hs) as [T _].
  destruct (cacheKey_tame v' He' Hr' Hs') as [T' _].
  rewrite T, T', !spec_fields in E.
  apply fields_inj; try (apply He || apply Hr || apply Hs || apply He' || apply Hr'
                          || apply Hs').
  apply spec_text_inj; [apply fields_shaped..|exact E];
    (apply He || apply Hr || apply Hs || apply He' || apply Hr' || apply Hs').
Qed.

Lemma ex_key_tame :
  tame (ExternalId ex_key) /\ tame (RoleArn ex_key) /\ tame (SerialNumber ex_key).
Proof.
  repeat split; try discriminate; repeat constructor.
Qed.

(** X17.  Where the external id, the role and the serial number are tame
    (plain ASCII text that does not start with a colon and does not end
    with a comma), the text that [String] hashes is the object of the
    non-empty fields, in the order of the struct, with one space after
    the colon of each member and after each comma between members, and
    the key is the lower-case hexadecimal SHA-1 of that text. *)
Theorem cacheKey_String_tame v :
  tame (ExternalId v) -> tame (RoleArn v) -> tame (SerialNumber v) ->
  cacheKey_blobStr v
  = B "{" ++ json.join (B ", ") (map text_member (fields v)) ++ B "}"
  /\ cacheKey_String v
     = EncodeToString
         (SHA1.Sum (B "{" ++ json.join (B ", ") (map text_member (fields v)) ++ B "}")).
Proof.
  intros He Hr Hs. destruct (cacheKey_tame v He Hr Hs) as [T _].
  destruct (cacheKey_String_hex v) as (E & _).
  rewrite E, T, spec_fields. now split.
Qed.

Lemma cacheKey_String_tame_witness :
  cacheKey_blobStr ex_key
  = B "{" ++ json.join (B ", ") (map text_member (fields ex_key)) ++ B "}"
  /\ cacheKey_String ex_key
     = EncodeToString
         (SHA1.Sum
            (B "{" ++ json.join (B ", ") (map text_member (fields ex_key)) ++ B "}")).
Proof.
  apply (cacheKey_String_tame ex_key); apply ex_key_tame.
Defined.

(** X18.  Tame parameters are told apart by the text that is hashed: two
    sets of parameters with tame strings that give the same text are the
    same, duration, external id, role and serial number.  (Such
    parameters share a cache file only where SHA-1 collides.) *)
Theorem cacheKey_text_injective v v' :
  tame (ExternalId v) -> tame (RoleArn v) -> tame (SerialNumber v) ->
  tame (ExternalId v') -> tame (RoleArn v') -> tame (SerialNumber v') ->
  cacheKey_blobStr v = cacheKey_blobStr v' -> v = v'.
Proof. apply blobStr_inj. Qed.

Lemma cacheKey_text_injective_witness : ex_key = ex_key.
Proof.
  apply (cacheKey_text_injective ex_key ex_key); first [apply ex_key_tame|reflexivity].
Defined.


(** ** What comes back from the cache file *)

Lemma unquote_replacement fu X :
  json.unquote_loop (S fu) (B "\ufffd" ++ X)
  = t ← json.unquote_loop fu X; Some (utf8.EncodeRune utf8.RuneError ++ t).
Proof. reflexivity. Qed.

Lemma unquote_appendString_scrub fe : forall s fu,
  (length s <= fe)%nat ->
  (length (json.appendString_loop fe s) <= fu)%nat ->
  json.unquote_loop fu (json.appendString_loop fe s) = Some (scrub_loop fe s).
Proof.
  induction fe as [|fe IH]; intros s fu Hl Hfu.
  - destruct s; [apply unquote_loop_nil|simpl in Hl; lia].
  - destruct s as [|b s]; [apply unquote_loop_nil|].
    cbn [scrub_loop json.appendString_loop] in *.
    destruct (byteZ b <? utf8.RuneSelf) eqn:Hb.
    + rewrite (DecodeRune_ascii b s Hb).
      replace ((byteZ b =? utf8.RuneError) && (1 =? 1)%nat) with false
        by (symmetry; apply andb_false_iff; left; apply Z.eqb_neq;
            apply Z.ltb_lt in Hb; unfold utf8.RuneSelf, utf8.RuneError in *; lia).
      cbn [skipn firstn app]. fold (token b) in *.
      pose proof (token_length b Hb) as Htl. rewrite length_app in Hfu.
      destruct fu as [|fu]; [lia|].
      rewrite (unquote_token b _ fu Hb).
      rewrite (IH s fu) by (simpl in Hl; lia). reflexivity.
    + apply Z.ltb_ge in Hb. unfold utf8.RuneSelf in Hb.
      destruct (utf8.DecodeRune (b :: s)) as [c size] eqn:Hd.
      destruct ((c =? utf8.RuneError) && (size =? 1)%nat) eqn:Hne.
      * rewrite length_app in Hfu. change (length (B "\ufffd")) with 6%nat in Hfu.
        destruct fu as [|fu]; [lia|].
        rewrite unquote_replacement.
        rewrite (IH s fu) by (simpl in Hl; lia). reflexivity.
      * destruct (DecodeRune_high b s c size Hb Hd Hne)
          as (((H1 & H4) & Hlen & Henc & Hpre & _) & Hall).
        pose proof (skipn_length_le size (b :: s) fe H1 Hl) as Hsk.
        destruct ((c =? 0x2028) || (c =? 0x2029)) eqn:Hls.
        -- rewrite length_app in Hfu. cbn [length] in Hfu.
           destruct fu as [|fu]; [lia|].
           rewrite (unquote_line_separator c fu _ Hls).
           rewrite (IH (skipn size (b :: s)) fu) by (exact Hsk || lia).
           cbn [mbind option_bind]. rewrite Henc. reflexivity.
        -- rewrite length_app in Hfu.
           destruct size as [|n]; [lia|].
           cbn [firstn app] in *. cbn [length] in Hfu.
           destruct fu as [|fu]; [lia|].
           cbn [json.unquote_loop].
           destruct (high_not_special b Hb) as (-> & -> & -> & ->). cbn [orb].
           specialize (Hpre (json.appendString_loop fe (skipn (S n) (b :: s)))).
           cbn [firstn app] in Hpre. rewrite Hpre.
           cbn [skipn] in Hsk, Hfu |- *.
           rewrite skipn_firstn_app by (simpl in Hlen; lia).
           rewrite (IH (skipn n s) fu) by (exact Hsk || lia).
           cbn [mbind option_bind]. rewrite Henc. reflexivity.
Qed.

Lemma unquote_scrub s :
  json.unquote (json.appendString_loop (length s) s) = Some (scrub s).
Proof.
  unfold json.unquote, scrub. apply unquote_appendString_scrub; lia.
Qed.


Lemma scrub_valid s : utf8.Valid s = true -> scrub s = s.
Proof.
  intros H. pose proof (unquote_quoted s H) as E.
  rewrite unquote_scrub in E. now injection E.
Qed.

(** X19.  What [json.Unmarshal] in [get] makes of the text that
    [json.Marshal] in [save] wrote, for an expiration whose wall clock
    shows a year between 0 and 9999: the three strings with every byte
    that is not well-formed UTF-8 replaced by U+FFFD (so well-formed
    strings as they were), and the wall clock of the expiration, to the
    second, as a time in UTC.  The pointer is never nil. *)
Theorem Unmarshal_of_saved creds :
  0 <= Year (aws.Expires creds) < 10000 ->
  Unmarshal_item (cacheData creds)
  = inr {| Credentials := Some (readBack_scrubbed creds) |}
  /\ (utf8.Valid (aws.AccessKeyID creds) = true ->
      utf8.Valid (aws.SecretAccessKey creds) = true ->
      utf8.Valid (aws.SessionToken creds) = true ->
      readBack_scrubbed creds = readBack creds).
Proof.
  intros Hyear. split.
  - unfold cacheData, cacheItem, Unmarshal_item. rewrite parse_Marshal_item.
    cbn [decode_item]. eval_keyIs. cbn iota.
    cbn [decode_CachedCredentials]. eval_keyIs. cbn iota.
    unfold decode_string.
    cbn [AccessKeyId SecretAccessKey SessionToken Expiration].
    rewrite !unquote_scrub.
    unfold ExpireTime_UnmarshalJSON, ExpireTime_MarshalJSON.
    destruct (quoted_Format _ Hyear) as [Hq Htrim].
    rewrite Hq, Htrim, (Parse_Format_wall _ Hyear).
    reflexivity.
  - intros Ha Hk Ht. unfold readBack_scrubbed, readBack.
    now rewrite !scrub_valid by assumption.
Qed.

Lemma Unmarshal_of_saved_witness :
  Unmarshal_item (cacheData ex_creds_binary)
  = inr {| Credentials := Some (readBack_scrubbed ex_creds_binary) |}
  /\ (utf8.Valid (aws.AccessKeyID ex_creds_binary) = true ->
      utf8.Valid (aws.SecretAccessKey ex_creds_binary) = true ->
      utf8.Valid (aws.SessionToken ex_creds_binary) = true ->
      readBack_scrubbed ex_creds_binary = readBack ex_creds_binary).
Proof.
  apply (Unmarshal_of_saved ex_creds_binary).
  vm_compute. split; [discriminate|reflexivity].
Defined.

(** The token of [ex_creds_binary], an ill-formed byte after a letter,
    comes back with U+FFFD in the place of the byte. *)
Lemma scrub_binary : scrub [x74; xff] = [x74; xef; xbf; xbd].
Proof. reflexivity. Qed.

(** ** [main] with a cache entry *)

(** X20.  With the cache on and no [-force-refresh], when the cache file
    of the options holds an entry that expires after the current time,
    [main] prints the credentials of that entry and ends normally: it
    stats and reads the cache file and does nothing else; the provider is
    not called. *)
Theorem main_serves_cache fl cf w p wr data cc :
  noCache fl = false ->
  flagForceRefresh fl = false ->
  duration_ok (duration fl) = true ->
  pathOf (NewCache (cfgCredentials cf) false (opts cf)) w = Some p ->
  fs w !! p = Some (File true wr data) ->
  Unmarshal_item data = inr {| Credentials := Some cc |} ->
  time.After (Expiration cc) (now w) = true ->
  main fl (inr cf) w
  = (Ret tt,
     log (EvStdout (asVars fl) (fromCache cc)) (log (EvReadFile p) (log (EvStat p) w))).
Proof.
  intros Hnc Hf Hd Hp Hfile Hdata Hafter.
  unfold main. rewrite Hd, Hnc, Hf. cbn [negb]. cbv zeta. unfold mbind, M_bind.
  rewrite (Load_cached (NewCache (cfgCredentials cf) false (opts cf)) w eq_refl),
    (get_eq _ w p Hp), Hfile, Hdata.
  cbn [Credentials now log]. unfold aws.Expired. cbn [fromCache aws.CanExpire aws.Expires].
  rewrite Hafter. reflexivity.
Qed.

Lemma main_serves_cache_witness :
  main (ex_flags false false Hour) (inr ex_config) (ex_world ex_fs_cached ex_now)
  = (Ret tt,
     log (EvStdout false
            (fromCache {| AccessKeyId := B "ASIAEXAMPLE";
                          SecretAccessKey := B "secret/key+1";
                          SessionToken := B "token"; Expiration := ex_expiry |}))
       (log (EvReadFile ex_file) (log (EvStat ex_file) (ex_world ex_fs_cached ex_now)))).
Proof.
  apply (main_serves_cache (ex_flags false false Hour) ex_config
           (ex_world ex_fs_cached ex_now) ex_file true (cacheData ex_creds)
           {| AccessKeyId := B "ASIAEXAMPLE"; SecretAccessKey := B "secret/key+1";
              SessionToken := B "token"; Expiration := ex_expiry |}).
  - reflexivity.
  - reflexivity.
  - reflexivity.
  - vm_compute. reflexivity.
  - vm_compute. reflexivity.
  - vm_compute. reflexivity.
  - reflexivity.
Defined.


(** ** Credentials that do not expire *)

(** X21.  Credentials that do not expire are never served from the cache.
    [save] writes their zero expiration, [get] marks what it reads as
    expiring, and so, at any time after the first second of year 1, [Load]
    finds the entry expired and calls the provider again, although the
    credentials themselves are not expired. *)
Theorem Load_static_credentials c w p wr creds :
  forceRefresh c = false ->
  pathOf c w = Some p ->
  fs w !! p = Some (File true wr (cacheData creds)) ->
  utf8.Valid (aws.AccessKeyID creds) = true ->
  utf8.Valid (aws.SecretAccessKey creds) = true ->
  utf8.Valid (aws.SessionToken creds) = true ->
  aws.CanExpire creds = false ->
  aws.Expires creds = zeroTime ->
  time.unix zeroTime < time.unix (now w) ->
  aws.Expired creds (now w) = false
  /\ exists r w' evs,
      Load c w = (Ret (fst (provider c), r), w')
      /\ trace w' = trace w ++ EvStat p :: EvReadFile p :: EvRetrieve :: evs.
Proof.
  intros Hf Hp Hfile Ha Hk Ht Hcan Hexp Hnow. split.
  - unfold aws.Expired. now rewrite Hcan.
  - assert (Hst : storable creds).
    { repeat split; try assumption; rewrite Hexp; vm_compute; congruence. }
    rewrite (Load_saved c w p wr creds Hf Hp Hfile Hst). cbv zeta.
    unfold readBack. cbn [Expiration]. rewrite Hexp.
    unfold time.After. cbn [time.unix time.nsec time.offset zeroTime] in *.
    replace (time.unix (now w) <? -62135596800 + 0) with false
      by (symmetry; apply Z.ltb_ge; lia).
    replace (-62135596800 + 0 =? time.unix (now w)) with false
      by (symmetry; apply Z.eqb_neq; lia).
    cbn [orb andb].
    assert (Hp2 : pathOf c (log (EvReadFile p) (log (EvStat p) w)) = Some p)
      by now rewrite !pathOf_log.
    destruct (refresh_trace c _ p Hp2) as (saves & Htr & _).
    destruct (refresh c (log (EvReadFile p) (log (EvStat p) w))) as [[[cr r]|f|] w']
      eqn:Er.
    + assert (cr = fst (provider c)).
      { rewrite refresh_eq in Er. destruct (snd (provider c)); [congruence|].
        destruct (save c _ _) as [[?|?|] ?]; congruence. }
      subst cr. exists r, w', saves. split; [reflexivity|].
      cbn [snd] in Htr. rewrite Htr. cbn [trace log]. now rewrite <- !app_assoc.
    + exfalso. rewrite refresh_eq in Er. destruct (snd (provider c)); [discriminate|].
      rewrite (save_eq c _ _ p) in Er by now rewrite !pathOf_log.
      unfold write_step in Er.
      destruct (fs _ !! Dir p) as [[?|? ? ?]|]; try discriminate;
        destruct (os.write _ _ _); discriminate.
    + exfalso. rewrite refresh_eq in Er. destruct (snd (provider c)); [discriminate|].
      rewrite (save_eq c _ _ p) in Er by now rewrite !pathOf_log.
      unfold write_step in Er.
      destruct (fs _ !! Dir p) as [[?|? ? ?]|]; try discriminate;
        destruct (os.write _ _ _); discriminate.
Qed.

Lemma Load_static_credentials_witness :
  aws.Expired ex_static ex_now = false
  /\ exists r w' evs,
      Load (ex_cache false) (ex_world ex_fs_static ex_now) = (Ret (ex_fresh, r), w')
      /\ trace w' = [] ++ EvStat ex_file :: EvReadFile ex_file :: EvRetrieve :: evs.
Proof.
  apply (Load_static_credentials (ex_cache false) (ex_world ex_fs_static ex_now)
           ex_file true ex_static).
  - reflexivity.
  - apply ex_pathOf.
  - vm_compute. reflexivity.
  - vm_compute. reflexivity.
  - vm_compute. reflexivity.
  - vm_compute. reflexivity.
  - reflexivity.
  - reflexivity.
  - vm_compute. reflexivity.
Defined.


